(** * vedro: seeding, repeating, selection and ordering of scenarios

    A shallow embedding of these pieces of the vedro test runner:

    - [Seeder]:   vedro/plugins/seeder/_seeder.py   (class SeederPlugin)
    - [Repeater]: vedro/plugins/repeater/_repeater.py (class RepeaterPlugin)
    - [Skipper]:  vedro/plugins/skipper/_skipper.py   (class SkipperPlugin)
    - [Orderer]:  the stable scenario orderer exercised by
                  tests/core/scenario_orderer/test_stable_scenario_orderer.py
    - [RichPrinter]: vedro/plugins/director/rich/_rich_printer.py
                  (the summary, the namespace and the spinner)
    - [Run]:      vedro/__init__.py (the plugins [run] registers)

    Plugin objects become records, handlers become functions from the
    plugin record to a [result] (Python exceptions are the [Raise] case),
    dictionaries are [gmap]s keyed by the scenario's [unique_id], and calls
    on collaborators (the scheduler, the injected [sleep]) are recorded in a
    trace, the way the test-suite's mocks record [mock_calls]. *)

From Stdlib Require Import ZArith Lia List Permutation.
From Stdlib Require Import Floats.SpecFloat.
From stdpp Require Import base option list strings pretty gmap.

Local Open Scope Z_scope.

(** ** Exceptions and results *)

Inductive exn : Type :=
| ValueError (msg : string)
| AssertionError.

Inductive result (A : Type) : Type :=
| Ok (a : A)
| Raise (e : exn).
Arguments Ok {A} a.
Arguments Raise {A} e.

#[global] Instance result_ret : MRet result := fun A a => Ok a.

#[global] Instance result_bind : MBind result := fun A B k r =>
  match r with
  | Ok a => k a
  | Raise e => Raise e
  end.

(** ** Scenarios

    The fields of [VirtualScenario] that the plugins read.  The attributes
    [__vedro__skipped__], [__vedro__only__] and [__vedro__skip_reason__]
    live on the original scenario class or on its template; an attribute
    that is not set is [None]. *)

Record ScenarioAttrs : Type := {
  attr_skipped : option bool;
  attr_only : option bool;
  attr_skip_reason : option (option string)
}.

Record VirtualScenario : Type := {
  unique_id : string;
  path : string;
  name : string;
  subject : string;
  template_index : option Z;
  orig_scenario : ScenarioAttrs;
  template : option ScenarioAttrs
}.

Inductive Status : Type := PASSED | FAILED | SKIPPED.

Record ScenarioResult : Type := {
  scenario : VirtualScenario;
  status : Status
}.

(** Modelled from the spec: the [Report] class is not among the sources;
    the spec describes it as counts plus "free-form summary lines
    contributed by extensions", [add_summary] appending one line. *)
Record Report : Type := {
  passed : Z;
  failed : Z;
  skipped : Z;
  summary : list string
}.

Definition add_summary (line : string) (r : Report) : Report :=
  {| passed := passed r; failed := failed r; skipped := skipped r;
     summary := summary r ++ [line] |}.

(** ** The random generator interface *)

Inductive SeedValue : Type :=
| SeedStr (s : string)
| SeedInt (n : Z).

(** Modelled from the spec: the module [_random.py] ([RandomGenerator],
    [StandardRandomGenerator], [StateType]) is not among the sources.  The
    spec speaks of "a generator seeded with" a value and of "an opaque,
    copyable snapshot of a pseudo-random generator's internal state": so
    [set_seed] determines the whole state, and [get_state] and [set_state]
    copy it.  [random_int a b], which the plugin calls as
    [random_int(MIN_SEED, MAX_SEED)], is taken to draw an integer between
    [a] and [b] inclusive, as Python's [randint] does, and to advance the
    state. *)
Class RandomGenerator : Type := {
  StateType : Type;
  set_seed : SeedValue -> StateType;
  random_int : Z -> Z -> StateType -> Z * StateType;
  random_int_range : forall a b g,
    a <= b -> a <= fst (random_int a b g) <= b
}.

Module Seeder.

Definition MIN_SEED : Z := 1.
Definition MAX_SEED : Z := 2 ^ 63 - 1.

Section WithGenerator.
Context {G : RandomGenerator}.

(** [self._random] is the state of the shared generator; the other fields
    are the attributes of [SeederPlugin]. *)
Record SeederPlugin : Type := {
  _random : StateType;
  _use_fixed_seed : bool;
  _initial_seed : option string;
  _discovered_seed : option Z;
  _scheduled_seed : option Z;
  _scheduled_state : option StateType;
  _scenarios : gmap string Z;
  _history : gmap string nat
}.

(** [SeederPlugin.__init__], the shared generator being in state [g]. *)
Definition init (use_fixed : bool) (g : StateType) : SeederPlugin :=
  {| _random := g; _use_fixed_seed := use_fixed; _initial_seed := None;
     _discovered_seed := None; _scheduled_seed := None;
     _scheduled_state := None; _scenarios := ∅; _history := ∅ |}.

Definition _generate_seed (g : StateType) : Z * StateType :=
  random_int MIN_SEED MAX_SEED g.

(** [event.args.seed if event.args.seed is not None else str(uuid.uuid4())];
    [uuid4] is the string the call to [uuid.uuid4] yields. *)
Definition on_arg_parsed (seed : option string) (fixed_seed : bool)
    (uuid4 : string) (p : SeederPlugin) : SeederPlugin :=
  {| _random := _random p;
     _use_fixed_seed := fixed_seed;
     _initial_seed := Some (match seed with Some s => s | None => uuid4 end);
     _discovered_seed := _discovered_seed p;
     _scheduled_seed := _scheduled_seed p;
     _scheduled_state := _scheduled_state p;
     _scenarios := _scenarios p;
     _history := _history p |}.

(** The loop [for scenario in event.scheduler.discovered:
    self._scenarios[scenario.unique_id] = self._generate_seed()]. *)
Fixpoint assign_discovered (discovered : list VirtualScenario)
    (scenarios : gmap string Z) (g : StateType) : gmap string Z * StateType :=
  match discovered with
  | [] => (scenarios, g)
  | scn :: rest =>
      let '(seed, g') := _generate_seed g in
      assign_discovered rest (<[unique_id scn := seed]> scenarios) g'
  end.

Definition on_startup (discovered : list VirtualScenario) (p : SeederPlugin)
    : result SeederPlugin :=
  match _initial_seed p with
  | None => Raise AssertionError
  | Some initial =>
      let g0 := set_seed (SeedStr initial) in
      let '(scheduled_seed, _) := _generate_seed g0 in
      let g1 := set_seed (SeedInt scheduled_seed) in
      let scheduled_state := g1 in
      let '(discovered_seed, _) := _generate_seed g1 in
      let g2 := set_seed (SeedInt discovered_seed) in
      let '(scenarios, g3) := assign_discovered discovered (_scenarios p) g2 in
      Ok {| _random := g3;
            _use_fixed_seed := _use_fixed_seed p;
            _initial_seed := _initial_seed p;
            _discovered_seed := Some discovered_seed;
            _scheduled_seed := Some scheduled_seed;
            _scheduled_state := Some scheduled_state;
            _scenarios := scenarios;
            _history := _history p |}
  end.

(** [for _ in range(n): seed = self._generate_seed()], from the local
    [seed] and the generator state [g]; returns the final [seed]. *)
Fixpoint draw_loop (n : nat) (seed : Z) (g : StateType) : Z * StateType :=
  match n with
  | O => (seed, g)
  | S n' => let '(seed', g') := _generate_seed g in draw_loop n' seed' g'
  end.

(** The history update of [on_scenario_run]: insert 0 when absent, then
    add one. *)
Definition bump_history (uid : string) (h : gmap string nat) : gmap string nat :=
  let h0 := match h !! uid with Some _ => h | None => <[uid := O]> h end in
  match h0 !! uid with
  | Some k => <[uid := S k]> h0
  | None => h0
  end.

(** The part of [on_scenario_run] that makes sure [unique_id] has a base
    seed: returns the base seed, the mapping and the overflow snapshot. *)
Definition base_seed_for (uid : string) (p : SeederPlugin)
    : result (Z * gmap string Z * option StateType) :=
  match _scenarios p !! uid with
  | Some seed => Ok (seed, _scenarios p, _scheduled_state p)
  | None =>
      match _scheduled_state p with
      | None => Raise AssertionError
      | Some st =>
          let '(seed, g') := _generate_seed st in
          Ok (seed, <[uid := seed]> (_scenarios p), Some g')
      end
  end.

(** [on_scenario_run] returns the plugin after the handler together with
    the seed of the last [self._random.set_seed(seed)] it performed: the
    effective seed of this execution. *)
Definition on_scenario_run (uid : string) (p : SeederPlugin)
    : result (SeederPlugin * Z) :=
  let history := bump_history uid (_history p) in
  '(base, scenarios, scheduled_state) ← base_seed_for uid p;
  let g := set_seed (SeedInt base) in
  let with_random (g' : StateType) :=
    {| _random := g';
       _use_fixed_seed := _use_fixed_seed p;
       _initial_seed := _initial_seed p;
       _discovered_seed := _discovered_seed p;
       _scheduled_seed := _scheduled_seed p;
       _scheduled_state := scheduled_state;
       _scenarios := scenarios;
       _history := history |} in
  if _use_fixed_seed p then Ok (with_random g, base)
  else
    let n := default O (history !! uid) in
    let '(seed, _) := draw_loop n base g in
    Ok (with_random (set_seed (SeedInt seed)), seed).

(** [f"--seed {self._initial_seed}"]: [None] prints as the word None. *)
Definition seed_line (initial : option string) : string :=
  "--seed " +:+ match initial with Some s => s | None => "None" end.

Definition on_cleanup (report : Report) (p : SeederPlugin) : Report :=
  if 0 <? passed report + failed report
  then add_summary (seed_line (_initial_seed p)) report
  else report.

(** *** The events the plugin subscribes to

    [OtherConsumer g] is not an event of the plugin: it stands for any
    other user of the shared generator leaving it in state [g] between two
    events. *)
Inductive Event : Type :=
| ArgParsedEvent (seed : option string) (fixed_seed : bool) (uuid4 : string)
| StartupEvent (discovered : list VirtualScenario)
| ScenarioRunEvent (uid : string)
| CleanupEvent (report : Report)
| OtherConsumer (g : StateType).

Definition disturb (g : StateType) (p : SeederPlugin) : SeederPlugin :=
  {| _random := g;
     _use_fixed_seed := _use_fixed_seed p;
     _initial_seed := _initial_seed p;
     _discovered_seed := _discovered_seed p;
     _scheduled_seed := _scheduled_seed p;
     _scheduled_state := _scheduled_state p;
     _scenarios := _scenarios p;
     _history := _history p |}.

(** One event: the plugin afterwards and, for a scenario run, its
    effective seed. *)
Definition fire (ev : Event) (p : SeederPlugin)
    : result (SeederPlugin * option Z) :=
  match ev with
  | ArgParsedEvent seed fixed uuid4 => Ok (on_arg_parsed seed fixed uuid4 p, None)
  | StartupEvent discovered => p' ← on_startup discovered p; Ok (p', None)
  | ScenarioRunEvent uid => '(p', seed) ← on_scenario_run uid p; Ok (p', Some seed)
  | CleanupEvent _ => Ok (p, None)
  | OtherConsumer g => Ok (disturb g p, None)
  end.

(** A sequence of events; the effective seeds come out in order. *)
Fixpoint run (evs : list Event) (p : SeederPlugin)
    : result (SeederPlugin * list Z) :=
  match evs with
  | [] => Ok (p, [])
  | ev :: rest =>
      '(p1, s) ← fire ev p;
      '(p2, seeds) ← run rest p1;
      Ok (p2, match s with Some x => x :: seeds | None => seeds end)
  end.

(** *** Vocabulary of the statements *)

(** The generator after [n] draws. *)
Fixpoint advance (n : nat) (g : StateType) : StateType :=
  match n with
  | O => g
  | S n' => advance n' (snd (_generate_seed g))
  end.

(** The [(k+1)]-th draw of a generator in state [g]. *)
Definition draw_at (k : nat) (g : StateType) : Z :=
  fst (_generate_seed (advance k g)).

Definition in_range (seed : Z) : Prop := MIN_SEED <= seed <= MAX_SEED.

Definition times_run (uid : string) (seen : list string) : nat :=
  length (filter (λ u, u = uid) seen).

(** The unique ids that get their base seed from the overflow stream, in
    the order they are met, [known] being the ids that have one already. *)
Fixpoint minted (evs : list Event) (known : gset string) : list string :=
  match evs with
  | [] => []
  | ScenarioRunEvent u :: rest =>
      if decide (u ∈ known) then minted rest known
      else u :: minted rest ({[u]} ∪ known)
  | _ :: rest => minted rest known
  end.

(** The effective seeds of a run, and the base seed a startup recorded. *)
Definition effective_seeds (r : result (SeederPlugin * list Z)) : option (list Z) :=
  match r with Ok (_, seeds) => Some seeds | Raise _ => None end.

Definition recorded_base_seed (r : result SeederPlugin) (uid : string) : option Z :=
  match r with Ok q => _scenarios q !! uid | Raise _ => None end.

Definition is_arg_parsed (ev : Event) : bool :=
  match ev with ArgParsedEvent _ _ _ => true | _ => false end.

Definition is_startup (ev : Event) : bool :=
  match ev with StartupEvent _ => true | _ => false end.

Definition seeds_in_range (p : SeederPlugin) : Prop :=
  (forall s, _scheduled_seed p = Some s -> in_range s) /\
  (forall s, _discovered_seed p = Some s -> in_range s) /\
  (forall u s, _scenarios p !! u = Some s -> in_range s).

(** The allocation of the startup walk as the specification words it: the
    discovery stream is seeded with the run-level seed and the overflow
    stream with one value drawn off the discovery stream, either before
    the walk over [discovered] or after it.  Returns the overflow seed and
    the base seeds. *)
Definition spec_startup_allocation (overflow_first : bool) (initial : string)
    (discovered : list VirtualScenario) : Z * gmap string Z :=
  let discovery := set_seed (SeedStr initial) in
  if overflow_first then
    let '(overflow_seed, discovery') := _generate_seed discovery in
    (overflow_seed, fst (assign_discovered discovered ∅ discovery'))
  else
    let '(scenarios, discovery') := assign_discovered discovered ∅ discovery in
    (fst (_generate_seed discovery'), scenarios).

End WithGenerator.

Arguments SeederPlugin : clear implicits.
Arguments Event : clear implicits.

(** *** Two generators

    [Lcg] is a 64-bit linear congruential generator (Knuth's MMIX
    constants), a string seed being folded into an integer.  [Constant]
    always draws the lower bound.  Both implement the interface. *)

Definition string_code (s : string) : Z :=
  fold_left (λ h c, (h * 31 + Z.of_N (Ascii.N_of_ascii c)) mod 2 ^ 64)
            (String.list_ascii_of_string s) 7.

Definition lcg_next (g : Z) : Z :=
  (6364136223846793005 * g + 1442695040888963407) mod 2 ^ 64.

Definition lcg_seed (v : SeedValue) : Z :=
  match v with
  | SeedStr s => string_code s
  | SeedInt n => n mod 2 ^ 64
  end.

Definition lcg_random_int (a b g : Z) : Z * Z :=
  let g' := lcg_next g in (a + (g' / 2) mod (b - a + 1), g').

Lemma lcg_random_int_range a b g :
  a <= b -> a <= fst (lcg_random_int a b g) <= b.
Proof.
  intros Hab. unfold lcg_random_int. cbn [fst].
  pose proof (Z.mod_pos_bound (lcg_next g / 2) (b - a + 1)). lia.
Qed.

Definition Lcg : RandomGenerator :=
  {| StateType := Z; set_seed := lcg_seed; random_int := lcg_random_int;
     random_int_range := lcg_random_int_range |}.

Lemma constant_random_int_range (a b : Z) (g : unit) :
  a <= b -> a <= fst (a, g) <= b.
Proof. cbn [fst]. lia. Qed.

Definition Constant : RandomGenerator :=
  {| StateType := unit; set_seed := λ _, tt; random_int := λ a _ g, (a, g);
     random_int_range := constant_random_int_range |}.

(** A scenario that carries only an identity and a path. *)
Definition plain_scenario (uid path : string) : VirtualScenario :=
  {| unique_id := uid; path := path; name := "Scenario"; subject := uid;
     template_index := None;
     orig_scenario := {| attr_skipped := None; attr_only := None;
                         attr_skip_reason := None |};
     template := None |}.

Definition scenario_a : VirtualScenario := plain_scenario "a" "scenarios/a.py".

(** *** The life cycle of the plugin *)

Section Lifecycle.
Context {G : RandomGenerator}.

(** Whether a sequence of events keeps the order the handlers rely on: the
    arguments are parsed before a startup, and a startup comes before a
    scenario runs.  [parsed] and [started] tell what happened earlier. *)
Fixpoint in_order (parsed started : bool) (evs : list (Event G)) : bool :=
  match evs with
  | [] => true
  | ArgParsedEvent _ _ _ :: rest => in_order true started rest
  | StartupEvent _ :: rest => parsed && in_order parsed true rest
  | ScenarioRunEvent _ :: rest => started && in_order parsed started rest
  | CleanupEvent _ :: rest => in_order parsed started rest
  | OtherConsumer _ :: rest => in_order parsed started rest
  end.

(** How many times the scenario [uid] is run in [evs]. *)
Fixpoint executions (uid : string) (evs : list (Event G)) : nat :=
  match evs with
  | [] => O
  | ScenarioRunEvent u :: rest =>
      ((if decide (u = uid) then 1 else 0) + executions uid rest)%nat
  | _ :: rest => executions uid rest
  end.

(** The events of the plugin itself, the other consumers left out. *)
Definition is_other_consumer (ev : Event G) : bool :=
  match ev with OtherConsumer _ => true | _ => false end.

Definition own_events (evs : list (Event G)) : list (Event G) :=
  List.filter (fun ev => negb (is_other_consumer ev)) evs.

End Lifecycle.

(** A plugin after a startup that recorded the base seed 5 for ["a"]: the
    arguments of the constructor are the fields in the order of the
    record, from [_random] to the empty [_history]. *)
Definition started_plugin : SeederPlugin Lcg :=
  @Build_SeederPlugin Lcg (0 : Z) false (Some "42") (Some 3) (Some 2)
    (Some (7 : Z)) {["a" := 5]} ∅.

End Seeder.

Module Repeater.

(** Python floats are IEEE 754 binary64 values: [spec_float], with its
    signed zeros, infinities and NaN.  [x < y] and [x > y] are [SFltb]. *)
Abbreviation float := spec_float.

Definition zero : float := S754_zero false.

(** The calls the plugin makes on its collaborators: the injected [sleep],
    the scheduler's [schedule] and the registry's [register]. *)
Inductive Call : Type :=
| Sleep (delay : float)
| Schedule (scn : VirtualScenario)
| RegisterScheduler.

(** The scheduler handed over at startup; [is_repeater_scheduler] tells
    whether it is an instance of [RepeaterScenarioScheduler]. *)
Record ScenarioScheduler : Type := {
  is_repeater_scheduler : bool
}.

Inductive ConfigType : Type := Config.

Record RepeaterPlugin : Type := {
  _repeats : Z;
  _repeats_delay : float;
  _global_config : option ConfigType;
  _scheduler : option ScenarioScheduler;
  _repeat_scenario_id : option string
}.

(** [RepeaterPlugin.__init__]. *)
Definition init : RepeaterPlugin :=
  {| _repeats := 1; _repeats_delay := zero; _global_config := None;
     _scheduler := None; _repeat_scenario_id := None |}.

Definition on_config_loaded (config : ConfigType) (p : RepeaterPlugin)
    : RepeaterPlugin :=
  {| _repeats := _repeats p; _repeats_delay := _repeats_delay p;
     _global_config := Some config; _scheduler := _scheduler p;
     _repeat_scenario_id := _repeat_scenario_id p |}.

Definition on_arg_parsed (repeats : Z) (repeats_delay : float)
    (p : RepeaterPlugin) : result (RepeaterPlugin * list Call) :=
  let p' := {| _repeats := repeats; _repeats_delay := repeats_delay;
               _global_config := _global_config p;
               _scheduler := _scheduler p;
               _repeat_scenario_id := _repeat_scenario_id p |} in
  if repeats <? 1 then Raise (ValueError "--repeats must be >= 1")
  else if SFltb repeats_delay zero
  then Raise (ValueError "--repeats-delay must be >= 0.0")
  else if SFltb zero repeats_delay && (repeats <=? 1)
  then Raise (ValueError "--repeats-delay must be used with --repeats > 1")
  else if repeats <=? 1 then Ok (p', [])
  else match _global_config p with
       | None => Raise AssertionError
       | Some _ => Ok (p', [RegisterScheduler])
       end.

Definition on_startup (scheduler : ScenarioScheduler) (p : RepeaterPlugin)
    : RepeaterPlugin :=
  {| _repeats := _repeats p; _repeats_delay := _repeats_delay p;
     _global_config := _global_config p; _scheduler := Some scheduler;
     _repeat_scenario_id := _repeat_scenario_id p |}.

(** The loop [for _ in range(n): if delay > 0.0: await sleep(delay);
    scheduler.schedule(scenario)]. *)
Fixpoint repeat_loop (n : nat) (delay : float) (scn : VirtualScenario)
    : list Call :=
  match n with
  | O => []
  | S n' =>
      (if SFltb zero delay then [Sleep delay] else [])
        ++ Schedule scn :: repeat_loop n' delay scn
  end.

Definition on_scenario_end (r : ScenarioResult) (p : RepeaterPlugin)
    : result (RepeaterPlugin * list Call) :=
  if _repeats p <=? 1 then Ok (p, [])
  else
    match _scheduler p with
    | Some scheduler =>
        if is_repeater_scheduler scheduler then
          let uid := unique_id (scenario r) in
          if decide (_repeat_scenario_id p = Some uid) then Ok (p, [])
          else
            Ok ({| _repeats := _repeats p;
                   _repeats_delay := _repeats_delay p;
                   _global_config := _global_config p;
                   _scheduler := _scheduler p;
                   _repeat_scenario_id := Some uid |},
                repeat_loop (Z.to_nat (_repeats p - 1)) (_repeats_delay p)
                            (scenario r))
        else Raise AssertionError
    | None => Raise AssertionError
    end.

(** The events of a run.  [subscribe] listens to the passed and the failed
    completions with [on_scenario_end]; nothing is subscribed to the
    skipped completion.  The cleanup handler only writes to the report. *)
Inductive Event : Type :=
| ConfigLoadedEvent (config : ConfigType)
| ArgParsedEvent (repeats : Z) (repeats_delay : float)
| StartupEvent (scheduler : ScenarioScheduler)
| ScenarioPassedEvent (r : ScenarioResult)
| ScenarioFailedEvent (r : ScenarioResult)
| ScenarioSkippedEvent (r : ScenarioResult)
| CleanupEvent (report : Report).

Definition fire (ev : Event) (p : RepeaterPlugin)
    : result (RepeaterPlugin * list Call) :=
  match ev with
  | ConfigLoadedEvent config => Ok (on_config_loaded config p, [])
  | ArgParsedEvent repeats repeats_delay => on_arg_parsed repeats repeats_delay p
  | StartupEvent scheduler => Ok (on_startup scheduler p, [])
  | ScenarioPassedEvent r => on_scenario_end r p
  | ScenarioFailedEvent r => on_scenario_end r p
  | ScenarioSkippedEvent _ => Ok (p, [])
  | CleanupEvent _ => Ok (p, [])
  end.

(** A sequence of events, with the calls each of them caused. *)
Fixpoint run (evs : list Event) (p : RepeaterPlugin)
    : result (RepeaterPlugin * list (list Call)) :=
  match evs with
  | [] => Ok (p, [])
  | ev :: rest =>
      '(p1, calls) ← fire ev p;
      '(p2, traces) ← run rest p1;
      Ok (p2, calls :: traces)
  end.

(** *** Vocabulary of the statements *)

Definition is_schedule (c : Call) : bool :=
  match c with Schedule _ => true | _ => false end.

Definition is_sleep (c : Call) : bool :=
  match c with Sleep _ => true | _ => false end.

(** The completion events, and the scenario that completed. *)
Definition completed (ev : Event) : option ScenarioResult :=
  match ev with
  | ScenarioPassedEvent r | ScenarioFailedEvent r | ScenarioSkippedEvent r => Some r
  | _ => None
  end.

Definition is_skipped (ev : Event) : bool :=
  match ev with ScenarioSkippedEvent _ => true | _ => false end.

Definition event_uid (ev : Event) : option string :=
  (fun r => unique_id (scenario r)) <$> completed ev.

(** The unique id of the most recent event that caused a [schedule] call,
    [before] being the one before the events listed. *)
Fixpoint last_trigger (before : option string) (evs : list Event)
    (traces : list (list Call)) : option string :=
  match evs, traces with
  | ev :: evs', calls :: traces' =>
      last_trigger (if existsb is_schedule calls then event_uid ev else before)
                   evs' traces'
  | _, _ => before
  end.

(** Two floats: 0.1 and -0.001. *)
Definition float_0_1 : float := S754_finite false 7205759403792794 (-56).
Definition float_minus_0_001 : float := S754_finite true 4611686018427388 (-62).

Definition passed_result (uid : string) : ScenarioResult :=
  {| scenario := Seeder.plain_scenario uid ("scenarios/" +:+ uid +:+ ".py");
     status := PASSED |}.

Definition repeater_scheduler : ScenarioScheduler :=
  {| is_repeater_scheduler := true |}.

(** A plugin whose configuration is loaded and that has been handed a
    repeater scheduler; [last] is the unique id it remembers. *)
Definition ready (repeats : Z) (delay : float) (last : option string)
    : RepeaterPlugin :=
  {| _repeats := repeats; _repeats_delay := delay;
     _global_config := Some Config; _scheduler := Some repeater_scheduler;
     _repeat_scenario_id := last |}.

(** *** The cleanup handler *)

Section Cleanup.

(** Python's [repr] of a float, the shortest decimal string that reads
    back as the same float; the plugin only splices it into the line. *)
Variable repr : float -> string.

(** [f"repeated x{self._repeats}"], and [f" with delay
    {self._repeats_delay!r}s"] after it for a delay greater than zero. *)
Definition on_cleanup (report : Report) (p : RepeaterPlugin) : Report :=
  if 1 <? _repeats p then
    let message := "repeated x" +:+ pretty (_repeats p) in
    let message :=
      if SFltb zero (_repeats_delay p)
      then message +:+ " with delay " +:+ repr (_repeats_delay p) +:+ "s"
      else message in
    add_summary message report
  else report.

End Cleanup.

(** *** More vocabulary *)

(** The completions of [evs] that get past the same-id guard: the passed
    and the failed ones whose unique id is not the one remembered, [last]
    being the id remembered before [evs]. *)
Fixpoint triggers (last : option string) (evs : list Event)
    : list ScenarioResult :=
  match evs with
  | [] => []
  | ScenarioPassedEvent r :: rest | ScenarioFailedEvent r :: rest =>
      if decide (last = Some (unique_id (scenario r))) then triggers last rest
      else r :: triggers (Some (unique_id (scenario r))) rest
  | _ :: rest => triggers last rest
  end.

(** The [schedule] calls of a run, in order. *)
Definition schedule_calls (traces : list (list Call)) : list Call :=
  List.filter is_schedule (concat traces).

(** The [repeats - 1] schedule calls a completion that gets past the guard
    is answered with. *)
Definition repeats_of (repeats : Z) (r : ScenarioResult) : list Call :=
  replicate (Z.to_nat (repeats - 1)) (Schedule (scenario r)).

End Repeater.

(** ** Paths

    [str.split] on one separator character, as Python has it: the empty
    string splits into one empty part. *)
Definition slash : Ascii.ascii := Ascii.ascii_of_nat 47.

Fixpoint split_on (sep : Ascii.ascii) (s : string) : list string :=
  match s with
  | EmptyString => [EmptyString]
  | String c rest =>
      if Ascii.eqb c sep then EmptyString :: split_on sep rest
      else match split_on sep rest with
           | [] => [String c EmptyString]
           | part :: parts => String c part :: parts
           end
  end.

Definition join_with (sep : string) (parts : list string) : string :=
  match parts with
  | [] => ""
  | part :: rest => fold_left (fun acc x => acc +:+ sep +:+ x) rest part
  end.

(** Whether the character [c] occurs in [s]. *)
Fixpoint occurs (c : Ascii.ascii) (s : string) : bool :=
  match s with
  | EmptyString => false
  | String x rest => Ascii.eqb x c || occurs c rest
  end.

Module Skipper.

Record _CompositePath : Type := {
  file_path : string;
  cls_name : option string;
  tmpl_idx : option Z
}.

Record SkipperPlugin : Type := {
  _subject : option string;
  _selected : list _CompositePath;
  _deselected : list _CompositePath;
  _forbid_only : bool
}.

(** *** [os.path] on POSIX paths *)

Definition isabs (p : string) : bool :=
  match p with
  | String c _ => Ascii.eqb c slash
  | EmptyString => false
  end.

Definition path_parts (p : string) : list string :=
  List.filter (fun c => negb (String.eqb c "") && negb (String.eqb c "."))
              (split_on slash p).

Fixpoint common_prefix (a b : list string) : list string :=
  match a, b with
  | x :: a', y :: b' => if String.eqb x y then x :: common_prefix a' b' else []
  | _, _ => []
  end.

(** [os.path.commonpath] of two paths: the longest common sequence of
    components, with the leading separator of absolute paths; mixing an
    absolute and a relative path is a [ValueError]. *)
Definition commonpath (p q : string) : result string :=
  if Bool.eqb (isabs p) (isabs q) then
    Ok ((if isabs p then "/" else "")
          +:+ join_with "/" (common_prefix (path_parts p) (path_parts q)))
  else Raise (ValueError "Can't mix absolute and relative paths").

(** *** The attributes of a scenario *)

Definition _template_attr {A} (attr : ScenarioAttrs -> option A)
    (scn : VirtualScenario) : option A :=
  match template scn with
  | Some t => attr t
  | None => None
  end.

Definition _is_scenario_skipped (scn : VirtualScenario) : bool :=
  match _template_attr attr_skipped scn with
  | Some b => b
  | None => default false (attr_skipped (orig_scenario scn))
  end.

Definition _is_scenario_special (scn : VirtualScenario) : bool :=
  match _template_attr attr_only scn with
  | Some b => b
  | None => default false (attr_only (orig_scenario scn))
  end.

Definition _get_skip_reason (scn : VirtualScenario) : option string :=
  match _template_attr attr_skip_reason scn with
  | Some reason => reason
  | None => default None (attr_skip_reason (orig_scenario scn))
  end.

(** *** Selection *)

Definition _is_match_scenario (cp : _CompositePath) (scn : VirtualScenario)
    : result bool :=
  common ← commonpath (file_path cp) (path scn);
  if negb (String.eqb common (file_path cp)) then Ok false
  else if match cls_name cp with
          | Some cls => negb (String.eqb cls (name scn))
          | None => false
          end then Ok false
  else if match tmpl_idx cp with
          | Some idx => negb (bool_decide (Some idx = template_index scn))
          | None => false
          end then Ok false
  else Ok true.

(** [for path in paths: if self._is_match_scenario(path, scenario): return
    True], then [return False]. *)
Fixpoint _matches_any (paths : list _CompositePath) (scn : VirtualScenario)
    : result bool :=
  match paths with
  | [] => Ok false
  | cp :: rest =>
      m ← _is_match_scenario cp scn;
      if (m : bool) then Ok true else _matches_any rest scn
  end.

Definition _is_scenario_selected (sk : SkipperPlugin) (scn : VirtualScenario)
    : result bool := _matches_any (_selected sk) scn.

Definition _is_scenario_deselected (sk : SkipperPlugin) (scn : VirtualScenario)
    : result bool := _matches_any (_deselected sk) scn.

Definition _is_scenario_ignored (sk : SkipperPlugin) (scn : VirtualScenario)
    : result bool :=
  if match _subject sk with
     | Some subj => negb (String.eqb subj "") && negb (String.eqb (subject scn) subj)
     | None => false
     end then Ok true
  else
    selected ← _is_scenario_selected sk scn;
    if negb (selected : bool) then Ok true
    else
      deselected ← _is_scenario_deselected sk scn;
      if (deselected : bool) then Ok true else Ok false.

(** *** The scheduler *)

(** Modelled from the spec: the scheduler classes are not among the
    sources.  The spec gives the scheduler an immutable [discovered] list
    and "an ordered, mutable work-list of pending Scenarios"; [ignore]
    "removes a Scenario from the pending work-list; idempotent";
    [schedule] "appends a Scenario ... to the end of the pending
    work-list"; an iteration pass runs over the work-list's "current
    contents" and is a "lazy ... sequence of pending Scenarios", so a
    scenario ignored before its turn is not produced. *)
Record ScenarioScheduler : Type := {
  discovered : list VirtualScenario;
  scheduled : list VirtualScenario
}.

Definition same_scenario (a b : VirtualScenario) : bool :=
  String.eqb (unique_id a) (unique_id b).

Definition ignore (scn : VirtualScenario) (sch : ScenarioScheduler)
    : ScenarioScheduler :=
  {| discovered := discovered sch;
     scheduled := List.filter (fun x => negb (same_scenario scn x)) (scheduled sch) |}.

Definition schedule (scn : VirtualScenario) (sch : ScenarioScheduler)
    : ScenarioScheduler :=
  {| discovered := discovered sch; scheduled := scheduled sch ++ [scn] |}.

Definition is_pending (scn : VirtualScenario) (sch : ScenarioScheduler) : bool :=
  existsb (same_scenario scn) (scheduled sch).

(** *** The startup handler *)

(** What the handler does to its collaborators: it starts an iteration
    pass over the scheduler, ignores a scenario, or marks one skipped. *)
Inductive Call : Type :=
| Iterate
| Ignore (scn : VirtualScenario)
| Skip (scn : VirtualScenario) (reason : option string).

Definition forbid_only_message (scn : VirtualScenario) : string :=
  "Scenario '" +:+ unique_id scn +:+ "' has @vedro.only, but "
    +:+ "'forbid_only' option is enabled".

(** The state of the handler during a pass: the scheduler, the set
    [special_scenarios] and the calls made so far. *)
Definition PassState : Type :=
  (ScenarioScheduler * gset string * list Call)%type.

(** The body of the first [async for]. *)
Definition first_pass_body (sk : SkipperPlugin) (scn : VirtualScenario)
    (st : PassState) : result PassState :=
  let '(sch, special, calls) := st in
  ignored ← _is_scenario_ignored sk scn;
  if (ignored : bool) then Ok (ignore scn sch, special, calls ++ [Ignore scn])
  else
    let calls1 :=
      if _is_scenario_skipped scn
      then calls ++ [Skip scn (_get_skip_reason scn)] else calls in
    if _is_scenario_special scn then
      if _forbid_only sk then Raise (ValueError (forbid_only_message scn))
      else Ok (sch, {[unique_id scn]} ∪ special, calls1)
    else Ok (sch, special, calls1).

(** The body of the second [async for]. *)
Definition second_pass_body (scn : VirtualScenario) (st : PassState)
    : result PassState :=
  let '(sch, special, calls) := st in
  if bool_decide (unique_id scn ∈ special) then Ok st
  else Ok (ignore scn sch, special, calls ++ [Ignore scn]).

(** One iteration pass over [queue], the contents of the work-list when
    the pass began. *)
Fixpoint iterate (body : VirtualScenario -> PassState -> result PassState)
    (queue : list VirtualScenario) (st : PassState) : result PassState :=
  match queue with
  | [] => Ok st
  | scn :: rest =>
      if is_pending scn (fst (fst st)) then
        st' ← body scn st; iterate body rest st'
      else iterate body rest st
  end.

Definition async_for (body : VirtualScenario -> PassState -> result PassState)
    (st : PassState) : result PassState :=
  let '(sch, special, calls) := st in
  iterate body (scheduled sch) (sch, special, calls ++ [Iterate]).

Definition on_startup (sk : SkipperPlugin) (sch : ScenarioScheduler)
    : result (ScenarioScheduler * list Call) :=
  '(sch1, special, calls1) ← async_for (first_pass_body sk) (sch, ∅, []);
  if bool_decide (special = ∅) then Ok (sch1, calls1)
  else
    '(sch2, _, calls2) ← async_for second_pass_body (sch1, special, calls1);
    Ok (sch2, calls2).

(** *** Vocabulary of the statements *)

Definition ignored_by (calls : list Call) : list VirtualScenario :=
  omap (fun c => match c with Ignore scn => Some scn | _ => None end) calls.

Definition passes (calls : list Call) : nat :=
  length (List.filter (fun c => match c with Iterate => true | _ => false end) calls).

(** Some scenarios and a plugin that selects the directory [/scenarios]. *)
Definition make_scenario (uid path : string) (only : bool) : VirtualScenario :=
  {| unique_id := uid; path := path; name := "Scenario"; subject := uid;
     template_index := None;
     orig_scenario := {| attr_skipped := None;
                         attr_only := if only then Some true else None;
                         attr_skip_reason := None |};
     template := None |}.

Definition select_all (deselected : list string) (forbid_only : bool)
    : SkipperPlugin :=
  {| _subject := None;
     _selected := [{| file_path := "/scenarios"; cls_name := None;
                      tmpl_idx := None |}];
     _deselected := (fun f => {| file_path := f; cls_name := None;
                                 tmpl_idx := None |}) <$> deselected;
     _forbid_only := forbid_only |}.

Definition scheduler_of (scenarios : list VirtualScenario) : ScenarioScheduler :=
  {| discovered := scenarios; scheduled := scenarios |}.

(** What the body of the first pass does with a scenario, [deemed]
    telling whether it is deemed ignored: whether it ignores it, what it
    adds to [special_scenarios], and the calls it makes. *)
Definition first_cond (deemed : VirtualScenario -> bool)
    : VirtualScenario -> bool := deemed.

Definition first_upd (deemed : VirtualScenario -> bool)
    (scn : VirtualScenario) (special : gset string) : gset string :=
  if negb (deemed scn) && _is_scenario_special scn
  then {[unique_id scn]} ∪ special else special.

Definition first_out (deemed : VirtualScenario -> bool)
    (scn : VirtualScenario) : list Call :=
  if deemed scn then [Ignore scn]
  else if _is_scenario_skipped scn then [Skip scn (_get_skip_reason scn)]
  else [].

(** The scenarios the second pass ignores: those whose unique id is not
    in [special]. *)
Definition second_cond (special : gset string) (scn : VirtualScenario) : bool :=
  negb (bool_decide (unique_id scn ∈ special)).

Definition second_out (special : gset string) (scn : VirtualScenario)
    : list Call :=
  if second_cond special scn then [Ignore scn] else [].

Definition scenario_a : VirtualScenario := make_scenario "a" "/scenarios/a.py" false.
Definition scenario_b : VirtualScenario := make_scenario "b" "/scenarios/b.py" true.
Definition scenario_c : VirtualScenario := make_scenario "c" "/scenarios/old/c.py" true.
Definition scenario_d : VirtualScenario := make_scenario "d" "/other/d.py" false.

Definition work_list : list VirtualScenario :=
  [scenario_a; scenario_b; scenario_c; scenario_d].

(** What [select_all ["/scenarios/old"]] deems ignored in [work_list]. *)
Definition outside_selection (scn : VirtualScenario) : bool :=
  String.eqb (unique_id scn) "c" || String.eqb (unique_id scn) "d".

(** *** The positional arguments

    Strings are byte strings, the UTF-8 form of Python's text.
    [os.path.split], [os.path.join], [str.split] and [str.join] work on
    them as Python has them on text.  On ASCII text [str.isnumeric] is
    decided here: a non-empty run of the digits 0 to 9.  On other text
    (it may hold numerals such as superscripts or Arabic-Indic digits) it
    is left to a parameter, and so is [int], which reads some numeric
    text and raises [ValueError] on other. *)

Definition colon : Ascii.ascii := Ascii.ascii_of_nat 58.
Definition hash : Ascii.ascii := Ascii.ascii_of_nat 35.

(** [p.rstrip("/")]. *)
Fixpoint rstrip_slashes (p : string) : string :=
  match p with
  | EmptyString => EmptyString
  | String c rest =>
      match rstrip_slashes rest with
      | EmptyString => if Ascii.eqb c slash then EmptyString else String c EmptyString
      | kept => String c kept
      end
  end.

(** [p == "/" * len(p)]. *)
Fixpoint only_slashes (p : string) : bool :=
  match p with
  | EmptyString => true
  | String c rest => Ascii.eqb c slash && only_slashes rest
  end.

(** [p[:i], p[i:]] for [i = p.rfind("/") + 1]. *)
Fixpoint cut_after_last_slash (p : string) : string * string :=
  match p with
  | EmptyString => (EmptyString, EmptyString)
  | String c rest =>
      let '(head, tail) := cut_after_last_slash rest in
      match head with
      | EmptyString =>
          if Ascii.eqb c slash then (String c EmptyString, tail)
          else (EmptyString, String c tail)
      | _ => (String c head, tail)
      end
  end.

(** [os.path.split]: the head loses the separators at its end, unless it
    consists of separators only. *)
Definition os_path_split (p : string) : string * string :=
  let '(head, tail) := cut_after_last_slash p in
  if negb (String.eqb head "") && negb (only_slashes head)
  then (rstrip_slashes head, tail)
  else (head, tail).

Fixpoint ends_with_slash (p : string) : bool :=
  match p with
  | EmptyString => false
  | String c EmptyString => Ascii.eqb c slash
  | String _ rest => ends_with_slash rest
  end.

(** [os.path.join a b]. *)
Definition os_path_join (a b : string) : string :=
  if isabs b then b
  else if String.eqb a "" || ends_with_slash a then a +:+ b
  else a +:+ "/" +:+ b.

(** A character put in front of the first part. *)
Definition push (c : Ascii.ascii) (parts : list string) : list string :=
  match parts with
  | [] => [String c EmptyString]
  | part :: rest => String c part :: rest
  end.

(** [s.split("::")]: the occurrences of the separator are taken from the
    left and do not overlap. *)
Fixpoint split_colons (s : string) : list string :=
  match s with
  | EmptyString => [EmptyString]
  | String c rest =>
      match rest with
      | String c' rest' =>
          if Ascii.eqb c colon && Ascii.eqb c' colon
          then EmptyString :: split_colons rest'
          else push c (split_colons rest)
      | EmptyString => [String c EmptyString]
      end
  end.

Definition is_decimal (c : Ascii.ascii) : bool :=
  let n := Ascii.N_of_ascii c in ((48 <=? n) && (n <=? 57))%N.

Definition is_ascii (s : string) : bool :=
  forallb (fun c => (Ascii.N_of_ascii c <? 128)%N) (String.list_ascii_of_string s).

(** [s.isnumeric()] for ASCII text. *)
Definition ascii_numeric (s : string) : bool :=
  negb (String.eqb s "") && forallb is_decimal (String.list_ascii_of_string s).

(** The integer a run of ASCII digits denotes, and an [int] that reads
    such runs only. *)
Definition int_of_digits (s : string) : Z :=
  fold_left (fun acc c => acc * 10 + (Z.of_N (Ascii.N_of_ascii c) - 48))
            (String.list_ascii_of_string s) 0.

Definition ascii_int (s : string) : result Z :=
  if ascii_numeric s then Ok (int_of_digits s)
  else Raise (ValueError "invalid literal for int() with base 10").

Section CompositePaths.

(** [os.path.normpath] and [os.path.abspath]; the latter depends on the
    working directory of the process. *)
Variable normpath : string -> string.
Variable abspath : string -> string.

(** [str.isnumeric] on text that is not ASCII, and [int]. *)
Variable unicode_isnumeric : string -> bool.
Variable int : string -> result Z.

Definition isnumeric (s : string) : bool :=
  if is_ascii s then ascii_numeric s else unicode_isnumeric s.

Definition _normalize_path (file_or_dir : string) : result string :=
  let path := normpath file_or_dir in
  if isabs path then Ok path
  else
    common ← commonpath "scenarios" path;
    let path :=
      if negb (String.eqb common "scenarios")
      then os_path_join "scenarios" path else path in
    Ok (abspath path).

(** [file_name, *other = tail.split("::")] and [cls_name, *other =
    "".join(other).split("#")]: a split always has a first part.  The
    arguments of [_CompositePath(...)] are evaluated in the order written,
    [int(tmpl_idx)] last. *)
Definition _get_composite_path (file_or_dir : string) : result _CompositePath :=
  let '(head, tail) := os_path_split file_or_dir in
  let parts := split_colons tail in
  let file_name := hd "" parts in
  let other := tl parts in
  let parts := split_on hash (join_with "" other) in
  let cls := hd "" parts in
  let other := tl parts in
  let idx := join_with "" other in
  file_path ← _normalize_path (os_path_join head file_name);
  let cls_name := if 0 <? Z.of_nat (String.length cls) then Some cls else None in
  tmpl_idx ← (if isnumeric idx then n ← int idx; Ok (Some n) else Ok None);
  Ok {| file_path := file_path; cls_name := cls_name; tmpl_idx := tmpl_idx |}.

(** [os.path.isdir(path) or os.path.isfile(path)]. *)
Variable path_exists : string -> bool.

(** One of the two loops of [on_arg_parsed]: each argument is parsed,
    checked and appended to [paths]. *)
Fixpoint collect (args : list string) (paths : list _CompositePath)
    : result (list _CompositePath) :=
  match args with
  | [] => Ok paths
  | file_or_dir :: rest =>
      composite_path ← _get_composite_path file_or_dir;
      if path_exists (file_path composite_path)
      then collect rest (paths ++ [composite_path])
      else Raise AssertionError
  end.

Definition on_arg_parsed (subject : option string)
    (file_or_dir ignored : list string) (sk : SkipperPlugin)
    : result SkipperPlugin :=
  selected ← collect file_or_dir (_selected sk);
  deselected ← collect ignored (_deselected sk);
  Ok {| _subject := subject; _selected := selected;
        _deselected := deselected; _forbid_only := _forbid_only sk |}.

(** An argument that is parsed into [cp], and whether its path exists. *)
Definition parsed_as (found : bool) (file_or_dir : string) (cp : _CompositePath)
    : Prop :=
  _get_composite_path file_or_dir = Ok cp /\
  path_exists (file_path cp) = found.

End CompositePaths.

(** A scenario that carries the skipped attribute and a reason. *)
Definition skipped_scenario (uid path : string) (reason : option string)
    : VirtualScenario :=
  {| unique_id := uid; path := path; name := "Scenario"; subject := uid;
     template_index := None;
     orig_scenario := {| attr_skipped := Some true; attr_only := None;
                         attr_skip_reason := Some reason |};
     template := None |}.

Definition scenario_e : VirtualScenario :=
  skipped_scenario "e" "/scenarios/e.py" (Some "flaky").

(** A path in the form [os.path.commonpath] answers in: its components
    joined by single separators, after the leading separator of an
    absolute path; no empty component, no [.], no separator at the end. *)
Definition canonical (p : string) : Prop :=
  p = (if isabs p then "/" else "") +:+ join_with "/" (path_parts p).

(** A component of a path: not empty, not [.], and without separator. *)
Definition component (x : string) : Prop :=
  occurs slash x = false /\ x <> "" /\ x <> ".".

(** What it takes for a scenario to match a selected path: the path is in
    canonical form, its components are the first components of the path
    of the scenario, and the class name and the template index, where
    given, are those of the scenario. *)
Definition matches (cp : _CompositePath) (scn : VirtualScenario) : Prop :=
  canonical (file_path cp) /\
  path_parts (file_path cp) `prefix_of` path_parts (path scn) /\
  (forall cls, cls_name cp = Some cls -> name scn = cls) /\
  (forall idx, tmpl_idx cp = Some idx -> template_index scn = Some idx).

(** The subject filter lets a scenario through: there is no filter, or
    an empty one, or the subject is the one asked for. *)
Definition subject_passes (sk : SkipperPlugin) (scn : VirtualScenario) : Prop :=
  match _subject sk with
  | Some subj => subj = "" \/ subject scn = subj
  | None => True
  end.

(** The scenarios marked skipped, with the reasons given. *)
Definition skipped_by (calls : list Call)
    : list (VirtualScenario * option string) :=
  omap (fun c => match c with Skip scn reason => Some (scn, reason) | _ => None end)
       calls.

End Skipper.

Module Orderer.

(** Modelled from the spec: the orderer class ([StableScenarioOrderer]) is
    not among the sources, only its test is.  The spec (section 4.3) has
    it "build a tree keyed by path segment, each internal node mapping
    directory-name -> child node, and each leaf a Scenario grouped under
    its containing directory", and "traverse depth-first, pre-order: at
    each directory node, emit all direct-child Scenarios first -- sorted
    by filename using natural order (digit runs compared as integers,
    other characters compared by code point) -- then recurse into child
    directories in natural order of directory name". *)

(** *** Natural order *)

Inductive Chunk : Type :=
| Digits (run : string)
| Text (run : string).

Definition is_digit (c : Ascii.ascii) : bool :=
  let n := Ascii.N_of_ascii c in ((48 <=? n) && (n <=? 57))%N.

(** A string cut into its digit runs and the runs of other characters. *)
Fixpoint chunks (s : string) : list Chunk :=
  match s with
  | EmptyString => []
  | String c rest =>
      if is_digit c then
        match chunks rest with
        | Digits run :: more => Digits (String c run) :: more
        | more => Digits (String c EmptyString) :: more
        end
      else
        match chunks rest with
        | Text run :: more => Text (String c run) :: more
        | more => Text (String c EmptyString) :: more
        end
  end.

(** The integer a digit run denotes. *)
Definition digits_value (run : string) : N :=
  fold_left (fun acc c => (acc * 10 + (Ascii.N_of_ascii c - 48))%N)
            (String.list_ascii_of_string run) 0%N.

(** Digit runs compare as integers, other runs by code point; where a
    digit run meets another run, the digit run comes first. *)
Definition compare_chunk (a b : Chunk) : comparison :=
  match a, b with
  | Digits x, Digits y => N.compare (digits_value x) (digits_value y)
  | Text x, Text y => String.compare x y
  | Digits _, Text _ => Lt
  | Text _, Digits _ => Gt
  end.

Fixpoint compare_chunks (a b : list Chunk) : comparison :=
  match a, b with
  | [], [] => Eq
  | [], _ :: _ => Lt
  | _ :: _, [] => Gt
  | x :: a', y :: b' =>
      match compare_chunk x y with
      | Eq => compare_chunks a' b'
      | c => c
      end
  end.

Definition natural_compare (a b : string) : comparison :=
  compare_chunks (chunks a) (chunks b).

Definition natural_le (a b : string) : bool :=
  match natural_compare a b with Gt => false | _ => true end.

(** A stable insertion sort by a string key in natural order. *)
Section Sorting.
Context {A : Type} (key : A -> string).

Fixpoint insert_sorted (x : A) (l : list A) : list A :=
  match l with
  | [] => [x]
  | y :: rest =>
      if natural_le (key y) (key x) then y :: insert_sorted x rest
      else x :: y :: rest
  end.

Definition natural_sort (l : list A) : list A :=
  fold_left (fun sorted x => insert_sorted x sorted) l [].

End Sorting.

(** *** The tree *)

Inductive Node : Type :=
| Dir (files : list (string * VirtualScenario)) (dirs : list (string * Node)).

Definition empty : Node := Dir [] [].

(** The child [name] of a directory, created when it is not there yet,
    and changed by [f]. *)
Fixpoint with_child (name : string) (f : Node -> Node)
    (dirs : list (string * Node)) : list (string * Node) :=
  match dirs with
  | [] => [(name, f empty)]
  | (n, child) :: rest =>
      if String.eqb n name then (n, f child) :: rest
      else (n, child) :: with_child name f rest
  end.

(** Put a scenario under the directories [segments] lead to; the last
    segment is its file name. *)
Fixpoint insert (segments : list string) (scn : VirtualScenario) (t : Node)
    : Node :=
  match segments with
  | [] => t
  | [file] => let 'Dir files dirs := t in Dir (files ++ [(file, scn)]) dirs
  | dir :: rest =>
      let 'Dir files dirs := t in Dir files (with_child dir (insert rest scn) dirs)
  end.

Definition build (scenarios : list VirtualScenario) : Node :=
  fold_left (fun t scn => insert (split_on slash (path scn)) scn t)
            scenarios empty.

(** Depth first, pre-order: the files of a directory in natural order of
    their names, then its directories in natural order of theirs. *)
Fixpoint flatten (t : Node) : list VirtualScenario :=
  let 'Dir files dirs := t in
  (snd <$> natural_sort fst files)
    ++ concat (snd <$> natural_sort fst
                 ((fun d => (fst d, flatten (snd d))) <$> dirs)).

Definition sort (scenarios : list VirtualScenario) : list VirtualScenario :=
  flatten (build scenarios).

(** *** The scenarios of [test_sort_scenarios] *)

Definition make_vscenario (path : string) : VirtualScenario :=
  Seeder.plain_scenario path path.

Definition expected_order : list VirtualScenario :=
  make_vscenario <$>
    ["scenarios/scn2.py"; "scenarios/scn10.py"; "scenarios/dir1/scn1.py";
     "scenarios/dir1/scn2.py"; "scenarios/dir2/scn2.py";
     "scenarios/directory/scn.py"].

(** The order in which the test hands them over. *)
Definition test_input : list VirtualScenario :=
  make_vscenario <$>
    ["scenarios/directory/scn.py"; "scenarios/dir1/scn1.py";
     "scenarios/dir1/scn2.py"; "scenarios/dir2/scn2.py";
     "scenarios/scn2.py"; "scenarios/scn10.py"].

(** Scenarios can be compared. *)
#[global] Instance ScenarioAttrs_eq_dec : EqDecision ScenarioAttrs.
Proof. solve_decision. Defined.

#[global] Instance VirtualScenario_eq_dec : EqDecision VirtualScenario.
Proof. solve_decision. Defined.

(** Whether every order of [scenarios] is sorted into [expected]. *)
Definition sorts_every_order (scenarios expected : list VirtualScenario) : bool :=
  forallb (fun l => bool_decide (sort l = expected)) (permutations scenarios).

End Orderer.


(** ** The printer of the rich reporter

    vedro/plugins/director/rich/_rich_printer.py: what [RichPrinter] hands
    to the console, as the list of the [console.out] calls. *)
Module RichPrinter.

Record Style : Type := {
  color : option string;
  bold : option bool
}.

(** [console.out(text, style=..., end=...)]; an argument that is not
    given is [None]. *)
Inductive ConsoleCall : Type :=
| Out (text : string) (style : option Style) (end_ : option string).

Definition newline : Ascii.ascii := Ascii.ascii_of_nat 10.

(** [os.linesep], on POSIX. *)
Definition linesep : string := String newline "".

(** [s.replace(c, by)] for a pattern of one character. *)
Fixpoint replace_char (c : Ascii.ascii) (by_ : string) (s : string) : string :=
  match s with
  | EmptyString => EmptyString
  | String x rest =>
      if Ascii.eqb x c then by_ +:+ replace_char c by_ rest
      else String x (replace_char c by_ rest)
  end.

Definition underscore : Ascii.ascii := Ascii.ascii_of_nat 95.

Definition print_namespace (namespace : string) : list ConsoleCall :=
  let namespace := replace_char slash " / " (replace_char underscore " " namespace) in
  [Out ("* " +:+ namespace) (Some {| color := None; bold := Some true |}) None].

(** The spinner: [_scenario_spinner] holds the status object of the
    spinner that is shown, here the status it was made with.  The calls
    are those on the console ([console.status]) and on the status object
    ([start], [stop]). *)
Inductive SpinnerCall : Type :=
| MakeStatus (status : string)
| Start
| Stop.

Definition hide_spinner (spinner : option string)
    : option string * list SpinnerCall :=
  match spinner with
  | Some _ => (None, [Stop])
  | None => (None, [])
  end.

Definition show_spinner (status : string) (spinner : option string)
    : option string * list SpinnerCall :=
  let '(_, calls) :=
    match spinner with
    | Some _ => hide_spinner spinner
    | None => (spinner, [])
    end in
  (Some status, calls ++ [MakeStatus status; Start]).

Inductive SpinnerOp : Type :=
| Show (status : string)
| Hide.

(** A sequence of [show_spinner] and [hide_spinner] calls. *)
Fixpoint spin (ops : list SpinnerOp) (spinner : option string)
    : option string * list SpinnerCall :=
  match ops with
  | [] => (spinner, [])
  | op :: rest =>
      let '(spinner', calls) :=
        match op with
        | Show status => show_spinner status spinner
        | Hide => hide_spinner spinner
        end in
      let '(spinner'', calls') := spin rest spinner' in
      (spinner'', calls ++ calls')
  end.

(** How many spinners are running after [calls], [before] of them running
    before: the [start]s less the [stop]s. *)
Fixpoint running (before : Z) (calls : list SpinnerCall) : Z :=
  match calls with
  | [] => before
  | Start :: rest => running (before + 1) rest
  | Stop :: rest => running (before - 1) rest
  | MakeStatus _ :: rest => running before rest
  end.

(** The number of spinners the printer holds. *)
Definition active (spinner : option string) : Z :=
  match spinner with Some _ => 1 | None => 0 end.

Definition print_report_summary (summary : list string) : list ConsoleCall :=
  if (length summary =? 0)%nat then []
  else
    let text := "# " +:+ join_with (linesep +:+ "# ") summary in
    [Out text (Some {| color := Some "grey70"; bold := None |}) None].

(** The texts handed to the console. *)
Definition texts (calls : list ConsoleCall) : list string :=
  (fun c => match c with Out text _ _ => text end) <$> calls.

End RichPrinter.

(** ** The entry point

    vedro/__init__.py: the plugins [run] registers.  A plugin handed to
    [run] is [Custom]; [reporter] tells whether it is an instance of
    [Reporter]. *)
Module Run.

Inductive Plugin : Type :=
| RichReporter
| SilentReporter
| Director (reporters : list Plugin)
| Skipper
| Terminator
| Custom (name : string) (reporter : bool).

Definition is_reporter (plugin : Plugin) : bool :=
  match plugin with
  | RichReporter | SilentReporter => true
  | Custom _ reporter => reporter
  | Director _ | Skipper | Terminator => false
  end.

(** The loop over [plugins], from the lists [all_plugins] and
    [reporters]. *)
Definition sort_out (plugins : list Plugin) (all_plugins reporters : list Plugin)
    : list Plugin * list Plugin :=
  fold_left (fun '(all_plugins, reporters) plugin =>
               if is_reporter plugin
               then (all_plugins, reporters ++ [plugin])
               else (all_plugins ++ [plugin], reporters))
            plugins (all_plugins, reporters).

(** The list handed to [lifecycle.register_plugins]; [if plugins:] skips
    the loop for [None] and for the empty list. *)
Definition registered_plugins (plugins : option (list Plugin)) : list Plugin :=
  let all_plugins := [] in
  let reporters := [RichReporter; SilentReporter] in
  let '(all_plugins, reporters) :=
    match plugins with
    | Some (plugin :: rest) => sort_out (plugin :: rest) all_plugins reporters
    | Some [] | None => (all_plugins, reporters)
    end in
  all_plugins ++ [Director reporters; Skipper; Terminator].

End Run.

(** * Facts about the seeder *)

Module SeederFacts.
Import Seeder.

Section WithGenerator.
Context {G : RandomGenerator}.

Lemma generate_seed_in_range (g : StateType) :
  in_range (fst (_generate_seed g)).
Proof.
  unfold in_range, _generate_seed. apply random_int_range.
  unfold MIN_SEED, MAX_SEED. lia.
Qed.

Lemma advance_succ (n : nat) (g : StateType) :
  advance (S n) g = snd (_generate_seed (advance n g)).
Proof.
  revert g. induction n as [|n IH]; intros g; [reflexivity|].
  change (advance (S (S n)) g) with (advance (S n) (snd (_generate_seed g))).
  rewrite IH. reflexivity.
Qed.

Lemma draw_loop_succ (n : nat) (seed : Z) (g : StateType) :
  draw_loop (S n) seed g = (draw_at n g, advance (S n) g).
Proof.
  revert seed g. induction n as [|n IH]; intros seed g.
  - cbn. unfold draw_at. cbn. destruct (_generate_seed g); reflexivity.
  - change (draw_loop (S (S n)) seed g)
      with (let '(seed', g') := _generate_seed g in draw_loop (S n) seed' g').
    destruct (_generate_seed g) as [s' g'] eqn:E. rewrite IH.
    unfold draw_at. cbn [advance]. rewrite E. reflexivity.
Qed.

Lemma bump_history_same (u : string) (h : gmap string nat) :
  bump_history u h !! u = Some (S (default O (h !! u))).
Proof.
  unfold bump_history. destruct (h !! u) as [k|] eqn:E.
  - rewrite E. rewrite lookup_insert_eq. reflexivity.
  - rewrite lookup_insert_eq. rewrite lookup_insert_eq. reflexivity.
Qed.

Lemma bump_history_other (u v : string) (h : gmap string nat) :
  u ≠ v -> default O (bump_history u h !! v) = default O (h !! v).
Proof.
  intros Huv. unfold bump_history. destruct (h !! u) as [k|] eqn:E.
  - rewrite E. rewrite lookup_insert_ne by done. reflexivity.
  - rewrite lookup_insert_eq. rewrite !lookup_insert_ne by done. reflexivity.
Qed.

(** What one execution does, given what [base_seed_for] answered. *)
Lemma on_scenario_run_unfold (u : string) (p : SeederPlugin G) b m st :
  base_seed_for u p = Ok (b, m, st) ->
  exists p' eff,
    on_scenario_run u p = Ok (p', eff) /\
    _scenarios p' = m /\ _scheduled_state p' = st /\
    _history p' = bump_history u (_history p) /\
    _use_fixed_seed p' = _use_fixed_seed p /\
    _initial_seed p' = _initial_seed p /\
    _scheduled_seed p' = _scheduled_seed p /\
    _discovered_seed p' = _discovered_seed p /\
    eff = if _use_fixed_seed p then b
          else draw_at (default O (_history p !! u)) (set_seed (SeedInt b)).
Proof.
  intros Hb. unfold on_scenario_run. rewrite Hb.
  cbn [mbind result_bind]. rewrite bump_history_same. cbn [default].
  unfold id. rewrite draw_loop_succ.
  destruct (_use_fixed_seed p) eqn:Hf.
  - eexists _, _. split; [reflexivity|]. cbn. repeat split; reflexivity.
  - eexists _, _. split; [reflexivity|]. cbn. repeat split; reflexivity.
Qed.

(** [base_seed_for] answers as soon as the startup has taken the overflow
    snapshot; it keeps the entries of the mapping. *)
Lemma base_seed_for_started (u : string) (p : SeederPlugin G) :
  is_Some (_scheduled_state p) ->
  exists b m st,
    base_seed_for u p = Ok (b, m, Some st) /\
    m !! u = Some b /\ _scenarios p ⊆ m.
Proof.
  intros [st Hst]. unfold base_seed_for.
  destruct (_scenarios p !! u) as [b|] eqn:E.
  - exists b, (_scenarios p), st. rewrite Hst. done.
  - rewrite Hst. destruct (_generate_seed st) as [b g'] eqn:Eg.
    exists b, (<[u:=b]> (_scenarios p)), g'. split; [reflexivity|].
    split; [apply lookup_insert_eq | by apply insert_subseteq].
Qed.

Lemma times_run_cons (u v : string) (seen : list string) :
  times_run u (v :: seen) = ((if decide (v = u) then 1 else 0) + times_run u seen)%nat.
Proof.
  unfold times_run. rewrite filter_cons. destruct (decide (v = u)); reflexivity.
Qed.

Lemma run_scenarios_seeds (uids : list string) :
  forall (p : SeederPlugin G) (before : string -> nat),
  is_Some (_scheduled_state p) ->
  (forall u, default O (_history p !! u) = before u) ->
  exists p' seeds,
    run (ScenarioRunEvent <$> uids) p = Ok (p', seeds) /\
    _scenarios p ⊆ _scenarios p' /\
    _use_fixed_seed p' = _use_fixed_seed p /\
    length seeds = length uids /\
    forall i u, uids !! i = Some u ->
      exists b, _scenarios p' !! u = Some b /\
        seeds !! i = Some
          (if _use_fixed_seed p then b
           else draw_at (before u + times_run u (take i uids))
                        (set_seed (SeedInt b))).
Proof.
  induction uids as [|u0 rest IH]; intros p before Hst Hh.
  - exists p, []. cbn. repeat split; [done|]. intros i u Hi. discriminate.
  - destruct (base_seed_for_started u0 p Hst) as (b0 & m & st & Hb & Hm & Hsub).
    destruct (on_scenario_run_unfold u0 p _ _ _ Hb)
      as (p1 & eff & Hrun & Hsc & Hss & Hhist & Hfx & _ & _ & _ & Heff).
    destruct (IH p1 (fun u => ((if decide (u0 = u) then 1 else 0) + before u)%nat))
      as (p' & seeds & Hrest & Hsub' & Hfx' & Hlen & Hseeds).
    { rewrite Hss. eauto. }
    { intros u. rewrite Hhist. destruct (decide (u0 = u)) as [->|Hne].
      - rewrite bump_history_same. cbn. rewrite Hh. reflexivity.
      - rewrite bump_history_other by done. rewrite Hh. reflexivity. }
    exists p', (eff :: seeds). cbn [fmap list_fmap run fire].
    change (ScenarioRunEvent (G:=G) <$> rest) with (fmap (ScenarioRunEvent (G:=G)) rest) in Hrest.
    cbn. rewrite Hrun. cbn. rewrite Hrest. cbn.
    split; [reflexivity|]. split; [subst m; etrans; eauto|].
    split; [congruence|]. split; [cbn; congruence|].
    intros [|i] u Hi.
    + cbn in Hi. injection Hi as <-. exists b0. split.
      * eapply lookup_weaken; [|exact Hsub']. rewrite Hsc. exact Hm.
      * cbn. rewrite Heff, Hh. unfold times_run. cbn.
        rewrite Nat.add_0_r. reflexivity.
    + cbn in Hi. destruct (Hseeds i u Hi) as (b & Hlk & Hs).
      exists b. split; [exact Hlk|].
      change ((eff :: seeds) !! S i) with (seeds !! i).
      change (take (S i) (u0 :: rest)) with (u0 :: take i rest).
      rewrite Hs, Hfx. destruct (_use_fixed_seed p); [reflexivity|].
      rewrite times_run_cons. do 2 f_equal. destruct (decide (u0 = u)); lia.
Qed.

(** The startup, once the arguments have been parsed. *)
Lemma on_startup_started (discovered : list VirtualScenario)
    (p : SeederPlugin G) (initial : string) :
  _initial_seed p = Some initial ->
  let root := set_seed (SeedStr initial) in
  let overflow := set_seed (SeedInt (draw_at 0 root)) in
  let discovery := set_seed (SeedInt (draw_at 0 overflow)) in
  exists q,
    on_startup discovered p = Ok q /\
    _initial_seed q = Some initial /\
    _use_fixed_seed q = _use_fixed_seed p /\
    _history q = _history p /\
    _scheduled_seed q = Some (draw_at 0 root) /\
    _scheduled_state q = Some overflow /\
    _discovered_seed q = Some (draw_at 0 overflow) /\
    _scenarios q = fst (assign_discovered discovered (_scenarios p) discovery).
Proof.
  intros Hi root overflow discovery. unfold on_startup. rewrite Hi.
  subst root overflow discovery. unfold draw_at. cbn [advance].
  destruct (_generate_seed (set_seed (SeedStr initial))) as [s1 g1]. cbn [fst].
  destruct (_generate_seed (set_seed (SeedInt s1))) as [s2 g2]. cbn [fst].
  destruct (assign_discovered discovered (_scenarios p) (set_seed (SeedInt s2)))
    as [m g3].
  eexists. split; [reflexivity|]. cbn. repeat split; done.
Qed.

Lemma assign_discovered_other (discovered : list VirtualScenario) :
  forall m g u, u ∉ unique_id <$> discovered ->
    fst (assign_discovered discovered m g) !! u = m !! u.
Proof.
  induction discovered as [|scn rest IH]; intros m g u Hu; [reflexivity|].
  cbn [assign_discovered]. destruct (_generate_seed g) as [s g'].
  rewrite fmap_cons, not_elem_of_cons in Hu. destruct Hu as [Hne Hu].
  rewrite IH by exact Hu. rewrite lookup_insert_ne by done. reflexivity.
Qed.

(** With pairwise different unique ids, the scenario at position [i] of
    [discovered] gets the [(i+1)]-th draw of the walk's generator. *)
Lemma assign_discovered_lookup (discovered : list VirtualScenario) :
  forall m g i scn,
    NoDup (unique_id <$> discovered) ->
    discovered !! i = Some scn ->
    fst (assign_discovered discovered m g) !! unique_id scn = Some (draw_at i g).
Proof.
  induction discovered as [|scn0 rest IH]; intros m g i scn Hnd Hi; [discriminate|].
  rewrite fmap_cons in Hnd. apply NoDup_cons in Hnd as [Hfresh Hnd].
  cbn [assign_discovered]. destruct (_generate_seed g) as [s g'] eqn:Eg.
  destruct i as [|i]; cbn in Hi.
  - injection Hi as <-. rewrite assign_discovered_other by exact Hfresh.
    rewrite lookup_insert_eq. unfold draw_at. cbn [advance]. rewrite Eg. reflexivity.
  - rewrite (IH _ g' i scn Hnd Hi). unfold draw_at. cbn [advance]. rewrite Eg.
    reflexivity.
Qed.

Lemma assign_discovered_in_range (discovered : list VirtualScenario) :
  forall m g,
    (forall u s, m !! u = Some s -> in_range s) ->
    forall u s, fst (assign_discovered discovered m g) !! u = Some s -> in_range s.
Proof.
  induction discovered as [|scn rest IH]; intros m g Hm u s; [apply Hm|].
  cbn [assign_discovered]. destruct (_generate_seed g) as [s0 g'] eqn:Eg.
  apply IH. intros u' s'. rewrite lookup_insert.
  destruct (decide (unique_id scn = u')).
  - intros [= <-]. pose proof (generate_seed_in_range g) as H.
    rewrite Eg in H. exact H.
  - apply Hm.
Qed.

Lemma on_scenario_run_inv (u : string) (p p' : SeederPlugin G) (eff : Z) :
  on_scenario_run u p = Ok (p', eff) ->
  exists b m st,
    base_seed_for u p = Ok (b, m, st) /\
    _scenarios p' = m /\ _scheduled_state p' = st /\
    _initial_seed p' = _initial_seed p /\
    _scheduled_seed p' = _scheduled_seed p /\
    _discovered_seed p' = _discovered_seed p /\
    eff = if _use_fixed_seed p then b
          else draw_at (default O (_history p !! u)) (set_seed (SeedInt b)).
Proof.
  intros Hrun. destruct (base_seed_for u p) as [[[b m] st]|e] eqn:Hb.
  - destruct (on_scenario_run_unfold u p b m st Hb)
      as (p1 & eff1 & Hrun1 & Hm & Hst & _ & _ & Hi & Hs & Hd & Heff).
    rewrite Hrun1 in Hrun. injection Hrun as -> ->. exists b, m, st. done.
  - unfold on_scenario_run in Hrun. rewrite Hb in Hrun. discriminate.
Qed.

Lemma base_seed_for_in_range (u : string) (p : SeederPlugin G) b m st :
  seeds_in_range p -> base_seed_for u p = Ok (b, m, st) ->
  in_range b /\ forall v s, m !! v = Some s -> in_range s.
Proof.
  intros (_ & _ & Hm) Hb. unfold base_seed_for in Hb.
  destruct (_scenarios p !! u) as [b0|] eqn:E.
  - injection Hb as <- <- <-. split; [eapply Hm; exact E | exact Hm].
  - destruct (_scheduled_state p) as [g|]; [|discriminate].
    pose proof (generate_seed_in_range g) as Hg.
    destruct (_generate_seed g) as [s g']. injection Hb as <- <- <-.
    split; [exact Hg|]. intros v s'. rewrite lookup_insert.
    destruct (decide (u = v)); [intros [= <-]; exact Hg | apply Hm].
Qed.

Lemma fire_in_range (ev : Event G) (p p' : SeederPlugin G) (s : option Z) :
  seeds_in_range p -> fire ev p = Ok (p', s) ->
  seeds_in_range p' /\ forall x, s = Some x -> in_range x.
Proof.
  intros Hinv Hfire. destruct ev as [seed fixed uuid4|discovered|u|report|g];
    cbn [fire] in Hfire.
  - injection Hfire as <- <-. split; [exact Hinv | discriminate].
  - destruct (on_startup discovered p) as [q|e] eqn:Hq; [|discriminate].
    injection Hfire as <- <-. split; [|discriminate].
    destruct (_initial_seed p) as [initial|] eqn:Hi;
      [|unfold on_startup in Hq; rewrite Hi in Hq; discriminate].
    destruct (on_startup_started discovered p initial Hi)
      as (q' & Hq' & _ & _ & _ & Hs & _ & Hd & Hm).
    rewrite Hq in Hq'. injection Hq' as <-.
    destruct Hinv as (_ & _ & Hold). split; [|split].
    + intros x. rewrite Hs. intros [= <-]. apply generate_seed_in_range.
    + intros x. rewrite Hd. intros [= <-]. apply generate_seed_in_range.
    + rewrite Hm. apply assign_discovered_in_range. exact Hold.
  - destruct (on_scenario_run u p) as [[q eff]|e] eqn:Hq; [|discriminate].
    injection Hfire as <- <-.
    destruct (on_scenario_run_inv u p q eff Hq)
      as (b & m & st & Hb & Hm & _ & _ & Hs & Hd & Heff).
    destruct (base_seed_for_in_range u p b m st Hinv Hb) as [Hbr Hmr].
    destruct Hinv as (H1 & H2 & _). split.
    + split; [|split]; [rewrite Hs; exact H1 | rewrite Hd; exact H2 | rewrite Hm; exact Hmr].
    + intros x [= <-]. rewrite Heff.
      destruct (_use_fixed_seed p); [exact Hbr | apply generate_seed_in_range].
  - injection Hfire as <- <-. split; [exact Hinv | discriminate].
  - injection Hfire as <- <-. split; [exact Hinv | discriminate].
Qed.

Lemma run_in_range (evs : list (Event G)) :
  forall (p p' : SeederPlugin G) (seeds : list Z),
    seeds_in_range p -> run evs p = Ok (p', seeds) ->
    seeds_in_range p' /\ Forall in_range seeds.
Proof.
  induction evs as [|ev rest IH]; intros p p' seeds Hinv Hrun; cbn [run] in Hrun.
  - injection Hrun as <- <-. split; [exact Hinv | constructor].
  - destruct (fire ev p) as [[p1 s]|e] eqn:Hf; [|discriminate].
    cbn [mbind result_bind] in Hrun.
    destruct (run rest p1) as [[p2 l]|e] eqn:Hr; [|discriminate].
    cbn [mbind result_bind] in Hrun. injection Hrun as <- <-.
    destruct (fire_in_range ev p p1 s Hinv Hf) as [Hinv1 Hs].
    destruct (IH p1 p2 l Hinv1 Hr) as [Hinv2 Hl].
    split; [exact Hinv2|]. destruct s as [x|]; [|exact Hl].
    constructor; [apply Hs; reflexivity | exact Hl].
Qed.

Lemma fire_keeps_initial_seed (ev : Event G) (p p' : SeederPlugin G) s :
  is_arg_parsed ev = false -> fire ev p = Ok (p', s) ->
  _initial_seed p' = _initial_seed p.
Proof.
  intros Hev Hfire. destruct ev as [seed fixed uuid4|discovered|u|report|g];
    cbn [fire] in Hfire; try discriminate.
  - destruct (on_startup discovered p) as [q|e] eqn:Hq; [|discriminate].
    injection Hfire as <- <-.
    destruct (_initial_seed p) as [initial|] eqn:Hi;
      [|unfold on_startup in Hq; rewrite Hi in Hq; discriminate].
    destruct (on_startup_started discovered p initial Hi) as (q' & Hq' & Hi' & _).
    congruence.
  - destruct (on_scenario_run u p) as [[q eff]|e] eqn:Hq; [|discriminate].
    injection Hfire as <- <-.
    destruct (on_scenario_run_inv u p q eff Hq) as (b & m & st & _ & _ & _ & Hi & _).
    exact Hi.
  - injection Hfire as <- <-. reflexivity.
  - injection Hfire as <- <-. reflexivity.
Qed.

Lemma run_keeps_initial_seed (evs : list (Event G)) :
  forall (p p' : SeederPlugin G) seeds,
    Forall (fun ev => is_arg_parsed ev = false) evs ->
    run evs p = Ok (p', seeds) -> _initial_seed p' = _initial_seed p.
Proof.
  induction evs as [|ev rest IH]; intros p p' seeds Hall Hrun; cbn [run] in Hrun.
  - injection Hrun as <- <-. reflexivity.
  - apply Forall_cons in Hall as [Hev Hall].
    destruct (fire ev p) as [[p1 s]|e] eqn:Hf; [|discriminate].
    cbn [mbind result_bind] in Hrun.
    destruct (run rest p1) as [[p2 l]|e] eqn:Hr; [|discriminate].
    cbn [mbind result_bind] in Hrun. injection Hrun as <- <-.
    rewrite (IH p1 p2 l Hall Hr). eapply fire_keeps_initial_seed; eauto.
Qed.

(** The overflow stream across a run: its snapshot being the generator
    [g0] after [n] draws, the [j]-th unique id it serves gets draw number
    [n + j + 1] of [g0], whatever happens to the shared generator. *)
Lemma run_minted (evs : list (Event G)) :
  forall (p : SeederPlugin G) (n : nat) (g0 : StateType),
    _scheduled_state p = Some (advance n g0) ->
    Forall (fun ev => is_startup ev = false) evs ->
    exists p' seeds,
      run evs p = Ok (p', seeds) /\
      _scenarios p ⊆ _scenarios p' /\
      _scheduled_seed p' = _scheduled_seed p /\
      _discovered_seed p' = _discovered_seed p /\
      forall j u, minted evs (dom (_scenarios p)) !! j = Some u ->
        _scenarios p' !! u = Some (draw_at (n + j) g0).
Proof.
  induction evs as [|ev rest IH]; intros p n g0 Hst Hall.
  - exists p, []. repeat split; [done|]. intros j u Hj. discriminate.
  - apply Forall_cons in Hall as [Hev Hall].
    destruct ev as [seed fixed uuid4|discovered|u|report|g]; try discriminate.
    + destruct (IH (on_arg_parsed seed fixed uuid4 p) n g0 Hst Hall)
        as (p' & seeds & Hr & Hsub & Hs & Hd & Hm).
      exists p', seeds. cbn [run fire mbind result_bind]. rewrite Hr.
      repeat split; assumption.
    + cbn [minted].
      destruct (decide (u ∈ dom (_scenarios p))) as [Hin|Hnin].
      * apply elem_of_dom in Hin as [b Hb].
        assert (Hbase : base_seed_for u p = Ok (b, _scenarios p, _scheduled_state p))
          by (unfold base_seed_for; rewrite Hb; reflexivity).
        destruct (on_scenario_run_unfold u p _ _ _ Hbase)
          as (p1 & eff & Hrun & Hsc & Hss & _ & _ & _ & Hs1 & Hd1 & _).
        destruct (IH p1 n g0) as (p' & seeds & Hr & Hsub & Hs & Hd & Hm);
          [congruence | exact Hall |].
        exists p', (eff :: seeds). cbn [run fire mbind result_bind].
        rewrite Hrun. cbn [mbind result_bind]. rewrite Hr.
        rewrite Hsc in Hsub, Hm.
        repeat split; [assumption | congruence | congruence | assumption].
      * apply not_elem_of_dom in Hnin.
        destruct (_generate_seed (advance n g0)) as [b g'] eqn:Eg.
        assert (Hbase : base_seed_for u p
                        = Ok (b, <[u:=b]> (_scenarios p), Some g'))
          by (unfold base_seed_for; rewrite Hnin, Hst, Eg; reflexivity).
        destruct (on_scenario_run_unfold u p _ _ _ Hbase)
          as (p1 & eff & Hrun & Hsc & Hss & _ & _ & _ & Hs1 & Hd1 & _).
        destruct (IH p1 (S n) g0) as (p' & seeds & Hr & Hsub & Hs & Hd & Hm);
          [rewrite Hss, advance_succ, Eg; reflexivity | exact Hall |].
        exists p', (eff :: seeds). cbn [run fire mbind result_bind].
        rewrite Hrun. cbn [mbind result_bind]. rewrite Hr.
        rewrite Hsc in Hsub, Hm. rewrite dom_insert_L in Hm.
        split; [reflexivity|]. split.
        { etrans; [|exact Hsub]. by apply insert_subseteq. }
        split; [congruence|]. split; [congruence|].
        intros [|j] v Hj; cbn in Hj.
        -- injection Hj as <-. eapply lookup_weaken; [|exact Hsub].
           rewrite lookup_insert_eq, Nat.add_0_r. unfold draw_at.
           rewrite Eg. reflexivity.
        -- rewrite Nat.add_succ_r. apply (Hm j v Hj).
    + destruct (IH p n g0 Hst Hall) as (p' & seeds & Hr & Hsub & Hs & Hd & Hm).
      exists p', seeds. cbn [run fire mbind result_bind]. rewrite Hr.
      repeat split; assumption.
    + destruct (IH (disturb g p) n g0 Hst Hall)
        as (p' & seeds & Hr & Hsub & Hs & Hd & Hm).
      exists p', seeds. cbn [run fire mbind result_bind]. rewrite Hr.
      repeat split; assumption.
Qed.

Lemma assign_discovered_dom (discovered : list VirtualScenario) :
  forall m g,
    dom (fst (assign_discovered discovered m g))
    = list_to_set (unique_id <$> discovered) ∪ dom m.
Proof.
  induction discovered as [|scn rest IH]; intros m g.
  - cbn. set_solver.
  - cbn [assign_discovered]. destruct (_generate_seed g) as [s g'].
    rewrite IH, dom_insert_L. cbn. set_solver.
Qed.


(** C1 (amended). In a run (arguments parsed, startup, then the executions
    [uids] in order) every execution gets an effective seed: for the
    execution at position [i], of a scenario [u] run [k] times before
    ([k] counts [u] among the earlier executions), it is the [(k+1)]-th
    draw of a generator seeded with the base seed recorded for [u] when
    fixed-seed mode is off, and that base seed itself when it is on.  So
    the three effective seeds of a scenario run three times are the first,
    second and third draw of that generator (fixed-seed off), and three
    times the base seed (fixed-seed on). *)
Theorem effective_seed_of_each_execution
    (g : StateType) (conf : bool) (seed : option string) (fixed : bool)
    (uuid4 : string) (discovered : list VirtualScenario) (uids : list string) :
  exists p' seeds,
    run (ArgParsedEvent seed fixed uuid4 :: StartupEvent discovered
           :: (ScenarioRunEvent <$> uids)) (init conf g) = Ok (p', seeds) /\
    length seeds = length uids /\
    (forall i u, uids !! i = Some u ->
       exists b, _scenarios p' !! u = Some b /\
         seeds !! i = Some
           (if fixed then b
            else draw_at (times_run u (take i uids)) (set_seed (SeedInt b)))) /\
    (forall u, uids = [u; u; u] ->
       exists b, _scenarios p' !! u = Some b /\
         seeds = if fixed then [b; b; b]
                 else [draw_at 0 (set_seed (SeedInt b));
                       draw_at 1 (set_seed (SeedInt b));
                       draw_at 2 (set_seed (SeedInt b))]).
Proof.
  set (p0 := on_arg_parsed seed fixed uuid4 (init conf g)).
  destruct (on_startup_started discovered p0 _ eq_refl)
    as (q & Hq & _ & Hfx & Hh & _ & Hst & _ & _).
  destruct (run_scenarios_seeds uids q (fun _ => O))
    as (p' & seeds & Hrun & _ & _ & Hlen & Hseeds).
  { rewrite Hst. eauto. }
  { intros u. rewrite Hh. cbn. rewrite lookup_empty. reflexivity. }
  assert (Hfixed : _use_fixed_seed q = fixed) by (rewrite Hfx; reflexivity).
  rewrite Hfixed in Hseeds.
  exists p', seeds. split.
  { cbn [run fire]. cbn [mbind result_bind]. fold p0. rewrite Hq.
    cbn [mbind result_bind]. rewrite Hrun. reflexivity. }
  split; [exact Hlen|]. split; [exact Hseeds|].
  intros u ->. cbn in Hlen.
  destruct (Hseeds 0%nat u eq_refl) as (b & Hb & H0).
  destruct (Hseeds 1%nat u eq_refl) as (b1 & Hb1 & H1).
  destruct (Hseeds 2%nat u eq_refl) as (b2 & Hb2 & H2).
  assert (b1 = b) by congruence. assert (b2 = b) by congruence. subst b1 b2.
  exists b. split; [exact Hb|].
  destruct seeds as [|s0 [|s1 [|s2 [|]]]]; try discriminate.
  change (take 0 [u; u; u]) with (@nil string) in H0.
  change (take 1 [u; u; u]) with [u] in H1.
  change (take 2 [u; u; u]) with [u; u] in H2.
  rewrite !times_run_cons in H1, H2.
  rewrite !decide_True in H1, H2 by reflexivity.
  unfold times_run in H0, H1, H2. cbn in H0, H1, H2.
  rewrite decide_True in H2 by reflexivity. cbn in H2.
  destruct fixed; congruence.
Qed.

(** C3 (amended). The generator seeded with the run-level seed is drawn
    from once, and that draw seeds the overflow stream; the overflow
    snapshot is taken right there, and one draw off the freshly seeded
    overflow generator seeds the discovery stream, which then walks
    [discovered] in order: with pairwise different unique ids, the
    scenario at position [i] gets draw [i+1] of the discovery generator.
    After the startup (and as long as there is no second one) the overflow
    stream serves the unique ids absent from [discovered], in the order
    they are met: the [j]-th of them gets draw [j+1] of the overflow
    generator, whatever the other consumers of the shared generator did
    to it in between. *)
Theorem overflow_and_discovery_streams
    (g : StateType) (conf : bool) (seed : option string) (fixed : bool)
    (uuid4 : string) (discovered : list VirtualScenario) (evs : list (Event G)) :
  NoDup (unique_id <$> discovered) ->
  Forall (fun ev => is_startup ev = false) evs ->
  let root := set_seed (SeedStr (default uuid4 seed)) in
  let overflow := set_seed (SeedInt (draw_at 0 root)) in
  let discovery := set_seed (SeedInt (draw_at 0 overflow)) in
  exists p' seeds,
    run (ArgParsedEvent seed fixed uuid4 :: StartupEvent discovered :: evs)
        (init conf g) = Ok (p', seeds) /\
    _scheduled_seed p' = Some (draw_at 0 root) /\
    _discovered_seed p' = Some (draw_at 0 overflow) /\
    (forall i scn, discovered !! i = Some scn ->
       _scenarios p' !! unique_id scn = Some (draw_at i discovery)) /\
    (forall j u,
       minted evs (list_to_set (unique_id <$> discovered)) !! j = Some u ->
       _scenarios p' !! u = Some (draw_at j overflow)).
Proof.
  intros Hnd Hall root overflow discovery.
  set (p0 := on_arg_parsed seed fixed uuid4 (init conf g)).
  assert (Hi : _initial_seed p0 = Some (default uuid4 seed))
    by (destruct seed; reflexivity).
  destruct (on_startup_started discovered p0 _ Hi)
    as (q & Hq & _ & _ & _ & Hs & Hst & Hd & Hm).
  fold root overflow discovery in Hs, Hst, Hd, Hm.
  destruct (run_minted evs q 0 overflow Hst Hall)
    as (p' & seeds & Hrun & Hsub & Hs' & Hd' & Hmint).
  exists p', seeds. split.
  { cbn [run fire mbind result_bind]. fold p0. rewrite Hq.
    cbn [mbind result_bind]. rewrite Hrun. reflexivity. }
  split; [congruence|]. split; [congruence|]. split.
  - intros i scn Hlk. eapply lookup_weaken; [|exact Hsub].
    rewrite Hm. by apply assign_discovered_lookup.
  - intros j u Hj. apply Hmint. rewrite Hm, assign_discovered_dom.
    cbn. rewrite dom_empty_L, (right_id_L ∅ (∪)). exact Hj.
Qed.

(** C9 (amended). The run-level seed is the supplied value when there is
    one and the synthesized uuid otherwise; it stays the same for the rest
    of the run (the arguments are parsed once).  At cleanup it is reported
    as the summary line [--seed <value>], after the lines already there,
    when at least one scenario passed or failed; when none did, the report
    is left as it is. *)
Theorem seed_reported_at_cleanup
    (p0 p' : SeederPlugin G) (seed : option string) (fixed : bool)
    (uuid4 : string) (evs : list (Event G)) (seeds : list Z) (report : Report) :
  Forall (fun ev => is_arg_parsed ev = false) evs ->
  run (ArgParsedEvent seed fixed uuid4 :: evs) p0 = Ok (p', seeds) ->
  _initial_seed p' = Some (default uuid4 seed) /\
  (0 < passed report + failed report ->
   on_cleanup report p'
   = add_summary ("--seed " +:+ default uuid4 seed) report) /\
  (passed report + failed report <= 0 -> on_cleanup report p' = report).
Proof.
  intros Hall Hrun. cbn [run fire mbind result_bind] in Hrun.
  destruct (run evs (on_arg_parsed seed fixed uuid4 p0)) as [[p2 l]|e] eqn:Hr;
    [|discriminate].
  cbn [mbind result_bind] in Hrun. injection Hrun as <- <-.
  assert (Hi : _initial_seed p2 = Some (default uuid4 seed)).
  { rewrite (run_keeps_initial_seed evs _ p2 l Hall Hr). destruct seed; reflexivity. }
  split; [exact Hi|]. unfold on_cleanup, seed_line. rewrite Hi.
  destruct (Z.ltb_spec 0 (passed report + failed report)); split;
    intros; (reflexivity || lia).
Qed.

(** C10. Whatever events the plugin has handled since it was created, the
    overflow-stream seed, the discovery-stream seed and every recorded
    base seed lie between [MIN_SEED = 1] and [MAX_SEED = 2^63 - 1], and
    so does every effective seed it has set. *)
Theorem generated_seeds_in_range
    (g : StateType) (conf : bool) (evs : list (Event G))
    (p : SeederPlugin G) (seeds : list Z) :
  run evs (init conf g) = Ok (p, seeds) ->
  seeds_in_range p /\ Forall in_range seeds /\
  MIN_SEED = 1 /\ MAX_SEED = 9223372036854775807.
Proof.
  intros Hrun.
  assert (Hinit : seeds_in_range (init conf g)).
  { split; [|split]; cbn; try discriminate;
      intros u s'; rewrite lookup_empty; discriminate. }
  destruct (run_in_range evs _ _ _ Hinit Hrun) as [Hp Hs].
  split; [exact Hp|]. split; [exact Hs|]. split; reflexivity.
Qed.

End WithGenerator.

(** *** The statements above at concrete runs *)

Lemma effective_seed_of_each_execution_witness :
  exists p' seeds b,
    run (G:=Lcg)
        (ArgParsedEvent (Some "42") false "" :: StartupEvent [scenario_a]
           :: (ScenarioRunEvent <$> ["a"; "a"; "a"]))
        (init (G:=Lcg) false (0 : Z)) = Ok (p', seeds) /\
    _scenarios p' !! "a" = Some b /\
    seeds = [draw_at (G:=Lcg) 0 (set_seed (SeedInt b));
             draw_at (G:=Lcg) 1 (set_seed (SeedInt b));
             draw_at (G:=Lcg) 2 (set_seed (SeedInt b))].
Proof.
  destruct (effective_seed_of_each_execution (G:=Lcg) (0 : Z) false (Some "42")
              false "" [scenario_a] ["a"; "a"; "a"])
    as (p' & seeds & Hrun & _ & _ & H3).
  destruct (H3 "a" eq_refl) as (b & Hb & Hs).
  exists p', seeds, b. split; [exact Hrun|]. split; [exact Hb | exact Hs].
Defined.

(** C1, as stated, fails: with a generator whose draws repeat, the three
    effective seeds of a scenario run three times with fixed-seed off are
    not pairwise distinct. *)
Lemma three_runs_need_not_differ :
  exists a b c,
    effective_seeds
      (run (G:=Constant)
           [ArgParsedEvent (Some "42") false ""; StartupEvent [scenario_a];
            ScenarioRunEvent "a"; ScenarioRunEvent "a"; ScenarioRunEvent "a"]
           (init (G:=Constant) false tt)) = Some [a; b; c] /\
    ~ (a <> b /\ b <> c /\ a <> c).
Proof.
  exists 1, 1, 1. split; [vm_compute; reflexivity|].
  intros (H & _). apply H. reflexivity.
Qed.

Lemma overflow_and_discovery_streams_witness :
  exists p' seeds,
    run (G:=Lcg)
        [ArgParsedEvent (Some "42") false ""; StartupEvent [scenario_a];
         ScenarioRunEvent "b"; OtherConsumer (G:=Lcg) (5 : Z);
         ScenarioRunEvent "a"; ScenarioRunEvent "c"]
        (init (G:=Lcg) false (0 : Z)) = Ok (p', seeds) /\
    _scenarios p' !! "c"
    = Some (draw_at (G:=Lcg) 1
              (set_seed (SeedInt (draw_at (G:=Lcg) 0 (set_seed (SeedStr "42")))))).
Proof.
  assert (Hnd : NoDup (unique_id <$> [scenario_a])).
  { cbn. apply NoDup_singleton. }
  assert (Hall : Forall (fun ev : Event Lcg => is_startup ev = false)
                   [ScenarioRunEvent "b"; OtherConsumer (G:=Lcg) (5 : Z);
                    ScenarioRunEvent "a"; ScenarioRunEvent "c"]).
  { repeat constructor. }
  destruct (overflow_and_discovery_streams (G:=Lcg) (0 : Z) false (Some "42")
              false "" [scenario_a] _ Hnd Hall)
    as (p' & seeds & Hrun & _ & _ & _ & Hmint).
  exists p', seeds. split; [exact Hrun|].
  apply (Hmint 1%nat "c"). vm_compute. reflexivity.
Defined.

(** C3, as stated, fails: were the discovery stream seeded with the
    run-level seed and the overflow seed drawn off it (before or after the
    walk), the scenario ["a"] would get another base seed than the one the
    startup records. *)
Lemma discovery_stream_is_not_seeded_with_run_seed :
  let started :=
    on_startup (G:=Lcg) [scenario_a]
      (on_arg_parsed (Some "42") false "" (init (G:=Lcg) false (0 : Z))) in
  recorded_base_seed started "a" = Some 2509820828596899264 /\
  recorded_base_seed started "a"
    <> snd (spec_startup_allocation (G:=Lcg) true "42" [scenario_a]) !! "a" /\
  recorded_base_seed started "a"
    <> snd (spec_startup_allocation (G:=Lcg) false "42" [scenario_a]) !! "a".
Proof.
  split; [vm_compute; reflexivity|].
  split; vm_compute; intros H; discriminate H.
Qed.

Lemma seed_reported_at_cleanup_witness :
  on_cleanup (G:=Lcg)
    {| passed := 1; failed := 0; skipped := 0; summary := [] |}
    (on_arg_parsed (Some "42") false "" (init (G:=Lcg) false (0 : Z)))
  = {| passed := 1; failed := 0; skipped := 0; summary := ["--seed 42"] |} /\
  on_cleanup (G:=Lcg)
    {| passed := 0; failed := 0; skipped := 3; summary := ["repeated x2"] |}
    (on_arg_parsed None false "0b8a" (init (G:=Lcg) false (0 : Z)))
  = {| passed := 0; failed := 0; skipped := 3; summary := ["repeated x2"] |}.
Proof.
  split.
  - refine (proj1 (proj2 (seed_reported_at_cleanup (G:=Lcg)
                            (init (G:=Lcg) false (0 : Z)) _ (Some "42") false ""
                            [] []
                            {| passed := 1; failed := 0; skipped := 0;
                               summary := [] |} _ _)) _).
    + constructor.
    + reflexivity.
    + cbn. lia.
  - refine (proj2 (proj2 (seed_reported_at_cleanup (G:=Lcg)
                            (init (G:=Lcg) false (0 : Z)) _ None false "0b8a"
                            [] []
                            {| passed := 0; failed := 0; skipped := 3;
                               summary := ["repeated x2"] |} _ _)) _).
    + constructor.
    + reflexivity.
    + cbn. lia.
Defined.

(** C9, as stated, fails: in a run where no scenario passed or failed (here
    both scenarios were skipped) the cleanup adds no [--seed] line. *)
Lemma seed_not_reported_when_nothing_ran :
  summary
    (on_cleanup (G:=Lcg)
       {| passed := 0; failed := 0; skipped := 2; summary := [] |}
       (on_arg_parsed (Some "42") false "" (init (G:=Lcg) false (0 : Z))))
  = [].
Proof. reflexivity. Qed.

Lemma generated_seeds_in_range_witness :
  exists p seeds,
    run (G:=Lcg)
        [ArgParsedEvent None true "0b8a"; StartupEvent [scenario_a];
         ScenarioRunEvent "a"; ScenarioRunEvent "b"; ScenarioRunEvent "a"]
        (init (G:=Lcg) false (0 : Z)) = Ok (p, seeds) /\
    seeds_in_range p /\ Forall in_range seeds.
Proof.
  destruct (run (G:=Lcg)
              [ArgParsedEvent None true "0b8a"; StartupEvent [scenario_a];
               ScenarioRunEvent "a"; ScenarioRunEvent "b"; ScenarioRunEvent "a"]
              (init (G:=Lcg) false (0 : Z))) as [[p seeds]|e] eqn:E.
  - exists p, seeds. split; [reflexivity|].
    destruct (generated_seeds_in_range (G:=Lcg) _ _ _ _ _ E) as (Hp & Hs & _).
    split; [exact Hp | exact Hs].
  - exfalso.
    assert (H : effective_seeds
                  (run (G:=Lcg)
                     [ArgParsedEvent None true "0b8a"; StartupEvent [scenario_a];
                      ScenarioRunEvent "a"; ScenarioRunEvent "b";
                      ScenarioRunEvent "a"]
                     (init (G:=Lcg) false (0 : Z))) <> None)
      by (vm_compute; discriminate).
    apply H. rewrite E. reflexivity.
Defined.

End SeederFacts.

(** * Facts about the repeater *)

Module RepeaterFacts.
Import Repeater.

Lemma positive_is_not_negative (d : float) :
  SFltb zero d = true -> SFltb d zero = false.
Proof. destruct d as [[]|[]| |[] m e]; cbn; congruence. Qed.

Lemma non_negative_is_not_negative (d : float) :
  SFleb zero d = true -> SFltb d zero = false.
Proof. destruct d as [[]|[]| |[] m e]; cbn; congruence. Qed.

Lemma repeat_loop_without_delay (n : nat) (d : float) (scn : VirtualScenario) :
  SFltb zero d = false -> repeat_loop n d scn = replicate n (Schedule scn).
Proof.
  intros Hd. induction n as [|n IH]; [reflexivity|].
  cbn [repeat_loop replicate]. rewrite Hd, IH. reflexivity.
Qed.

Lemma repeat_loop_with_delay (n : nat) (d : float) (scn : VirtualScenario) :
  SFltb zero d = true ->
  repeat_loop n d scn = concat (replicate n [Sleep d; Schedule scn]).
Proof.
  intros Hd. induction n as [|n IH]; [reflexivity|].
  cbn [repeat_loop replicate concat]. rewrite Hd, IH. reflexivity.
Qed.

Lemma repeat_loop_schedules (n : nat) (d : float) (scn : VirtualScenario) :
  List.filter is_schedule (repeat_loop n d scn) = replicate n (Schedule scn).
Proof.
  induction n as [|n IH]; [reflexivity|]. cbn [repeat_loop replicate].
  destruct (SFltb zero d); cbn; rewrite IH; reflexivity.
Qed.

Lemma repeat_loop_sleeps (n : nat) (d : float) (scn : VirtualScenario) :
  List.filter is_sleep (repeat_loop n d scn)
  = if SFltb zero d then replicate n (Sleep d) else [].
Proof.
  induction n as [|n IH]; [destruct (SFltb zero d); reflexivity|].
  cbn [repeat_loop replicate].
  destruct (SFltb zero d); cbn; rewrite IH; reflexivity.
Qed.

Lemma repeat_loop_has_schedule (n : nat) (d : float) (scn : VirtualScenario) :
  existsb is_schedule (repeat_loop (S n) d scn) = true.
Proof. cbn [repeat_loop]. destruct (SFltb zero d); reflexivity. Qed.

(** What a completion event does: either nothing at all, or it schedules
    and remembers the unique id. *)
Lemma fire_completion (ev : Event) (r : ScenarioResult)
    (p p' : RepeaterPlugin) (calls : list Call) :
  completed ev = Some r -> fire ev p = Ok (p', calls) ->
  (p' = p /\ calls = []) \/
  (is_skipped ev = false /\ 1 < _repeats p /\
   _repeat_scenario_id p <> Some (unique_id (scenario r)) /\
   _repeats p' = _repeats p /\
   _repeat_scenario_id p' = Some (unique_id (scenario r)) /\
   existsb is_schedule calls = true).
Proof.
  intros Hev Hfire.
  assert (Hend : is_skipped ev = true \/
                 (is_skipped ev = false /\ on_scenario_end r p = Ok (p', calls))).
  { destruct ev; cbn in Hev; try discriminate; injection Hev as ->;
      cbn in Hfire |- *; auto. }
  destruct Hend as [Hsk | [Hsk Hend]].
  { destruct ev; try discriminate. cbn in Hfire. injection Hfire as <- <-. auto. }
  unfold on_scenario_end in Hend.
  destruct (Z.leb_spec (_repeats p) 1) as [Hle|Hgt].
  { injection Hend as <- <-. auto. }
  destruct (_scheduler p) as [sch|]; [|discriminate].
  destruct (is_repeater_scheduler sch); [|discriminate].
  destruct (decide (_repeat_scenario_id p = Some (unique_id (scenario r))))
    as [Heq|Hne].
  { injection Hend as <- <-. auto. }
  injection Hend as <- <-. right. cbn.
  repeat split; try assumption.
  destruct (Z.to_nat (_repeats p - 1)) as [|n] eqn:En; [lia|].
  apply repeat_loop_has_schedule.
Qed.

Lemma run_guard (evs : list Event) :
  forall (p p' : RepeaterPlugin) (before : option string)
         (traces : list (list Call)),
    (1 < _repeats p -> _repeat_scenario_id p = before) ->
    Forall (fun ev => is_Some (completed ev)) evs ->
    run evs p = Ok (p', traces) ->
    forall i ev calls,
      evs !! i = Some ev -> traces !! i = Some calls ->
      (is_skipped ev = true -> calls = []) /\
      (last_trigger before (take i evs) (take i traces) = event_uid ev ->
       calls = []).
Proof.
  induction evs as [|ev0 rest IH]; intros p p' before traces Hinv Hall Hrun;
    [intros i ev calls Hi; discriminate|].
  apply Forall_cons in Hall as [[r Hr] Hall]. cbn [run] in Hrun.
  destruct (fire ev0 p) as [[p1 calls0]|e] eqn:Hf; [|discriminate].
  cbn [mbind result_bind] in Hrun.
  destruct (run rest p1) as [[p2 traces']|e] eqn:Hrest; [|discriminate].
  cbn [mbind result_bind] in Hrun. injection Hrun as <- <-.
  pose proof (fire_completion ev0 r p p1 calls0 Hr Hf) as Hcases.
  intros [|i] ev calls Hi Hc.
  - cbn in Hi, Hc. injection Hi as <-. injection Hc as <-.
    destruct Hcases as [[_ ->]|(Hsk & Hgt & Hne & _)]; [auto|].
    split; [congruence|]. cbn. unfold event_uid. rewrite Hr. cbn.
    intros Hb. exfalso. apply Hne. rewrite (Hinv Hgt). exact Hb.
  - cbn in Hi, Hc.
    change (take (S i) (ev0 :: rest)) with (ev0 :: take i rest).
    change (take (S i) (calls0 :: traces')) with (calls0 :: take i traces').
    cbn [last_trigger].
    eapply (IH p1 p2 _ traces'); [|exact Hall|exact Hrest|exact Hi|exact Hc].
    destruct Hcases as [[-> ->]|(_ & _ & _ & _ & Hid & Hex)].
    + cbn. exact Hinv.
    + rewrite Hex. intros _. rewrite Hid. unfold event_uid. rewrite Hr.
      reflexivity.
Qed.

(** C2. A passed or failed completion under [repeats = N]: with [N >= 2],
    a repeater scheduler in place and the same-id guard letting it
    through, it makes exactly [N - 1] schedule calls, each for the
    completed scenario; it makes no sleep call unless the delay is greater
    than zero, and then [N - 1] of them, each of the delay and each right
    before a schedule call.  With [N = 1] (or less) it makes no call at
    all, whatever the scheduler and the remembered unique id. *)
Theorem repeat_scheduling
    (p : RepeaterPlugin) (r : ScenarioResult) (ev : Event) :
  ev = ScenarioPassedEvent r \/ ev = ScenarioFailedEvent r ->
  (2 <= _repeats p ->
   (exists scheduler,
      _scheduler p = Some scheduler /\ is_repeater_scheduler scheduler = true) /\
   _repeat_scenario_id p <> Some (unique_id (scenario r))) ->
  let n := Z.to_nat (_repeats p - 1) in
  let d := _repeats_delay p in
  exists p' calls,
    fire ev p = Ok (p', calls) /\
    List.filter is_schedule calls = replicate n (Schedule (scenario r)) /\
    List.filter is_sleep calls
    = (if SFltb zero d then replicate n (Sleep d) else []) /\
    calls = (if SFltb zero d
             then concat (replicate n [Sleep d; Schedule (scenario r)])
             else replicate n (Schedule (scenario r))) /\
    (_repeats p <= 1 -> calls = [] /\ p' = p) /\
    (d = zero -> List.filter is_sleep calls = []).
Proof.
  intros Hev Hready n d.
  assert (Hfire : fire ev p = on_scenario_end r p)
    by (destruct Hev as [-> | ->]; reflexivity).
  rewrite Hfire. unfold on_scenario_end.
  destruct (Z.leb_spec (_repeats p) 1) as [Hle|Hgt].
  - assert (Hn0 : n = O) by (subst n; lia). rewrite Hn0.
    exists p, []. cbn. destruct (SFltb zero d); repeat split; reflexivity.
  - destruct Hready as [(scheduler & Hsch & Hrep) Hguard]; [lia|].
    rewrite Hsch, Hrep. rewrite decide_False by exact Hguard.
    fold n d. eexists _, _. split; [reflexivity|].
    split; [apply repeat_loop_schedules|].
    split; [apply repeat_loop_sleeps|]. split.
    + destruct (SFltb zero d) eqn:Hd;
        [by apply repeat_loop_with_delay | by apply repeat_loop_without_delay].
    + split; [lia|]. intros Hz. rewrite repeat_loop_sleeps, Hz. reflexivity.
Qed.

(** C5. In a run of completion events, starting with no remembered unique
    id, a skipped completion causes no call, and neither does a completion
    of the scenario whose unique id is that of the most recent completion
    that caused a schedule call. *)
Theorem no_schedule_for_skipped_or_repeating
    (p0 p : RepeaterPlugin) (evs : list Event) (traces : list (list Call)) :
  _repeat_scenario_id p0 = None ->
  Forall (fun ev => is_Some (completed ev)) evs ->
  run evs p0 = Ok (p, traces) ->
  forall i ev calls,
    evs !! i = Some ev -> traces !! i = Some calls ->
    (is_skipped ev = true -> calls = []) /\
    (last_trigger None (take i evs) (take i traces) = event_uid ev ->
     calls = []).
Proof.
  intros Hnone Hall Hrun. eapply run_guard; eauto.
Qed.

(** C6. The checks are made in the order listed: [repeats < 1] raises the
    first message; otherwise a negative delay raises the second; otherwise
    a positive delay with [repeats <= 1], which is [repeats = 1] by then,
    raises the third; and every valid combination, once the configuration
    has been loaded, is accepted and stored. *)
Theorem arg_validation
    (repeats : Z) (delay : float) (p : RepeaterPlugin) (config : ConfigType) :
  (repeats < 1 ->
   on_arg_parsed repeats delay p = Raise (ValueError "--repeats must be >= 1")) /\
  (1 <= repeats -> SFltb delay zero = true ->
   on_arg_parsed repeats delay p
   = Raise (ValueError "--repeats-delay must be >= 0.0")) /\
  (repeats = 1 -> SFltb zero delay = true ->
   on_arg_parsed repeats delay p
   = Raise (ValueError "--repeats-delay must be used with --repeats > 1")) /\
  (1 <= repeats -> SFleb zero delay = true ->
   ~ (SFltb zero delay = true /\ repeats <= 1) ->
   exists p' calls,
     on_arg_parsed repeats delay (on_config_loaded config p) = Ok (p', calls) /\
     _repeats p' = repeats /\ _repeats_delay p' = delay).
Proof.
  unfold on_arg_parsed. repeat split.
  - intros H. destruct (Z.ltb_spec repeats 1); [reflexivity | lia].
  - intros H Hd. destruct (Z.ltb_spec repeats 1); [lia|]. rewrite Hd. reflexivity.
  - intros -> Hd. cbn. rewrite (positive_is_not_negative delay Hd), Hd. reflexivity.
  - intros H Hd Hvalid. destruct (Z.ltb_spec repeats 1); [lia|].
    rewrite (non_negative_is_not_negative delay Hd).
    destruct (Z.leb_spec repeats 1) as [Hle|Hgt].
    + destruct (SFltb zero delay) eqn:Hpos; [exfalso; apply Hvalid; split; [reflexivity|lia]|].
      cbn. eexists _, _. repeat split; reflexivity.
    + rewrite andb_false_r. cbn. eexists _, _. repeat split; reflexivity.
Qed.

(** *** The statements above at concrete runs *)

Lemma repeat_scheduling_witness :
  fire (ScenarioPassedEvent (passed_result "a")) (ready 3 float_0_1 None)
  = Ok (ready 3 float_0_1 (Some "a"),
        [Sleep float_0_1; Schedule (scenario (passed_result "a"));
         Sleep float_0_1; Schedule (scenario (passed_result "a"))]) /\
  fire (ScenarioFailedEvent (passed_result "a")) init = Ok (init, []).
Proof.
  split.
  - destruct (repeat_scheduling (ready 3 float_0_1 None) (passed_result "a")
                (ScenarioPassedEvent (passed_result "a")))
      as (p' & calls & Hfire & _ & _ & Hcalls & _).
    + left. reflexivity.
    + intros _. split; [|discriminate].
      exists repeater_scheduler. split; reflexivity.
    + cbn in Hcalls. subst calls. cbn in Hfire. injection Hfire as <-.
      reflexivity.
  - destruct (repeat_scheduling init (passed_result "a")
                (ScenarioFailedEvent (passed_result "a")))
      as (p' & calls & Hfire & _ & _ & _ & Hone & _).
    + right. reflexivity.
    + cbn. lia.
    + destruct Hone as [-> ->]; [cbn; lia|]. exact Hfire.
Defined.

Lemma no_schedule_for_skipped_or_repeating_witness :
  exists p traces,
    run [ScenarioPassedEvent (passed_result "a");
         ScenarioSkippedEvent (passed_result "b");
         ScenarioFailedEvent (passed_result "a")]
        (ready 2 zero None) = Ok (p, traces) /\
    (forall calls, traces !! 1%nat = Some calls -> calls = []) /\
    (forall calls, traces !! 2%nat = Some calls -> calls = []).
Proof.
  eexists _, _. split; [reflexivity|].
  assert (Hall : Forall (fun ev => is_Some (completed ev))
                   [ScenarioPassedEvent (passed_result "a");
                    ScenarioSkippedEvent (passed_result "b");
                    ScenarioFailedEvent (passed_result "a")]).
  { repeat constructor; eexists; reflexivity. }
  pose proof (no_schedule_for_skipped_or_repeating (ready 2 zero None) _ _ _
                eq_refl Hall eq_refl) as H.
  split.
  - intros calls Hc. exact (proj1 (H 1%nat _ calls eq_refl Hc) eq_refl).
  - intros calls Hc. exact (proj2 (H 2%nat _ calls eq_refl Hc) eq_refl).
Defined.

Lemma arg_validation_witness :
  on_arg_parsed 0 zero init = Raise (ValueError "--repeats must be >= 1") /\
  on_arg_parsed 2 float_minus_0_001 init
  = Raise (ValueError "--repeats-delay must be >= 0.0") /\
  on_arg_parsed 1 float_0_1 init
  = Raise (ValueError "--repeats-delay must be used with --repeats > 1") /\
  exists p' calls,
    on_arg_parsed 3 float_0_1 (on_config_loaded Config init) = Ok (p', calls) /\
    _repeats p' = 3 /\ _repeats_delay p' = float_0_1.
Proof.
  split; [|split; [|split]].
  - apply (proj1 (arg_validation 0 zero init Config)). lia.
  - apply (proj1 (proj2 (arg_validation 2 float_minus_0_001 init Config)));
      [lia | reflexivity].
  - apply (proj1 (proj2 (proj2 (arg_validation 1 float_0_1 init Config))));
      reflexivity.
  - apply (proj2 (proj2 (proj2 (arg_validation 3 float_0_1 init Config))));
      [lia | reflexivity | intros [_ H]; lia].
Defined.

End RepeaterFacts.

(** * Facts about the skipper *)

Module SkipperFacts.
Import Skipper.

Lemma same_scenario_refl (a : VirtualScenario) : same_scenario a a = true.
Proof. apply String.eqb_refl. Qed.

Lemma same_scenario_sym (a b : VirtualScenario) :
  same_scenario a b = same_scenario b a.
Proof. apply String.eqb_sym. Qed.

Lemma same_scenario_true (a b : VirtualScenario) :
  same_scenario a b = true <-> unique_id a = unique_id b.
Proof. apply String.eqb_eq. Qed.

(** Unique ids identify the scenarios of a list without duplicates. *)
Lemma unique_id_inj (l : list VirtualScenario) (a b : VirtualScenario) :
  NoDup (unique_id <$> l) -> In a l -> In b l ->
  unique_id a = unique_id b -> a = b.
Proof.
  induction l as [|x l IH]; intros Hnd Ha Hb Hab; [destruct Ha|].
  rewrite fmap_cons in Hnd. apply NoDup_cons in Hnd as [Hx Hnd].
  assert (Hin : forall y, In y l -> unique_id y <> unique_id x).
  { intros y Hy Heq. apply Hx. rewrite <- Heq. apply list_elem_of_fmap.
    exists y. split; [reflexivity | by apply list_elem_of_In]. }
  destruct Ha as [<-|Ha], Hb as [<-|Hb].
  - reflexivity.
  - exfalso. by apply (Hin b Hb).
  - exfalso. by apply (Hin a Ha).
  - by apply IH.
Qed.

Lemma ignore_all_scheduled (l : list VirtualScenario) :
  forall sch,
    scheduled (fold_left (fun s x => ignore x s) l sch)
    = List.filter (fun x => negb (existsb (fun y => same_scenario y x) l))
                  (scheduled sch).
Proof.
  induction l as [|a l IH]; intros sch.
  - cbn. induction (scheduled sch) as [|x xs IHx]; [reflexivity|].
    cbn. by rewrite <- IHx.
  - cbn [fold_left]. rewrite IH. cbn [ignore scheduled].
    induction (scheduled sch) as [|x xs IHx]; [reflexivity|].
    cbn. destruct (same_scenario a x); cbn; [exact IHx|].
    destruct (existsb (fun y => same_scenario y x) l); cbn; [exact IHx|].
    by rewrite IHx.
Qed.

Lemma is_pending_ignore (a b : VirtualScenario) (sch : ScenarioScheduler) :
  same_scenario a b = false ->
  is_pending b (ignore a sch) = is_pending b sch.
Proof.
  intros Hab. unfold is_pending. cbn [ignore scheduled].
  induction (scheduled sch) as [|x xs IH]; [reflexivity|].
  cbn. destruct (same_scenario a x) eqn:Hax; cbn.
  - rewrite IH. destruct (same_scenario b x) eqn:Hbx; [|reflexivity].
    exfalso. apply same_scenario_true in Hax, Hbx.
    assert (same_scenario a b = true) by (apply same_scenario_true; congruence).
    congruence.
  - by rewrite IH.
Qed.

Section Iteration.
Variable body : VirtualScenario -> PassState -> result PassState.
Variable cond : VirtualScenario -> bool.
Variable upd : VirtualScenario -> gset string -> gset string.
Variable out : VirtualScenario -> list Call.
Variable good : gset string -> Prop.
Hypothesis good_upd : forall scn special, good special -> good (upd scn special).

(** An iteration pass whose body ignores the scenario at hand when [cond]
    says so, and nothing else. *)
Lemma iterate_spec (queue : list VirtualScenario) :
  forall sch special calls,
    NoDup (unique_id <$> queue) ->
    (forall scn, In scn queue -> is_pending scn sch = true) ->
    good special ->
    (forall scn sch special calls, In scn queue -> good special ->
       body scn (sch, special, calls)
       = Ok (if cond scn then ignore scn sch else sch,
             upd scn special, calls ++ out scn)) ->
    iterate body queue (sch, special, calls)
    = Ok (fold_left (fun s x => ignore x s) (List.filter cond queue) sch,
          fold_left (fun sp x => upd x sp) queue special,
          calls ++ concat (out <$> queue)).
Proof.
  induction queue as [|scn rest IH]; intros sch special calls Hnd Hpend Hgood Hbody.
  - cbn. by rewrite app_nil_r.
  - rewrite fmap_cons in Hnd. apply NoDup_cons in Hnd as [Hfresh Hnd].
    cbn [iterate fst]. rewrite (Hpend scn) by (left; reflexivity).
    rewrite Hbody by (auto; left; reflexivity). cbn [mbind result_bind].
    rewrite IH.
    + cbn [List.filter fold_left fmap list_fmap concat].
      rewrite <- app_assoc. destruct (cond scn); reflexivity.
    + exact Hnd.
    + intros x Hx. destruct (cond scn); [|apply Hpend; by right].
      rewrite is_pending_ignore; [apply Hpend; by right|].
      destruct (same_scenario scn x) eqn:E; [|reflexivity].
      exfalso. apply Hfresh. apply same_scenario_true in E. rewrite E.
      apply list_elem_of_fmap. exists x. split; [reflexivity | by apply list_elem_of_In].
    + by apply good_upd.
    + intros x sch' sp' calls' Hx Hg. apply Hbody; [by right | exact Hg].
Qed.

End Iteration.

Lemma self_pending (l : list VirtualScenario) (scn : VirtualScenario) :
  In scn l -> existsb (same_scenario scn) l = true.
Proof.
  intros Hin. apply existsb_exists. exists scn. split; [exact Hin|].
  apply same_scenario_refl.
Qed.

(** In a list without duplicate ids, the scenarios that share their id
    with a member of a sublist chosen by [f] are those [f] chooses. *)
Lemma existsb_same_filter (l : list VirtualScenario)
    (f : VirtualScenario -> bool) (x : VirtualScenario) :
  NoDup (unique_id <$> l) -> In x l ->
  existsb (fun y => same_scenario y x) (List.filter f l) = f x.
Proof.
  intros Hnd Hx. destruct (f x) eqn:Hfx.
  - apply existsb_exists. exists x. split; [|apply same_scenario_refl].
    apply filter_In. auto.
  - apply not_true_is_false. intros H. apply existsb_exists in H as (y & Hy & Hs).
    apply filter_In in Hy as [Hy Hfy]. apply same_scenario_true in Hs.
    assert (y = x) by (eapply unique_id_inj; eauto). congruence.
Qed.

Lemma filter_ext_in' {A} (f g : A -> bool) (l : list A) :
  (forall x, In x l -> f x = g x) -> List.filter f l = List.filter g l.
Proof.
  induction l as [|a l IH]; intros H; [reflexivity|]. cbn.
  rewrite (H a) by (by left). rewrite IH; [reflexivity|].
  intros x Hx. apply H. by right.
Qed.

Lemma NoDup_filter_ids (f : VirtualScenario -> bool) (l : list VirtualScenario) :
  NoDup (unique_id <$> l) -> NoDup (unique_id <$> List.filter f l).
Proof.
  induction l as [|a l IH]; intros Hnd; [exact Hnd|].
  rewrite fmap_cons in Hnd. apply NoDup_cons in Hnd as [Ha Hnd]. cbn.
  destruct (f a); [|by apply IH]. rewrite fmap_cons. apply NoDup_cons.
  split; [|by apply IH]. intros Hin. apply Ha.
  apply list_elem_of_fmap in Hin as (y & -> & Hy). apply list_elem_of_fmap.
  exists y. split; [reflexivity|]. apply list_elem_of_In.
  apply list_elem_of_In in Hy. apply filter_In in Hy. tauto.
Qed.

(** *** The two passes of [on_startup] *)

Section Startup.
Variable sk : SkipperPlugin.
Variable deemed : VirtualScenario -> bool.

Lemma first_pass_body_eq (scn : VirtualScenario) (sch : ScenarioScheduler)
    (special : gset string) (calls : list Call) :
  _forbid_only sk = false ->
  _is_scenario_ignored sk scn = Ok (deemed scn) ->
  first_pass_body sk scn (sch, special, calls)
  = Ok (if first_cond deemed scn then ignore scn sch else sch,
        first_upd deemed scn special, calls ++ first_out deemed scn).
Proof.
  intros Hforbid Hign. unfold first_pass_body, first_cond, first_upd, first_out.
  rewrite Hign, Hforbid. cbn [mbind result_bind].
  destruct (deemed scn); cbn [negb andb]; [reflexivity|].
  destruct (_is_scenario_skipped scn), (_is_scenario_special scn);
    rewrite ?app_nil_r; reflexivity.
Qed.

Lemma first_out_passes (l : list VirtualScenario) :
  passes (concat (first_out deemed <$> l)) = 0%nat.
Proof.
  induction l as [|a l IH]; [reflexivity|]. cbn [fmap list_fmap concat].
  unfold passes in *. rewrite List.filter_app, length_app, IH.
  unfold first_out. destruct (deemed a); [reflexivity|].
  destruct (_is_scenario_skipped a); reflexivity.
Qed.

Lemma first_out_ignored (l : list VirtualScenario) :
  ignored_by (concat (first_out deemed <$> l)) = List.filter deemed l.
Proof.
  induction l as [|a l IH]; [reflexivity|]. cbn [fmap list_fmap concat].
  unfold ignored_by in *. rewrite omap_app, IH. cbn [List.filter].
  unfold first_out. destruct (deemed a); [reflexivity|].
  destruct (_is_scenario_skipped a); reflexivity.
Qed.

Lemma first_upd_fold (l : list VirtualScenario) :
  forall special,
    fold_left (fun sp x => first_upd deemed x sp) l special
    = list_to_set
        (unique_id <$> List.filter _is_scenario_special
                         (List.filter (fun scn => negb (deemed scn)) l))
        ∪ special.
Proof.
  induction l as [|a l IH]; intros special; [cbn; set_solver|].
  cbn [fold_left List.filter]. rewrite IH. unfold first_upd.
  destruct (deemed a); cbn [negb andb]; [reflexivity|].
  cbn [List.filter]. destruct (_is_scenario_special a); [|reflexivity].
  rewrite fmap_cons. cbn [list_to_set]. set_solver.
Qed.

End Startup.

Lemma second_pass_body_eq (special : gset string) (scn : VirtualScenario)
    (sch : ScenarioScheduler) (calls : list Call) :
  second_pass_body scn (sch, special, calls)
  = Ok (if second_cond special scn then ignore scn sch else sch,
        special, calls ++ second_out special scn).
Proof.
  unfold second_pass_body, second_out, second_cond.
  destruct (bool_decide (unique_id scn ∈ special)); cbn [negb];
    rewrite ?app_nil_r; reflexivity.
Qed.

Lemma fold_left_keeps {A B} (l : list B) (a : A) :
  fold_left (fun x _ => x) l a = a.
Proof. induction l as [|b l IH]; [reflexivity | exact IH]. Qed.

Lemma second_out_calls (special : gset string) (l : list VirtualScenario) :
  concat (second_out special <$> l)
  = Ignore <$> List.filter (second_cond special) l.
Proof.
  induction l as [|a l IH]; [reflexivity|]. cbn [fmap list_fmap concat List.filter].
  unfold second_out at 1. destruct (second_cond special a); cbn; by rewrite IH.
Qed.

(** The scenarios of a duplicate-free list whose id is among the ids of
    the sublist chosen by [f] are that sublist. *)
Lemma filter_by_ids (f : VirtualScenario -> bool) (l : list VirtualScenario) :
  NoDup (unique_id <$> l) ->
  List.filter
    (fun scn => bool_decide
       (unique_id scn ∈ (list_to_set (unique_id <$> List.filter f l) : gset string)))
    l
  = List.filter f l.
Proof.
  intros Hnd. apply filter_ext_in'. intros x Hx.
  destruct (f x) eqn:Hfx.
  - apply bool_decide_eq_true. apply elem_of_list_to_set, list_elem_of_fmap.
    exists x. split; [reflexivity|]. apply list_elem_of_In, filter_In. auto.
  - apply bool_decide_eq_false. intros Hin.
    apply elem_of_list_to_set, list_elem_of_fmap in Hin as (y & Hid & Hy).
    apply list_elem_of_In, filter_In in Hy as [Hy Hfy].
    assert (x = y) by (eapply unique_id_inj; eauto). congruence.
Qed.

(** *** Two concrete work-lists *)

(** C8, as stated, fails in two ways.  With [forbid_only] on, an exclusive
    scenario is found and yet there is no second pass: the handler raises.
    And an exclusive scenario that is itself deemed ignored is not
    collected: here [b] and [c] are exclusive and ignored, no second pass
    is made, and the ordinary scenario [a] stays pending. *)
Lemma exclusive_found_without_second_pass :
  on_startup (select_all ["/scenarios/old"] true) (scheduler_of work_list)
  = Raise (ValueError
             "Scenario 'b' has @vedro.only, but 'forbid_only' option is enabled") /\
  on_startup (select_all ["/scenarios/old"; "/scenarios/b.py"] false)
             (scheduler_of work_list)
  = Ok ({| discovered := work_list; scheduled := [scenario_a] |},
        [Iterate; Ignore scenario_b; Ignore scenario_c; Ignore scenario_d]).
Proof. split; vm_compute; reflexivity. Qed.

End SkipperFacts.

(** * Facts about the orderer *)

Module OrdererFacts.
Import Orderer.

Lemma every_order_of_the_test_is_sorted :
  sorts_every_order expected_order expected_order = true.
Proof. vm_compute. reflexivity. Qed.

(** C7. Whatever the order in which the six scenarios of the test are
    handed over, [sort] yields scn2.py, scn10.py, dir1/scn1.py,
    dir1/scn2.py, dir2/scn2.py, directory/scn.py.  [sort] is a function of
    the list it is given: the list itself is left as it was. *)
Theorem test_scenarios_order (scenarios : list VirtualScenario) :
  scenarios ≡ₚ expected_order ->
  sort scenarios = expected_order /\
  path <$> sort scenarios
  = ["scenarios/scn2.py"; "scenarios/scn10.py"; "scenarios/dir1/scn1.py";
     "scenarios/dir1/scn2.py"; "scenarios/dir2/scn2.py";
     "scenarios/directory/scn.py"].
Proof.
  intros Hperm.
  assert (Hsort : sort scenarios = expected_order).
  { symmetry in Hperm. apply permutations_Permutation in Hperm.
    pose proof every_order_of_the_test_is_sorted as Hall.
    unfold sorts_every_order in Hall.
    rewrite forallb_forall in Hall.
    apply list_elem_of_In in Hperm.
    exact (bool_decide_eq_true_1 _ (Hall scenarios Hperm)). }
  split; [exact Hsort|]. rewrite Hsort. reflexivity.
Qed.

Lemma test_scenarios_order_witness : sort test_input = expected_order.
Proof.
  apply test_scenarios_order.
  apply permutations_Permutation.
  apply (bool_decide_eq_true_1 (expected_order ∈ permutations test_input)).
  vm_compute. reflexivity.
Defined.

End OrdererFacts.

(** * The life cycle of the seeder *)

Module SeederLifecycle.
Import Seeder SeederFacts.

Section WithGenerator.
Context {G : RandomGenerator}.

Lemma disturb_self (p : SeederPlugin G) : disturb (_random p) p = p.
Proof. destruct p; reflexivity. Qed.

(** No handler reads the shared generator before seeding it. *)
Lemma on_startup_disturb (discovered : list VirtualScenario)
    (g : StateType) (p : SeederPlugin G) :
  on_startup discovered (disturb g p) = on_startup discovered p.
Proof. reflexivity. Qed.

Lemma on_scenario_run_disturb (u : string) (g : StateType) (p : SeederPlugin G) :
  on_scenario_run u (disturb g p) = on_scenario_run u p.
Proof. reflexivity. Qed.

Lemma run_cons (ev : Event G) (rest : list (Event G)) (p : SeederPlugin G) :
  run (ev :: rest) p
  = '(p1, s) ← fire ev p;
    '(p2, seeds) ← run rest p1;
    Ok (p2, match s with Some x => x :: seeds | None => seeds end).
Proof. reflexivity. Qed.

(** A run of events in order answers; out of order, it stops on the
    assertion of the handler that came too early. *)
Lemma run_in_order (evs : list (Event G)) :
  forall (p : SeederPlugin G) (parsed started : bool),
    (parsed = true <-> is_Some (_initial_seed p)) ->
    (started = true <-> is_Some (_scheduled_state p)) ->
    (started = false -> _scenarios p = ∅) ->
    match run evs p with
    | Ok _ => in_order parsed started evs = true
    | Raise e => in_order parsed started evs = false /\ e = AssertionError
    end.
Proof.
  induction evs as [|ev rest IH]; intros p parsed started Hp Hs He; [reflexivity|].
  rewrite run_cons.
  destruct ev as [seed fixed uuid4|discovered|u|report|g]; cbn [fire in_order].
  - cbn [mbind result_bind].
    specialize (IH (on_arg_parsed seed fixed uuid4 p) true started).
    destruct (run rest (on_arg_parsed seed fixed uuid4 p)) as [[p2 l]|e];
      cbn [mbind result_bind]; apply IH; cbn; auto.
    all: split; [eauto | reflexivity].
  - destruct parsed.
    + destruct (proj1 Hp eq_refl) as [initial Hi].
      destruct (on_startup_started discovered p initial Hi)
        as (q & Hq & Hi' & _ & _ & _ & Hst & _ & _).
      rewrite Hq. cbn [mbind result_bind andb].
      specialize (IH q true true).
      destruct (run rest q) as [[p2 l]|e]; cbn [mbind result_bind]; apply IH.
      all: try (rewrite Hi'; split; eauto).
      all: try (rewrite Hst; split; eauto).
      all: discriminate.
    + assert (Hi : _initial_seed p = None).
      { destruct (_initial_seed p) eqn:E; [|reflexivity].
        assert (false = true) by (apply Hp; eauto). discriminate. }
      unfold on_startup. rewrite Hi. cbn. auto.
  - destruct started.
    + destruct (base_seed_for_started u p (proj1 Hs eq_refl))
        as (b & m & st & Hb & _ & _).
      destruct (on_scenario_run_unfold u p _ _ _ Hb)
        as (p1 & eff & Hrun & _ & Hss & _ & _ & Hi & _).
      rewrite Hrun. cbn [mbind result_bind andb].
      specialize (IH p1 parsed true).
      destruct (run rest p1) as [[p2 l]|e]; cbn [mbind result_bind]; apply IH.
      all: try (rewrite Hi; exact Hp).
      all: try (rewrite Hss; split; eauto).
      all: discriminate.
    + assert (Hst : _scheduled_state p = None).
      { destruct (_scheduled_state p) eqn:E; [|reflexivity].
        assert (false = true) by (apply Hs; eauto). discriminate. }
      unfold on_scenario_run, base_seed_for.
      rewrite (He eq_refl), lookup_empty, Hst. cbn. auto.
  - cbn [mbind result_bind]. specialize (IH p parsed started Hp Hs He).
    destruct (run rest p) as [[p2 l]|e]; cbn [mbind result_bind]; exact IH.
  - cbn [mbind result_bind]. specialize (IH (disturb g p) parsed started Hp Hs He).
    destruct (run rest (disturb g p)) as [[p2 l]|e]; cbn [mbind result_bind];
      exact IH.
Qed.

(** X1. From a freshly created plugin, a sequence of events is handled
    without an exception exactly when it is in order: no startup before
    the arguments were parsed and no scenario run before a startup.
    Otherwise the run stops with an [AssertionError]; the plugin raises
    nothing else. *)
Theorem out_of_order_events_fail_assertion
    (conf : bool) (g : StateType) (evs : list (Event G)) :
  match run evs (init conf g) with
  | Ok _ => in_order false false evs = true
  | Raise e => in_order false false evs = false /\ e = AssertionError
  end.
Proof.
  apply run_in_order; cbn.
  - split; [discriminate | intros [x Hx]; discriminate].
  - split; [discriminate | intros [x Hx]; discriminate].
  - reflexivity.
Qed.

Lemma fire_history (ev : Event G) (p p' : SeederPlugin G) (s : option Z) :
  fire ev p = Ok (p', s) ->
  forall u, default O (_history p' !! u)
            = (default O (_history p !! u) + executions u [ev])%nat.
Proof.
  intros Hfire u.
  destruct ev as [seed fixed uuid4|discovered|v|report|g]; cbn [fire] in Hfire;
    cbn [executions].
  - injection Hfire as <- <-. cbn. lia.
  - destruct (on_startup discovered p) as [q|e] eqn:Hq; [|discriminate].
    injection Hfire as <- <-.
    destruct (_initial_seed p) as [initial|] eqn:Hi;
      [|unfold on_startup in Hq; rewrite Hi in Hq; discriminate].
    destruct (on_startup_started discovered p initial Hi)
      as (q' & Hq' & _ & _ & Hh & _).
    rewrite Hq in Hq'. injection Hq' as <-. rewrite Hh. lia.
  - destruct (on_scenario_run v p) as [[q eff]|e] eqn:Hq; [|discriminate].
    injection Hfire as <- <-.
    destruct (base_seed_for v p) as [[[b m] st]|e] eqn:Hb;
      [|unfold on_scenario_run in Hq; rewrite Hb in Hq; discriminate].
    destruct (on_scenario_run_unfold v p b m st Hb)
      as (q' & eff' & Hq' & _ & _ & Hh & _).
    rewrite Hq in Hq'. injection Hq' as <- <-. rewrite Hh.
    destruct (decide (v = u)) as [->|Hne].
    + rewrite bump_history_same. cbn. lia.
    + rewrite bump_history_other by exact Hne. lia.
  - injection Hfire as <- <-. lia.
  - injection Hfire as <- <-. cbn. lia.
Qed.

Lemma executions_cons (u : string) (ev : Event G) (rest : list (Event G)) :
  executions u (ev :: rest) = (executions u [ev] + executions u rest)%nat.
Proof. destruct ev; cbn [executions]; lia. Qed.

(** X2. [_history] counts the executions: after a run of events, the entry
    of every unique id has grown by the number of times that scenario was
    run (an id without an entry counting as zero); the entries of the
    other ids are as they were. *)
Theorem history_counts_executions
    (evs : list (Event G)) (p p' : SeederPlugin G) (seeds : list Z) (u : string) :
  run evs p = Ok (p', seeds) ->
  default O (_history p' !! u)
  = (default O (_history p !! u) + executions u evs)%nat.
Proof.
  revert p p' seeds. induction evs as [|ev rest IH]; intros p p' seeds Hrun.
  - cbn in Hrun. injection Hrun as <- <-. cbn. lia.
  - rewrite run_cons in Hrun.
    destruct (fire ev p) as [[p1 s]|e] eqn:Hf; [|discriminate].
    cbn [mbind result_bind] in Hrun.
    destruct (run rest p1) as [[p2 l]|e] eqn:Hr; [|discriminate].
    cbn [mbind result_bind] in Hrun. injection Hrun as <- <-.
    rewrite (IH p1 p2 l Hr), (fire_history ev p p1 s Hf u).
    rewrite (executions_cons u ev rest). lia.
Qed.

Lemma fire_keeps_base_seeds (ev : Event G) (p p' : SeederPlugin G) (s : option Z) :
  is_startup ev = false -> fire ev p = Ok (p', s) ->
  _scenarios p ⊆ _scenarios p'.
Proof.
  intros Hev Hfire.
  destruct ev as [seed fixed uuid4|discovered|v|report|g]; cbn [fire] in Hfire;
    try discriminate.
  - injection Hfire as <- <-. reflexivity.
  - destruct (on_scenario_run v p) as [[q eff]|e] eqn:Hq; [|discriminate].
    injection Hfire as <- <-.
    destruct (on_scenario_run_inv v p q eff Hq) as (b & m & st & Hb & Hm & _).
    rewrite Hm. unfold base_seed_for in Hb.
    destruct (_scenarios p !! v) as [b0|] eqn:E.
    + injection Hb as <- <- <-. reflexivity.
    + destruct (_scheduled_state p) as [g|]; [|discriminate].
      destruct (_generate_seed g) as [x g']. injection Hb as <- <- <-.
      by apply insert_subseteq.
  - injection Hfire as <- <-. reflexivity.
  - injection Hfire as <- <-. reflexivity.
Qed.

(** X3. A base seed, once recorded, stays: whatever scenarios are run
    afterwards and whatever other events come (short of another startup),
    the unique id keeps the base seed it has. *)
Theorem base_seed_is_kept
    (evs : list (Event G)) (p p' : SeederPlugin G) (seeds : list Z)
    (u : string) (b : Z) :
  Forall (fun ev => is_startup ev = false) evs ->
  run evs p = Ok (p', seeds) ->
  _scenarios p !! u = Some b ->
  _scenarios p' !! u = Some b.
Proof.
  revert p p' seeds. induction evs as [|ev rest IH]; intros p p' seeds Hall Hrun Hb.
  - cbn in Hrun. injection Hrun as <- <-. exact Hb.
  - apply Forall_cons in Hall as [Hev Hall]. rewrite run_cons in Hrun.
    destruct (fire ev p) as [[p1 s]|e] eqn:Hf; [|discriminate].
    cbn [mbind result_bind] in Hrun.
    destruct (run rest p1) as [[p2 l]|e] eqn:Hr; [|discriminate].
    cbn [mbind result_bind] in Hrun. injection Hrun as <- <-.
    apply (IH p1 p2 l Hall Hr).
    eapply lookup_weaken; [exact Hb|]. eapply fire_keeps_base_seeds; eauto.
Qed.

(** A run from a disturbed generator, next to the same run with the
    other consumers left out: same answer, same plugin but for the state
    of the generator. *)
Lemma run_own_events (evs : list (Event G)) :
  forall (p : SeederPlugin G) (g : StateType),
    match run evs (disturb g p), run (own_events evs) p with
    | Ok (q1, seeds1), Ok (q2, seeds2) =>
        seeds1 = seeds2 /\ forall g', disturb g' q1 = disturb g' q2
    | Raise e1, Raise e2 => e1 = e2
    | _, _ => False
    end.
Proof.
  induction evs as [|ev rest IH]; intros p g.
  - cbn. split; reflexivity.
  - destruct ev as [seed fixed uuid4|discovered|u|report|g0].
    + specialize (IH (on_arg_parsed seed fixed uuid4 p) g).
      change (own_events (ArgParsedEvent seed fixed uuid4 :: rest))
        with (ArgParsedEvent seed fixed uuid4 :: own_events rest).
      rewrite !run_cons. cbn [fire mbind result_bind].
      change (on_arg_parsed seed fixed uuid4 (disturb g p))
        with (disturb g (on_arg_parsed seed fixed uuid4 p)).
      destruct (run rest (disturb g (on_arg_parsed seed fixed uuid4 p)))
        as [[q1 l1]|e1],
        (run (own_events rest) (on_arg_parsed seed fixed uuid4 p))
        as [[q2 l2]|e2]; cbn [mbind result_bind]; exact IH.
    + change (own_events (StartupEvent discovered :: rest))
        with (StartupEvent discovered :: own_events rest).
      rewrite !run_cons. cbn [fire]. rewrite on_startup_disturb.
      destruct (on_startup discovered p) as [q|e]; cbn [mbind result_bind];
        [|reflexivity].
      specialize (IH q (_random q)). rewrite disturb_self in IH.
      destruct (run rest q) as [[q1 l1]|e1],
        (run (own_events rest) q) as [[q2 l2]|e2];
        cbn [mbind result_bind]; exact IH.
    + change (own_events (ScenarioRunEvent u :: rest))
        with (ScenarioRunEvent u :: own_events rest).
      rewrite !run_cons. cbn [fire]. rewrite on_scenario_run_disturb.
      destruct (on_scenario_run u p) as [[q eff]|e]; cbn [mbind result_bind];
        [|reflexivity].
      specialize (IH q (_random q)). rewrite disturb_self in IH.
      destruct (run rest q) as [[q1 l1]|e1],
        (run (own_events rest) q) as [[q2 l2]|e2];
        cbn [mbind result_bind]; [|exact IH..].
      destruct IH as [-> Hq]. split; [reflexivity | exact Hq].
    + specialize (IH p g).
      change (own_events (CleanupEvent report :: rest))
        with (CleanupEvent report :: own_events rest).
      rewrite !run_cons. cbn [fire mbind result_bind].
      destruct (run rest (disturb g p)) as [[q1 l1]|e1],
        (run (own_events rest) p) as [[q2 l2]|e2];
        cbn [mbind result_bind]; exact IH.
    + specialize (IH p g0).
      change (own_events (OtherConsumer g0 :: rest)) with (own_events rest).
      rewrite run_cons. cbn [fire mbind result_bind].
      change (disturb g0 (disturb g p)) with (disturb g0 p).
      destruct (run rest (disturb g0 p)) as [[q1 l1]|e1],
        (run (own_events rest) p) as [[q2 l2]|e2];
        cbn [mbind result_bind]; exact IH.
Qed.

(** X4. What the other users of the shared generator do to it, before the
    events or between them, changes nothing: the run has the effective
    seeds, the base seeds and the history (or the exception) of the same
    run with the generator left alone. *)
Theorem other_consumers_do_not_matter
    (evs : list (Event G)) (p : SeederPlugin G) (g : StateType) :
  match run evs (disturb g p), run (own_events evs) p with
  | Ok (q1, seeds1), Ok (q2, seeds2) =>
      seeds1 = seeds2 /\ _scenarios q1 = _scenarios q2 /\
      _history q1 = _history q2 /\ _scheduled_state q1 = _scheduled_state q2
  | Raise e1, Raise e2 => e1 = e2
  | _, _ => False
  end.
Proof.
  pose proof (run_own_events evs p g) as H.
  destruct (run evs (disturb g p)) as [[q1 l1]|e1],
    (run (own_events evs) p) as [[q2 l2]|e2]; try exact H.
  destruct H as [-> Hq]. specialize (Hq (_random q1)).
  split; [reflexivity|].
  change (_scenarios q1) with (_scenarios (disturb (_random q1) q1)).
  change (_history q1) with (_history (disturb (_random q1) q1)).
  change (_scheduled_state q1) with (_scheduled_state (disturb (_random q1) q1)).
  rewrite Hq. repeat split; reflexivity.
Qed.

(** X5. The first unique id the overflow stream serves gets, as its base
    seed, the very seed of the discovery stream: both are the first draw
    of the generator seeded with [_scheduled_seed]. *)
Theorem first_overflow_seed_is_discovery_seed
    (g : StateType) (conf : bool) (seed : option string) (fixed : bool)
    (uuid4 : string) (discovered : list VirtualScenario)
    (evs : list (Event G)) (u : string) :
  Forall (fun ev => is_startup ev = false) evs ->
  minted evs (list_to_set (unique_id <$> discovered)) !! O = Some u ->
  exists p' seeds d,
    run (ArgParsedEvent seed fixed uuid4 :: StartupEvent discovered :: evs)
        (init conf g) = Ok (p', seeds) /\
    _discovered_seed p' = Some d /\ _scenarios p' !! u = Some d.
Proof.
  intros Hall Hu.
  set (p0 := on_arg_parsed seed fixed uuid4 (init conf g)).
  assert (Hi : _initial_seed p0 = Some (default uuid4 seed))
    by (destruct seed; reflexivity).
  destruct (on_startup_started discovered p0 _ Hi)
    as (q & Hq & _ & _ & _ & _ & Hst & Hd & Hm).
  destruct (run_minted evs q 0 _ Hst Hall)
    as (p' & seeds & Hrun & _ & _ & Hd' & Hmint).
  exists p', seeds, (draw_at 0 (set_seed (SeedInt
    (draw_at 0 (set_seed (SeedStr (default uuid4 seed))))))).
  split.
  { cbn [run fire mbind result_bind]. fold p0. rewrite Hq.
    cbn [mbind result_bind]. rewrite Hrun. reflexivity. }
  split; [congruence|].
  apply (Hmint O u). rewrite Hm, assign_discovered_dom.
  cbn. rewrite dom_empty_L, (right_id_L ∅ (∪)). exact Hu.
Qed.

End WithGenerator.

(** *** The statements above at concrete runs *)

Lemma history_counts_executions_witness :
  exists p seeds,
    run (G:=Lcg)
        [ArgParsedEvent (Some "42") false ""; StartupEvent [scenario_a];
         ScenarioRunEvent "a"; ScenarioRunEvent "b"; ScenarioRunEvent "a"]
        (init (G:=Lcg) false (0 : Z)) = Ok (p, seeds) /\
    default O (_history p !! "a") = 2%nat.
Proof.
  destruct (run (G:=Lcg)
              [ArgParsedEvent (Some "42") false ""; StartupEvent [scenario_a];
               ScenarioRunEvent "a"; ScenarioRunEvent "b"; ScenarioRunEvent "a"]
              (init (G:=Lcg) false (0 : Z))) as [[p seeds]|e] eqn:E.
  - exists p, seeds. split; [reflexivity|].
    rewrite (history_counts_executions (G:=Lcg) _ _ _ _ "a" E). reflexivity.
  - exfalso.
    assert (H : effective_seeds
                  (run (G:=Lcg)
                     [ArgParsedEvent (Some "42") false ""; StartupEvent [scenario_a];
                      ScenarioRunEvent "a"; ScenarioRunEvent "b";
                      ScenarioRunEvent "a"]
                     (init (G:=Lcg) false (0 : Z))) <> None)
      by (vm_compute; discriminate).
    apply H. rewrite E. reflexivity.
Defined.

Lemma base_seed_is_kept_witness :
  exists p seeds,
    run (G:=Lcg)
        [ScenarioRunEvent "b"; OtherConsumer (G:=Lcg) (9 : Z);
         ScenarioRunEvent "a"] started_plugin = Ok (p, seeds) /\
    _scenarios p !! "a" = Some 5.
Proof.
  destruct (run (G:=Lcg)
              [ScenarioRunEvent "b"; OtherConsumer (G:=Lcg) (9 : Z);
               ScenarioRunEvent "a"] started_plugin) as [[p seeds]|e] eqn:E.
  - exists p, seeds. split; [reflexivity|].
    assert (Hall : Forall (fun ev : Event Lcg => is_startup ev = false)
                     [ScenarioRunEvent "b"; OtherConsumer (G:=Lcg) (9 : Z);
                      ScenarioRunEvent "a"]) by (repeat constructor).
    apply (base_seed_is_kept (G:=Lcg) _ _ _ _ "a" 5 Hall E). reflexivity.
  - exfalso.
    assert (H : effective_seeds
                  (run (G:=Lcg)
                     [ScenarioRunEvent "b"; OtherConsumer (G:=Lcg) (9 : Z);
                      ScenarioRunEvent "a"] started_plugin) <> None)
      by (vm_compute; discriminate).
    apply H. rewrite E. reflexivity.
Defined.

Lemma first_overflow_seed_is_discovery_seed_witness :
  exists p seeds d,
    run (G:=Lcg)
        [ArgParsedEvent (Some "42") false ""; StartupEvent [scenario_a];
         ScenarioRunEvent "a"; ScenarioRunEvent "b"]
        (init (G:=Lcg) false (0 : Z)) = Ok (p, seeds) /\
    _discovered_seed p = Some d /\ _scenarios p !! "b" = Some d.
Proof.
  apply (first_overflow_seed_is_discovery_seed (G:=Lcg) (0 : Z) false (Some "42")
           false "" [scenario_a] [ScenarioRunEvent "a"; ScenarioRunEvent "b"] "b").
  - repeat constructor.
  - vm_compute. reflexivity.
Defined.

End SeederLifecycle.

(** * The life cycle of the repeater *)

Module RepeaterLifecycle.
Import Repeater RepeaterFacts.

(** X6. [on_arg_parsed] returns only for valid arguments: [repeats >= 1],
    a delay that is not below zero, and no positive delay with
    [repeats = 1]; it then stores them.  It registers the scheduler
    factory, once, exactly when [repeats > 1], and for that it needs the
    configuration to be loaded: without it the handler stops on its
    assertion.  With [repeats = 1] it registers nothing and needs no
    configuration. *)
Theorem scheduler_registered_for_repeats (repeats : Z) (delay : float)
    (p : RepeaterPlugin) :
  match on_arg_parsed repeats delay p with
  | Ok (p', calls) =>
      1 <= repeats /\ SFltb delay zero = false /\
      (SFltb zero delay = true -> 1 < repeats) /\
      (1 < repeats -> is_Some (_global_config p)) /\
      calls = (if 1 <? repeats then [RegisterScheduler] else []) /\
      _repeats p' = repeats /\ _repeats_delay p' = delay /\
      _scheduler p' = _scheduler p /\
      _repeat_scenario_id p' = _repeat_scenario_id p
  | Raise AssertionError =>
      1 < repeats /\ SFltb delay zero = false /\ _global_config p = None
  | Raise (ValueError _) =>
      repeats < 1 \/ SFltb delay zero = true \/
      (SFltb zero delay = true /\ repeats = 1)
  end.
Proof.
  unfold on_arg_parsed.
  destruct (Z.ltb_spec repeats 1) as [Hlt|Hge]; [left; exact Hlt|].
  destruct (SFltb delay zero) eqn:Hneg; [right; left; reflexivity|].
  destruct (Z.leb_spec repeats 1) as [Hle|Hgt].
  - assert (repeats = 1) as -> by lia.
    destruct (SFltb zero delay) eqn:Hpos; cbn [andb].
    + right; right. split; reflexivity.
    + cbn. repeat split; try reflexivity; try lia; discriminate.
  - rewrite andb_false_r.
    destruct (Z.ltb_spec 1 repeats) as [_|Hno]; [|lia].
    destruct (_global_config p) as [config|] eqn:Hc.
    + cbn. repeat split; try reflexivity; try lia; eauto.
    + split; [exact Hgt | split; reflexivity].
Qed.

(** X7. With [repeats > 1], [on_scenario_end] insists on a scheduler that
    is a [RepeaterScenarioScheduler]: when none has been handed over yet
    (no startup), or another kind was, it stops on its assertion, and it
    does so before it looks at the completed scenario, the remembered one
    included.  It raises nothing else, and with [repeats <= 1] it does not
    look at the scheduler at all. *)
Theorem scenario_end_asserts_scheduler (r : ScenarioResult) (p : RepeaterPlugin) :
  match on_scenario_end r p with
  | Ok _ =>
      _repeats p <= 1 \/
      exists sch, _scheduler p = Some sch /\ is_repeater_scheduler sch = true
  | Raise e =>
      e = AssertionError /\ 1 < _repeats p /\
      forall sch, _scheduler p = Some sch -> is_repeater_scheduler sch = false
  end.
Proof.
  unfold on_scenario_end.
  destruct (Z.leb_spec (_repeats p) 1) as [Hle|Hgt]; [left; exact Hle|].
  destruct (_scheduler p) as [sch|] eqn:Hs.
  - destruct (is_repeater_scheduler sch) eqn:Hr.
    + destruct (decide (_repeat_scenario_id p = Some (unique_id (scenario r))));
        right; exists sch; split; reflexivity || exact Hr.
    + split; [reflexivity|]. split; [exact Hgt|]. intros sch' [= <-]. exact Hr.
  - split; [reflexivity|]. split; [exact Hgt|]. intros sch' H. discriminate H.
Qed.

Lemma schedule_calls_cons (calls : list Call) (traces : list (list Call)) :
  schedule_calls (calls :: traces)
  = List.filter is_schedule calls ++ schedule_calls traces.
Proof. unfold schedule_calls. cbn [concat]. apply List.filter_app. Qed.

Lemma no_repeats_no_calls (repeats : Z) (l : list ScenarioResult) :
  repeats <= 1 -> concat (repeats_of repeats <$> l) = [].
Proof.
  intros Hle. induction l as [|r l IH]; [reflexivity|].
  rewrite fmap_cons. cbn [concat]. rewrite IH. unfold repeats_of.
  replace (Z.to_nat (repeats - 1)) with O by lia. reflexivity.
Qed.

Lemma run_schedule_calls (evs : list Event) :
  forall (p : RepeaterPlugin) (last : option string),
    (1 < _repeats p ->
     _repeat_scenario_id p = last /\
     exists sch, _scheduler p = Some sch /\ is_repeater_scheduler sch = true) ->
    Forall (fun ev => is_Some (completed ev)) evs ->
    exists p' traces,
      run evs p = Ok (p', traces) /\
      schedule_calls traces
      = concat (repeats_of (_repeats p) <$> triggers last evs).
Proof.
  induction evs as [|ev rest IH]; intros p last Hinv Hall.
  - exists p, []. split; reflexivity.
  - apply Forall_cons in Hall as [[r Hr] Hall].
    assert (Hskip : forall last',
              fire ev p = Ok (p, []) ->
              triggers last (ev :: rest) = triggers last' rest \/ _repeats p <= 1 ->
              (1 < _repeats p -> _repeat_scenario_id p = last') ->
              exists p' traces,
                run (ev :: rest) p = Ok (p', traces) /\
                schedule_calls traces
                = concat (repeats_of (_repeats p) <$> triggers last (ev :: rest))).
    { intros last' Hfire Htr Hlast.
      destruct (IH p last') as (p' & traces & Hrun & Hcalls); [|exact Hall|].
      { intros Hgt. split; [auto | apply Hinv, Hgt]. }
      exists p', ([] :: traces). cbn [run]. rewrite Hfire. cbn [mbind result_bind].
      rewrite Hrun. cbn [mbind result_bind]. split; [reflexivity|].
      rewrite schedule_calls_cons. cbn [List.filter app]. rewrite Hcalls.
      destruct Htr as [-> | Hle]; [reflexivity|].
      by rewrite !no_repeats_no_calls. }
    assert (Hend : is_skipped ev = true \/
                   (fire ev p = on_scenario_end r p /\
                    triggers last (ev :: rest)
                    = if decide (last = Some (unique_id (scenario r)))
                      then triggers last rest
                      else r :: triggers (Some (unique_id (scenario r))) rest)).
    { destruct ev; cbn in Hr; try discriminate; injection Hr as ->; cbn; auto. }
    destruct Hend as [Hsk | [Hfire Htr]].
    { destruct ev; try discriminate. apply (Hskip last); cbn; auto.
      intros Hgt. apply Hinv, Hgt. }
    destruct (Z.leb_spec (_repeats p) 1) as [Hle|Hgt].
    { apply (Hskip last); [|auto | lia].
      rewrite Hfire. unfold on_scenario_end.
      destruct (Z.leb_spec (_repeats p) 1); [reflexivity | lia]. }
    destruct (Hinv Hgt) as (Hlast & sch & Hsch & Hrep).
    destruct (decide (last = Some (unique_id (scenario r)))) as [Heq|Hne].
    { apply (Hskip last); [|left; exact Htr | auto].
      rewrite Hfire. unfold on_scenario_end.
      destruct (Z.leb_spec (_repeats p) 1); [lia|].
      rewrite Hsch, Hrep, Hlast. rewrite decide_True by exact Heq. reflexivity. }
    set (p1 := {| _repeats := _repeats p; _repeats_delay := _repeats_delay p;
                  _global_config := _global_config p; _scheduler := _scheduler p;
                  _repeat_scenario_id := Some (unique_id (scenario r)) |}).
    destruct (IH p1 (Some (unique_id (scenario r))))
      as (p' & traces & Hrun & Hcalls); [|exact Hall|].
    { intros _. split; [reflexivity|]. exists sch. split; [exact Hsch | exact Hrep]. }
    exists p', (repeat_loop (Z.to_nat (_repeats p - 1)) (_repeats_delay p)
                            (scenario r) :: traces).
    split.
    + assert (Hfire1 : fire ev p
                       = Ok (p1, repeat_loop (Z.to_nat (_repeats p - 1))
                                   (_repeats_delay p) (scenario r))).
      { rewrite Hfire. unfold on_scenario_end, p1.
        destruct (Z.leb_spec (_repeats p) 1); [lia|].
        rewrite decide_False by (rewrite Hlast; exact Hne).
        destruct (_scheduler p) as [sch0|]; [|discriminate].
        injection Hsch as ->. rewrite Hrep. reflexivity. }
      cbn [run]. rewrite Hfire1. cbn [mbind result_bind]. rewrite Hrun.
      reflexivity.
    + rewrite schedule_calls_cons, repeat_loop_schedules, Hcalls, Htr.
      rewrite fmap_cons. reflexivity.
Qed.

(** X8. Across a run of completion events, under [repeats = N] (and, for
    [N > 1], with a repeater scheduler in place), the schedule calls are,
    in order, [N - 1] calls for each completion that gets past the
    same-id guard: each passed or failed completion whose unique id is
    not that of the passed or failed completion before it.  Their number
    is [N - 1] times the number of those completions. *)
Theorem schedule_calls_of_a_run (p : RepeaterPlugin) (evs : list Event) :
  (1 < _repeats p ->
   exists sch, _scheduler p = Some sch /\ is_repeater_scheduler sch = true) ->
  Forall (fun ev => is_Some (completed ev)) evs ->
  exists p' traces,
    run evs p = Ok (p', traces) /\
    schedule_calls traces
    = concat (repeats_of (_repeats p) <$> triggers (_repeat_scenario_id p) evs) /\
    length (schedule_calls traces)
    = (Z.to_nat (_repeats p - 1)
       * length (triggers (_repeat_scenario_id p) evs))%nat.
Proof.
  intros Hsch Hall.
  destruct (run_schedule_calls evs p (_repeat_scenario_id p))
    as (p' & traces & Hrun & Hcalls); [auto | exact Hall |].
  exists p', traces. split; [exact Hrun|]. split; [exact Hcalls|].
  rewrite Hcalls. generalize (triggers (_repeat_scenario_id p) evs).
  intros l. induction l as [|r l IH]; [cbn; lia|].
  rewrite fmap_cons. cbn [concat]. rewrite length_app, IH.
  unfold repeats_of. rewrite length_replicate. cbn [length]. lia.
Qed.

Lemma on_arg_parsed_stores (repeats : Z) (delay : float)
    (p p' : RepeaterPlugin) (calls : list Call) :
  on_arg_parsed repeats delay p = Ok (p', calls) ->
  _repeats p' = repeats /\ _repeats_delay p' = delay.
Proof.
  unfold on_arg_parsed. intros H.
  destruct (repeats <? 1); [discriminate|].
  destruct (SFltb delay zero); [discriminate|].
  destruct (SFltb zero delay && (repeats <=? 1)); [discriminate|].
  destruct (repeats <=? 1).
  - injection H as <- <-. split; reflexivity.
  - destruct (_global_config p); [|discriminate].
    injection H as <- <-. split; reflexivity.
Qed.

Section Cleanup.
Variable repr : float -> string.

(** X9. Once the arguments have been accepted, the cleanup adds one line
    to the summary when [repeats > 1], and none otherwise: the line is
    [repeated xN], with [ with delay <d>s] after it exactly when the delay
    is above zero.  The counts of the report are left alone. *)
Theorem cleanup_reports_repeats
    (repeats : Z) (delay : float) (p p' : RepeaterPlugin) (calls : list Call)
    (report : Report) :
  on_arg_parsed repeats delay p = Ok (p', calls) ->
  let line := "repeated x" +:+ pretty repeats in
  summary (on_cleanup repr report p')
  = summary report
      ++ (if 1 <? repeats
          then if SFltb zero delay
               then [line +:+ " with delay " +:+ repr delay +:+ "s"]
               else [line]
          else []) /\
  passed (on_cleanup repr report p') = passed report /\
  failed (on_cleanup repr report p') = failed report /\
  skipped (on_cleanup repr report p') = skipped report.
Proof.
  intros Hok line.
  destruct (on_arg_parsed_stores repeats delay p p' calls Hok) as [Hr Hd].
  unfold on_cleanup. rewrite Hr, Hd. fold line.
  destruct (1 <? repeats); [|rewrite app_nil_r; auto].
  destruct (SFltb zero delay); cbn; auto.
Qed.

End Cleanup.

(** *** The statements above at concrete runs *)

Lemma schedule_calls_of_a_run_witness :
  exists p' traces,
    run [ScenarioPassedEvent (passed_result "a");
         ScenarioFailedEvent (passed_result "a");
         ScenarioSkippedEvent (passed_result "b");
         ScenarioPassedEvent (passed_result "b");
         ScenarioPassedEvent (passed_result "a")]
        (ready 3 zero None) = Ok (p', traces) /\
    length (schedule_calls traces) = 6%nat.
Proof.
  destruct (schedule_calls_of_a_run (ready 3 zero None)
              [ScenarioPassedEvent (passed_result "a");
               ScenarioFailedEvent (passed_result "a");
               ScenarioSkippedEvent (passed_result "b");
               ScenarioPassedEvent (passed_result "b");
               ScenarioPassedEvent (passed_result "a")])
    as (p' & traces & Hrun & _ & Hlen).
  - intros _. exists repeater_scheduler. split; reflexivity.
  - repeat constructor; eexists; reflexivity.
  - exists p', traces. split; [exact Hrun | exact Hlen].
Defined.

Lemma cleanup_reports_repeats_witness :
  summary (on_cleanup (fun _ => "0.1")
             {| passed := 2; failed := 0; skipped := 0; summary := [] |}
             (ready 3 float_0_1 None))
  = ["repeated x3 with delay 0.1s"].
Proof.
  apply (proj1 (cleanup_reports_repeats (fun _ => "0.1") 3 float_0_1
                  (ready 1 zero None) (ready 3 float_0_1 None)
                  [RegisterScheduler]
                  {| passed := 2; failed := 0; skipped := 0; summary := [] |}
                  eq_refl)).
Defined.

End RepeaterLifecycle.

(** * Paths and selection *)

Module PathFacts.

Lemma append_assoc (a b c : string) : (a +:+ b) +:+ c = a +:+ (b +:+ c).
Proof.
  induction a as [|x a IH]; [reflexivity|].
  change (String x ((a +:+ b) +:+ c) = String x (a +:+ (b +:+ c))).
  f_equal. exact IH.
Qed.

Lemma append_String (c : Ascii.ascii) (a b : string) :
  String c a +:+ b = String c (a +:+ b).
Proof. reflexivity. Qed.

Lemma append_empty (b : string) : "" +:+ b = b.
Proof. reflexivity. Qed.

Lemma append_nil_r (a : string) : a +:+ "" = a.
Proof.
  induction a as [|x a IH]; [reflexivity|].
  change (String x (a +:+ "") = String x a). f_equal. exact IH.
Qed.

Lemma join_fold (sep : string) (l : list string) :
  forall x y,
    fold_left (fun acc z => acc +:+ sep +:+ z) l (x +:+ y)
    = x +:+ fold_left (fun acc z => acc +:+ sep +:+ z) l y.
Proof.
  induction l as [|z l IH]; intros x y; [reflexivity|].
  cbn [fold_left]. rewrite append_assoc. apply IH.
Qed.

Lemma join_with_cons (sep a b : string) (l : list string) :
  join_with sep (a :: b :: l) = a +:+ sep +:+ join_with sep (b :: l).
Proof.
  unfold join_with. cbn [fold_left]. rewrite join_fold.
  f_equal. rewrite join_fold. reflexivity.
Qed.

Lemma join_with_String (sep : string) (c : Ascii.ascii) (a : string)
    (l : list string) :
  join_with sep (String c a :: l) = String c (join_with sep (a :: l)).
Proof.
  unfold join_with. change (String c a) with (String c "" +:+ a).
  rewrite join_fold. reflexivity.
Qed.

Lemma split_on_nonempty (sep : Ascii.ascii) (s : string) : split_on sep s <> [].
Proof.
  destruct s as [|c rest]; cbn; [discriminate|].
  destruct (Ascii.eqb c sep); [discriminate|].
  destruct (split_on sep rest); discriminate.
Qed.

Lemma split_on_free (sep : Ascii.ascii) (a : string) :
  occurs sep a = false -> split_on sep a = [a].
Proof.
  induction a as [|c a IH]; [reflexivity|]. cbn.
  intros H. apply orb_false_iff in H as [Hc Ha]. rewrite Hc, (IH Ha). reflexivity.
Qed.

Lemma split_on_app (sep : Ascii.ascii) (a s : string) :
  occurs sep a = false ->
  split_on sep (a +:+ String sep s) = a :: split_on sep s.
Proof.
  induction a as [|c a IH]; rewrite ?append_empty, ?append_String;
    cbn [split_on occurs].
  - intros _. rewrite Ascii.eqb_refl. reflexivity.
  - intros H. apply orb_false_iff in H as [Hc Ha]. rewrite Hc, (IH Ha). reflexivity.
Qed.

Lemma split_on_parts_free (sep : Ascii.ascii) (s : string) :
  Forall (fun x => occurs sep x = false) (split_on sep s).
Proof.
  induction s as [|c rest IH]; cbn.
  - repeat constructor.
  - destruct (Ascii.eqb c sep) eqn:Hc; [constructor; [reflexivity | exact IH]|].
    destruct (split_on sep rest) as [|part parts].
    + repeat constructor. cbn. by rewrite Hc.
    + apply Forall_cons in IH as [Hp Hps]. constructor; [|exact Hps].
      cbn. by rewrite Hc, Hp.
Qed.

(** Splitting what was joined gives the parts back, and joining what was
    split gives the string back. *)
Lemma split_join (sep : Ascii.ascii) (parts : list string) :
  parts <> [] ->
  Forall (fun x => occurs sep x = false) parts ->
  split_on sep (join_with (String sep "") parts) = parts.
Proof.
  induction parts as [|a [|b l] IH]; intros Hne Hfree; [done| |].
  - apply Forall_cons in Hfree as [Ha _]. cbn. by apply split_on_free.
  - apply Forall_cons in Hfree as [Ha Hrest]. rewrite join_with_cons.
    rewrite append_String, append_empty. rewrite split_on_app by exact Ha.
    rewrite IH; [reflexivity | discriminate | exact Hrest].
Qed.

Lemma join_split (sep : Ascii.ascii) (s : string) :
  join_with (String sep "") (split_on sep s) = s.
Proof.
  induction s as [|c rest IH]; [reflexivity|]. cbn [split_on].
  destruct (Ascii.eqb_spec c sep) as [->|Hne].
  - pose proof (split_on_nonempty sep rest) as Hn.
    destruct (split_on sep rest) as [|b l]; [done|].
    rewrite join_with_cons, IH. reflexivity.
  - pose proof (split_on_nonempty sep rest) as Hn.
    destruct (split_on sep rest) as [|part parts]; [done|].
    rewrite join_with_String, IH. reflexivity.
Qed.

Import Skipper.

Lemma path_parts_slash (s : string) : path_parts ("/" +:+ s) = path_parts s.
Proof.
  unfold path_parts. change ("/" +:+ s) with (String slash s).
  cbn [split_on]. rewrite Ascii.eqb_refl. reflexivity.
Qed.

Lemma path_parts_component (p : string) : Forall component (path_parts p).
Proof.
  unfold path_parts. pose proof (split_on_parts_free slash p) as Hfree.
  induction (split_on slash p) as [|x l IH]; [constructor|].
  apply Forall_cons in Hfree as [Hx Hl]. cbn [List.filter].
  destruct (String.eqb_spec x ""), (String.eqb_spec x "."); cbn [negb andb];
    auto. constructor; [|auto]. repeat split; assumption.
Qed.

Lemma filter_components (l : list string) :
  Forall component l ->
  List.filter (fun c => negb (String.eqb c "") && negb (String.eqb c ".")) l = l.
Proof.
  induction l as [|x l IH]; intros H; [reflexivity|].
  apply Forall_cons in H as [(_ & Hx1 & Hx2) Hl]. cbn [List.filter].
  destruct (String.eqb_spec x ""), (String.eqb_spec x "."); try done.
  cbn [negb andb]. by rewrite IH.
Qed.

Lemma path_parts_join (c : list string) :
  Forall component c -> path_parts (join_with "/" c) = c.
Proof.
  intros Hc. destruct c as [|a l]; [reflexivity|].
  unfold path_parts. change "/" with (String slash "").
  rewrite split_join; [by apply filter_components | discriminate |].
  eapply Forall_impl; [exact Hc|]. intros x (Hx & _). exact Hx.
Qed.

Lemma common_prefix_Forall (P : string -> Prop) (a : list string) :
  forall b, Forall P a -> Forall P (common_prefix a b).
Proof.
  induction a as [|x a IH]; intros b Ha; [constructor|].
  apply Forall_cons in Ha as [Hx Ha]. destruct b as [|y b]; [constructor|].
  cbn [common_prefix]. destruct (String.eqb x y); constructor; auto.
Qed.

Lemma common_prefix_self (a : list string) :
  forall b, common_prefix a b = a <-> a `prefix_of` b.
Proof.
  induction a as [|x a IH]; intros b.
  - split; [intros _; apply prefix_nil | reflexivity].
  - destruct b as [|y b].
    + split; [discriminate|]. intros H. by apply prefix_nil_not in H.
    + cbn [common_prefix]. destruct (String.eqb_spec x y) as [->|Hne].
      * split.
        -- intros [= H]. apply prefix_cons, IH, H.
        -- intros H. f_equal. apply IH. eapply prefix_cons_inv_2, H.
      * split; [discriminate|]. intros H. apply prefix_cons_inv_1 in H. done.
Qed.

(** When does [os.path.commonpath] answer the first of its two paths. *)
Lemma commonpath_self (fp p : string) :
  (if isabs fp then "/" else "")
    +:+ join_with "/" (common_prefix (path_parts fp) (path_parts p)) = fp
  <-> canonical fp /\ path_parts fp `prefix_of` path_parts p.
Proof.
  unfold canonical. split.
  - intros H.
    assert (Hparts : path_parts fp
                     = common_prefix (path_parts fp) (path_parts p)).
    { assert (Hc : Forall component
                     (common_prefix (path_parts fp) (path_parts p)))
        by apply common_prefix_Forall, path_parts_component.
      rewrite <- H at 1. destruct (isabs fp).
      - rewrite path_parts_slash. by apply path_parts_join.
      - rewrite append_empty. by apply path_parts_join. }
    split.
    + rewrite Hparts. symmetry. exact H.
    + apply common_prefix_self. symmetry. exact Hparts.
  - intros [Hcanon Hpre]. apply common_prefix_self in Hpre.
    rewrite Hpre. symmetry. exact Hcanon.
Qed.

Lemma _is_match_scenario_spec (cp : _CompositePath) (scn : VirtualScenario) :
  match _is_match_scenario cp scn with
  | Raise e =>
      isabs (file_path cp) <> isabs (path scn) /\
      e = ValueError "Can't mix absolute and relative paths"
  | Ok b => isabs (file_path cp) = isabs (path scn) /\ (b = true <-> matches cp scn)
  end.
Proof.
  unfold matches, _is_match_scenario, commonpath.
  destruct (Bool.eqb (isabs (file_path cp)) (isabs (path scn))) eqn:Hab;
    cbn [mbind result_bind].
  2: { split; [by apply Bool.eqb_false_iff | reflexivity]. }
  apply Bool.eqb_prop in Hab.
  pose proof (commonpath_self (file_path cp) (path scn)) as Hself.
  destruct (String.eqb_spec
              ((if isabs (file_path cp) then "/" else "")
                 +:+ join_with "/" (common_prefix (path_parts (file_path cp))
                                                  (path_parts (path scn))))
              (file_path cp)) as [Heq|Hne]; cbn [negb].
  2: { split; [exact Hab|]. split; [discriminate|].
       intros (Hc & Hp & _). exfalso. apply Hne, Hself. auto. }
  apply Hself in Heq as [Hc Hp].
  destruct (cls_name cp) as [cls|] eqn:Hcls.
  - destruct (String.eqb_spec cls (name scn)) as [Hn|Hn]; cbn [negb].
    + destruct (tmpl_idx cp) as [idx|] eqn:Hidx.
      * destruct (bool_decide_reflect (Some idx = template_index scn)) as [Hi|Hi];
          cbn [negb]; (split; [exact Hab|]).
        -- split; [|reflexivity]. intros _. repeat split; try assumption.
           ++ intros c [= <-]. by symmetry.
           ++ intros i [= <-]. by symmetry.
        -- split; [discriminate|]. intros (_ & _ & _ & H). exfalso.
           apply Hi. symmetry. by apply H.
      * split; [exact Hab|]. split; [|reflexivity]. intros _.
        repeat split; try assumption; [|discriminate].
        intros c [= <-]. by symmetry.
    + split; [exact Hab|]. split; [discriminate|].
      intros (_ & _ & H & _). exfalso. apply Hn. symmetry. by apply H.
  - destruct (tmpl_idx cp) as [idx|] eqn:Hidx.
    + destruct (bool_decide_reflect (Some idx = template_index scn)) as [Hi|Hi];
        cbn [negb]; (split; [exact Hab|]).
      * split; [|reflexivity]. intros _. repeat split; try assumption;
          [discriminate|]. intros i [= <-]. by symmetry.
      * split; [discriminate|]. intros (_ & _ & _ & H). exfalso.
        apply Hi. symmetry. by apply H.
    + split; [exact Hab|]. split; [|reflexivity]. intros _.
      repeat split; try assumption; discriminate.
Qed.

(** X10. Matching a scenario against a selected path: the two paths must
    be both absolute or both relative, or [os.path.commonpath] raises its
    [ValueError].  Otherwise the scenario matches exactly when the selected
    path is in canonical form (components joined by single separators,
    nothing at the end), its components are the first components of the
    path of the scenario (whole components, not characters), and the
    class name and the template index, where given, are those of the
    scenario. *)
Theorem match_is_prefix_of_components (cp : _CompositePath) (scn : VirtualScenario) :
  match _is_match_scenario cp scn with
  | Raise e =>
      isabs (file_path cp) <> isabs (path scn) /\
      e = ValueError "Can't mix absolute and relative paths"
  | Ok b =>
      isabs (file_path cp) = isabs (path scn) /\
      (b = true <->
         canonical (file_path cp) /\
         path_parts (file_path cp) `prefix_of` path_parts (path scn) /\
         (forall cls, cls_name cp = Some cls -> name scn = cls) /\
         (forall idx, tmpl_idx cp = Some idx -> template_index scn = Some idx))
  end.
Proof. exact (_is_match_scenario_spec cp scn). Qed.

Lemma _matches_any_spec (paths : list _CompositePath) (scn : VirtualScenario) :
  Forall (fun cp => isabs (file_path cp) = isabs (path scn)) paths ->
  exists b, _matches_any paths scn = Ok b /\
            (b = true <-> Exists (fun cp => matches cp scn) paths).
Proof.
  induction paths as [|cp rest IH]; intros Hall.
  - exists false. split; [reflexivity|]. split; [discriminate|].
    intros H. inversion H.
  - apply Forall_cons in Hall as [Hcp Hall]. cbn [_matches_any].
    pose proof (_is_match_scenario_spec cp scn) as Hm.
    destruct (_is_match_scenario cp scn) as [[]|e]; cbn [mbind result_bind].
    + exists true. split; [reflexivity|]. split; [|reflexivity].
      intros _. apply Exists_cons_hd, Hm. reflexivity.
    + destruct (IH Hall) as (b & Hb & Hiff). exists b. split; [exact Hb|].
      rewrite Hiff. split; [apply Exists_cons_tl|].
      intros H. apply Exists_cons in H as [H|H]; [|exact H].
      apply Hm in H. discriminate.
    + destruct Hm as [Hne _]. contradiction.
Qed.

(** X11. As long as every selected and deselected path is of the kind of
    the scenario's path (both absolute or both relative), the check never
    raises, and a scenario is kept (not ignored) exactly when the subject
    filter lets it through, some selected path matches it and no
    deselected path does: a deselection wins over a selection, and
    without any selected path everything is ignored. *)
Theorem kept_iff_selected_and_not_deselected
    (sk : SkipperPlugin) (scn : VirtualScenario) :
  Forall (fun cp => isabs (file_path cp) = isabs (path scn))
         (_selected sk ++ _deselected sk) ->
  exists ignored,
    _is_scenario_ignored sk scn = Ok ignored /\
    (ignored = false <->
       subject_passes sk scn /\
       Exists (fun cp => matches cp scn) (_selected sk) /\
       Forall (fun cp => ~ matches cp scn) (_deselected sk)).
Proof.
  intros Hall. apply Forall_app in Hall as [Hsel Hdes].
  destruct (_matches_any_spec (_selected sk) scn Hsel) as (bs & Hbs & Hs).
  destruct (_matches_any_spec (_deselected sk) scn Hdes) as (bd & Hbd & Hd).
  unfold _is_scenario_ignored, _is_scenario_selected, _is_scenario_deselected,
    subject_passes.
  assert (Hsubj :
    (match _subject sk with
     | Some subj => negb (String.eqb subj "") && negb (String.eqb (subject scn) subj)
     | None => false
     end = false)
    <-> match _subject sk with
        | Some subj => subj = "" \/ subject scn = subj
        | None => True
        end).
  { destruct (_subject sk) as [subj|]; [|done].
    destruct (String.eqb_spec subj ""), (String.eqb_spec (subject scn) subj);
      cbn; intuition congruence. }
  destruct (match _subject sk with
            | Some subj => negb (String.eqb subj "")
                           && negb (String.eqb (subject scn) subj)
            | None => false
            end).
  { exists true. split; [reflexivity|]. split; [discriminate|].
    intros (H & _). apply Hsubj in H. discriminate. }
  rewrite Hbs. cbn [mbind result_bind].
  destruct bs; cbn [negb].
  - rewrite Hbd. cbn [mbind result_bind]. destruct bd.
    + exists true. split; [reflexivity|]. split; [discriminate|].
      intros (_ & _ & H). exfalso.
      apply (proj1 (Forall_Exists_neg _ _) H). by apply Hd.
    + exists false. split; [reflexivity|]. split; [|reflexivity].
      intros _. split; [by apply Hsubj|]. split; [by apply Hs|].
      apply Forall_Exists_neg. intros H. apply Hd in H. discriminate.
  - exists true. split; [reflexivity|]. split; [discriminate|].
    intros (_ & H & _). apply Hs in H. discriminate.
Qed.

Lemma kept_iff_selected_and_not_deselected_witness :
  exists ignored,
    _is_scenario_ignored (select_all ["/scenarios/old"] false) scenario_c
    = Ok ignored /\
    (ignored = false <->
       subject_passes (select_all ["/scenarios/old"] false) scenario_c /\
       Exists (fun cp => matches cp scenario_c)
              (_selected (select_all ["/scenarios/old"] false)) /\
       Forall (fun cp => ~ matches cp scenario_c)
              (_deselected (select_all ["/scenarios/old"] false))).
Proof.
  apply kept_iff_selected_and_not_deselected.
  cbn. repeat constructor.
Defined.

End PathFacts.

(** * The startup of the skipper *)

Module SkipperStartup.
Import Skipper SkipperFacts.

Lemma iterate_app (body : VirtualScenario -> PassState -> result PassState)
    (l1 l2 : list VirtualScenario) :
  forall st,
    iterate body (l1 ++ l2) st = st' ← iterate body l1 st; iterate body l2 st'.
Proof.
  induction l1 as [|scn l1 IH]; intros st; [reflexivity|].
  cbn [app iterate]. destruct (is_pending scn (fst (fst st))); [|apply IH].
  destruct (body scn st) as [st'|e]; cbn [mbind result_bind]; [apply IH | reflexivity].
Qed.

Lemma filter_first {A} (f : A -> bool) (l : list A) (e : A) (rest : list A) :
  List.filter f l = e :: rest ->
  exists pre post, l = pre ++ e :: post /\ List.filter f pre = [] /\ f e = true.
Proof.
  induction l as [|x l IH]; [discriminate|]. cbn [List.filter].
  destruct (f x) eqn:Hx.
  - intros [= -> _]. exists [], l. auto.
  - intros H. destruct (IH H) as (pre & post & -> & Hpre & He).
    exists (x :: pre), post. cbn [List.filter]. rewrite Hx. auto.
Qed.

Section FirstPass.
Variable sk : SkipperPlugin.
Variable deemed : VirtualScenario -> bool.

Lemma first_pass_body_allowed (scn : VirtualScenario) (sch : ScenarioScheduler)
    (special : gset string) (calls : list Call) :
  (deemed scn = false -> _is_scenario_special scn = true -> _forbid_only sk = false) ->
  _is_scenario_ignored sk scn = Ok (deemed scn) ->
  first_pass_body sk scn (sch, special, calls)
  = Ok (if first_cond deemed scn then ignore scn sch else sch,
        first_upd deemed scn special, calls ++ first_out deemed scn).
Proof.
  intros Hallowed Hign. unfold first_pass_body, first_cond, first_upd, first_out.
  rewrite Hign. cbn [mbind result_bind].
  destruct (deemed scn); cbn [negb andb]; [reflexivity|].
  destruct (_is_scenario_special scn).
  - rewrite Hallowed by reflexivity.
    destruct (_is_scenario_skipped scn); rewrite ?app_nil_r; reflexivity.
  - destruct (_is_scenario_skipped scn); rewrite ?app_nil_r; reflexivity.
Qed.

Lemma first_pass_body_forbidden (scn : VirtualScenario) (st : PassState) :
  _forbid_only sk = true ->
  deemed scn = false -> _is_scenario_special scn = true ->
  _is_scenario_ignored sk scn = Ok (deemed scn) ->
  first_pass_body sk scn st = Raise (ValueError (forbid_only_message scn)).
Proof.
  intros Hforbid Hd Hs Hign. destruct st as [[sch special] calls].
  unfold first_pass_body. rewrite Hign, Hd, Hs, Hforbid. reflexivity.
Qed.

(** The first pass over [queue], a part of the work-list in which no
    scenario makes the handler raise. *)
Lemma first_pass_over (queue : list VirtualScenario) (sch : ScenarioScheduler)
    (special : gset string) (calls : list Call) :
  NoDup (unique_id <$> queue) ->
  (forall scn, In scn queue -> is_pending scn sch = true) ->
  (forall scn, In scn queue -> _is_scenario_ignored sk scn = Ok (deemed scn)) ->
  (forall scn, In scn queue -> deemed scn = false ->
     _is_scenario_special scn = true -> _forbid_only sk = false) ->
  iterate (first_pass_body sk) queue (sch, special, calls)
  = Ok (fold_left (fun s x => ignore x s) (List.filter deemed queue) sch,
        list_to_set
          (unique_id <$> List.filter _is_scenario_special
                           (List.filter (fun scn => negb (deemed scn)) queue))
          ∪ special,
        calls ++ concat (first_out deemed <$> queue)).
Proof.
  intros Hnd Hpend Hdeemed Hallowed.
  rewrite (iterate_spec (first_pass_body sk) (first_cond deemed)
             (first_upd deemed) (first_out deemed) (fun _ => True)).
  - rewrite first_upd_fold. reflexivity.
  - auto.
  - exact Hnd.
  - exact Hpend.
  - exact I.
  - intros scn sch0 sp calls0 Hin _. apply first_pass_body_allowed.
    + apply Hallowed, Hin.
    + apply Hdeemed, Hin.
Qed.

Lemma first_out_skipped (l : list VirtualScenario) :
  skipped_by (concat (first_out deemed <$> l))
  = (fun scn => (scn, _get_skip_reason scn))
      <$> List.filter _is_scenario_skipped
            (List.filter (fun scn => negb (deemed scn)) l).
Proof.
  induction l as [|a l IH]; [reflexivity|]. cbn [fmap list_fmap concat].
  unfold skipped_by in *. rewrite omap_app, IH. cbn [List.filter].
  unfold first_out. destruct (deemed a); cbn [negb]; [reflexivity|].
  cbn [List.filter]. destruct (_is_scenario_skipped a); reflexivity.
Qed.

Lemma filter_filter_and {A} (f g : A -> bool) (l : list A) :
  List.filter g (List.filter f l) = List.filter (fun x => f x && g x) l.
Proof.
  induction l as [|x l IH]; [reflexivity|]. cbn [List.filter].
  destruct (f x); cbn [andb List.filter]; [|exact IH].
  destruct (g x); by rewrite IH.
Qed.

Lemma is_pending_ignore_all (l : list VirtualScenario) (e : VirtualScenario) :
  forall sch,
    (forall y, In y l -> same_scenario y e = false) ->
    is_pending e (fold_left (fun s x => ignore x s) l sch) = is_pending e sch.
Proof.
  induction l as [|a l IH]; intros sch Hl; [reflexivity|]. cbn [fold_left].
  rewrite IH by (intros y Hy; apply Hl; by right).
  apply is_pending_ignore, Hl. by left.
Qed.

(** The handler, when no scenario of the work-list makes it raise. *)
Lemma on_startup_allowed (sch : ScenarioScheduler) :
  NoDup (unique_id <$> scheduled sch) ->
  (forall scn, In scn (scheduled sch) ->
     _is_scenario_ignored sk scn = Ok (deemed scn)) ->
  (forall scn, In scn (scheduled sch) -> deemed scn = false ->
     _is_scenario_special scn = true -> _forbid_only sk = false) ->
  let kept := List.filter (fun scn => negb (deemed scn)) (scheduled sch) in
  let exclusive := List.filter _is_scenario_special kept in
  let special : gset string := list_to_set (unique_id <$> exclusive) in
  let calls1 := concat (first_out deemed <$> scheduled sch) in
  exists sch' calls2,
    on_startup sk sch = Ok (sch', Iterate :: calls1 ++ calls2) /\
    calls2 = match exclusive with
             | [] => []
             | _ :: _ => Iterate :: (Ignore <$> List.filter (second_cond special) kept)
             end /\
    scheduled sch' = match exclusive with [] => kept | _ :: _ => exclusive end.
Proof.
  intros Hnd Hdeemed Hallowed kept exclusive special calls1.
  set (sch1 := fold_left (fun s x => ignore x s)
                 (List.filter deemed (scheduled sch)) sch).
  assert (Hfirst : async_for (first_pass_body sk) (sch, ∅, [])
                   = Ok (sch1, special, Iterate :: calls1)).
  { unfold async_for. rewrite first_pass_over; auto.
    - fold kept exclusive special. rewrite (right_id_L ∅ (∪)). reflexivity.
    - intros scn Hin. by apply self_pending. }
  assert (Hkept : scheduled sch1 = kept).
  { unfold sch1. rewrite ignore_all_scheduled. apply filter_ext_in'.
    intros x Hx. by rewrite existsb_same_filter. }
  assert (Hndk : NoDup (unique_id <$> kept)) by (by apply NoDup_filter_ids).
  unfold on_startup. rewrite Hfirst. cbn [mbind result_bind].
  destruct exclusive as [|e0 es] eqn:Hex.
  - exists sch1, []. rewrite bool_decide_true by reflexivity.
    rewrite app_nil_r. auto.
  - assert (Hne : special <> ∅).
    { subst special. rewrite fmap_cons. cbn [list_to_set]. set_solver. }
    rewrite bool_decide_false by exact Hne.
    set (sch2 := fold_left (fun s x => ignore x s)
                   (List.filter (second_cond special) kept) sch1).
    assert (Hsecond : async_for second_pass_body
                        (sch1, special, Iterate :: calls1)
                      = Ok (sch2, special,
                            (Iterate :: calls1)
                              ++ Iterate
                                   :: (Ignore <$> List.filter (second_cond special) kept))).
    { unfold async_for. rewrite Hkept.
      rewrite (iterate_spec second_pass_body (second_cond special)
                 (fun _ sp => sp) (second_out special) (fun sp => sp = special)).
      - rewrite second_out_calls, fold_left_keeps, <- app_assoc. reflexivity.
      - auto.
      - exact Hndk.
      - intros scn Hin. unfold is_pending. rewrite Hkept. by apply self_pending.
      - reflexivity.
      - intros scn sch0 sp calls Hin ->. apply second_pass_body_eq. }
    rewrite Hsecond. cbn [mbind result_bind].
    exists sch2, (Iterate :: (Ignore <$> List.filter (second_cond special) kept)).
    split; [reflexivity|]. split; [reflexivity|].
    unfold sch2. rewrite ignore_all_scheduled, Hkept.
    rewrite (filter_ext_in' _
               (fun scn => bool_decide (unique_id scn ∈ special)) kept).
    + subst special. rewrite <- Hex. subst exclusive. by apply filter_by_ids.
    + intros x Hx. rewrite existsb_same_filter by assumption.
      unfold second_cond. by rewrite negb_involutive.
Qed.

(** The handler, when a scenario that is not ignored is marked exclusive
    and the option forbids it. *)
Lemma on_startup_forbidden (sch : ScenarioScheduler)
    (e : VirtualScenario) (rest : list VirtualScenario) :
  _forbid_only sk = true ->
  NoDup (unique_id <$> scheduled sch) ->
  (forall scn, In scn (scheduled sch) ->
     _is_scenario_ignored sk scn = Ok (deemed scn)) ->
  List.filter _is_scenario_special
    (List.filter (fun scn => negb (deemed scn)) (scheduled sch)) = e :: rest ->
  on_startup sk sch = Raise (ValueError (forbid_only_message e)).
Proof.
  intros Hforbid Hnd Hdeemed Hex.
  rewrite filter_filter_and in Hex.
  apply filter_first in Hex as (pre & post & Hl & Hpre & He).
  apply andb_true_iff in He as [Hd Hsp]. apply negb_true_iff in Hd.
  rewrite Hl, fmap_app, fmap_cons in Hnd.
  apply NoDup_app in Hnd as (Hndpre & Hfresh & _).
  unfold on_startup, async_for. rewrite Hl at 1. rewrite iterate_app.
  rewrite first_pass_over.
  - cbn [mbind result_bind iterate fst].
    rewrite is_pending_ignore_all.
    + unfold is_pending. rewrite self_pending
        by (rewrite Hl; apply in_or_app; right; by left).
      rewrite first_pass_body_forbidden; auto.
      apply Hdeemed. rewrite Hl. apply in_or_app. right. by left.
    + intros y Hy. apply filter_In in Hy as [Hy _].
      destruct (same_scenario y e) eqn:Hsame; [|reflexivity].
      exfalso. apply same_scenario_true in Hsame.
      apply (Hfresh (unique_id y)).
      * apply list_elem_of_fmap. exists y. split; [reflexivity|].
        by apply list_elem_of_In.
      * rewrite Hsame. apply list_elem_of_here.
  - exact Hndpre.
  - intros scn Hin. apply self_pending. rewrite Hl. apply in_or_app. by left.
  - intros scn Hin. apply Hdeemed. rewrite Hl. apply in_or_app. by left.
  - intros scn Hin Hd' Hsp'. exfalso.
    assert (Hk : In scn (List.filter
                           (fun x => negb (deemed x) && _is_scenario_special x)
                           pre)).
    { apply filter_In. split; [exact Hin|]. by rewrite Hd', Hsp'. }
    rewrite Hpre in Hk. destruct Hk.
Qed.

(** C8 (amended). With pairwise different unique ids in the work-list and
    [forbid_only] off, the startup handler makes a first pass in which it
    calls [ignore] on exactly the scenarios it deems ignored, in order,
    and collects the unique ids of the remaining scenarios that are marked
    exclusive.  It makes a second pass if and only if it collected one;
    that pass runs over what the first left pending and calls [ignore] on
    every scenario whose unique id was not collected, so that exactly the
    exclusive scenarios remain pending.  With [forbid_only] on, the first
    scenario of the work-list that is not ignored and is marked exclusive
    makes the handler raise the configuration error that names it. *)
Theorem two_pass_selection (sch : ScenarioScheduler) :
  NoDup (unique_id <$> scheduled sch) ->
  (forall scn, In scn (scheduled sch) ->
     _is_scenario_ignored sk scn = Ok (deemed scn)) ->
  let kept := List.filter (fun scn => negb (deemed scn)) (scheduled sch) in
  let exclusive := List.filter _is_scenario_special kept in
  let special : gset string := list_to_set (unique_id <$> exclusive) in
  (_forbid_only sk = false ->
   exists sch' calls1 calls2,
     on_startup sk sch = Ok (sch', Iterate :: calls1 ++ calls2) /\
     passes calls1 = 0%nat /\
     ignored_by calls1 = List.filter deemed (scheduled sch) /\
     (exclusive = [] -> calls2 = [] /\ scheduled sch' = kept) /\
     (exclusive <> [] ->
        calls2 = Iterate :: (Ignore <$> List.filter (second_cond special) kept) /\
        scheduled sch' = exclusive)) /\
  (_forbid_only sk = true ->
   forall e rest,
     exclusive = e :: rest ->
     on_startup sk sch = Raise (ValueError (forbid_only_message e))).
Proof.
  intros Hnd Hdeemed kept exclusive special. split.
  - intros Hforbid.
    destruct (on_startup_allowed sch Hnd Hdeemed)
      as (sch' & calls2 & Hrun & Hc2 & Hs); [auto|].
    fold kept exclusive special in Hc2, Hs.
    exists sch', (concat (first_out deemed <$> scheduled sch)), calls2.
    split; [exact Hrun|].
    split; [apply first_out_passes|]. split; [apply first_out_ignored|].
    destruct exclusive as [|e0 es]; split; intros Hcase; try done;
      split; assumption.
  - intros Hforbid e rest Hex.
    apply (on_startup_forbidden sch e rest Hforbid Hnd Hdeemed Hex).
Qed.

(** X12. With [forbid_only] on and pairwise different unique ids in the
    work-list: when some scenario that is not ignored is marked exclusive,
    the startup raises the [ValueError] that names the first of them in
    the order of the work-list, and makes no second pass; when none is,
    the option changes nothing: one pass, after which the scenarios not
    ignored are pending. *)
Theorem forbid_only_names_first_exclusive (sch : ScenarioScheduler) :
  _forbid_only sk = true ->
  NoDup (unique_id <$> scheduled sch) ->
  (forall scn, In scn (scheduled sch) ->
     _is_scenario_ignored sk scn = Ok (deemed scn)) ->
  let kept := List.filter (fun scn => negb (deemed scn)) (scheduled sch) in
  match List.filter _is_scenario_special kept with
  | e :: _ => on_startup sk sch = Raise (ValueError (forbid_only_message e))
  | [] => exists sch' calls,
            on_startup sk sch = Ok (sch', calls) /\
            scheduled sch' = kept /\ passes calls = 1%nat
  end.
Proof.
  intros Hforbid Hnd Hdeemed kept.
  destruct (List.filter _is_scenario_special kept) as [|e rest] eqn:Hex.
  - destruct (on_startup_allowed sch Hnd Hdeemed)
      as (sch' & calls2 & Hrun & Hc2 & Hs).
    { intros scn Hin Hd Hsp. exfalso.
      assert (Hk : In scn (List.filter _is_scenario_special kept)).
      { apply filter_In. split; [|exact Hsp]. apply filter_In. by rewrite Hd. }
      rewrite Hex in Hk. destruct Hk. }
    fold kept in Hc2, Hs. rewrite Hex in Hc2, Hs. subst calls2.
    exists sch', (Iterate :: concat (first_out deemed <$> scheduled sch) ++ []).
    split; [exact Hrun|]. split; [exact Hs|].
    rewrite app_nil_r. unfold passes. cbn [List.filter length].
    f_equal. apply (first_out_passes deemed).
  - apply (on_startup_forbidden sch e rest Hforbid Hnd Hdeemed Hex).
Qed.

Lemma ignores_skip_nothing (l : list VirtualScenario) :
  skipped_by (Iterate :: (Ignore <$> l)) = [].
Proof.
  unfold skipped_by. cbn [omap list_omap].
  induction l as [|x l IH]; [reflexivity | exact IH].
Qed.

(** X13. With [forbid_only] off and pairwise different unique ids in the
    work-list, the startup marks skipped exactly the scenarios it does not
    deem ignored and that carry the skipped attribute: each once, in the
    order of the work-list, with its skip reason.  Whether a scenario is
    exclusive, and whether a second pass then ignores it, plays no part. *)
Theorem skipped_scenarios_are_marked (sch : ScenarioScheduler) :
  _forbid_only sk = false ->
  NoDup (unique_id <$> scheduled sch) ->
  (forall scn, In scn (scheduled sch) ->
     _is_scenario_ignored sk scn = Ok (deemed scn)) ->
  exists sch' calls,
    on_startup sk sch = Ok (sch', calls) /\
    skipped_by calls
    = (fun scn => (scn, _get_skip_reason scn))
        <$> List.filter _is_scenario_skipped
              (List.filter (fun scn => negb (deemed scn)) (scheduled sch)).
Proof.
  intros Hforbid Hnd Hdeemed.
  destruct (on_startup_allowed sch Hnd Hdeemed)
    as (sch' & calls2 & Hrun & Hc2 & _); [auto|].
  exists sch', (Iterate :: concat (first_out deemed <$> scheduled sch) ++ calls2).
  split; [exact Hrun|].
  unfold skipped_by. cbn [omap list_omap]. rewrite omap_app.
  fold (skipped_by (concat (first_out deemed <$> scheduled sch))).
  rewrite first_out_skipped.
  assert (Hnone : omap (fun c => match c with
                                 | Skip scn reason => Some (scn, reason)
                                 | _ => None
                                 end) calls2 = []).
  { rewrite Hc2.
    destruct (List.filter _is_scenario_special
                (List.filter (fun scn => negb (deemed scn)) (scheduled sch)));
      [reflexivity|].
    apply (ignores_skip_nothing
             (List.filter (second_cond _) _)). }
  rewrite Hnone, app_nil_r. reflexivity.
Qed.

End FirstPass.

(** *** The statements above at concrete work-lists *)

Lemma two_pass_selection_witness :
  (exists sch' calls,
     on_startup (select_all ["/scenarios/old"] false) (scheduler_of work_list)
     = Ok (sch', calls) /\
     scheduled sch' = [scenario_b] /\ passes calls = 2%nat) /\
  on_startup (select_all ["/scenarios/old"] true) (scheduler_of work_list)
  = Raise (ValueError
             "Scenario 'b' has @vedro.only, but 'forbid_only' option is enabled").
Proof.
  assert (Hnd : NoDup (unique_id <$> scheduled (scheduler_of work_list))).
  { cbn. repeat (apply NoDup_cons; split; [set_solver|]). apply NoDup_nil_2. }
  split.
  - destruct (two_pass_selection (select_all ["/scenarios/old"] false)
                outside_selection (scheduler_of work_list) Hnd)
      as [Hoff _].
    { intros scn [<-|[<-|[<-|[<-|[]]]]]; reflexivity. }
    destruct (Hoff eq_refl) as (sch' & calls1 & calls2 & Hrun & Hp & _ & _ & Htwo).
    destruct Htwo as [Hc2 Hs]; [discriminate|].
    exists sch', (Iterate :: calls1 ++ calls2). split; [exact Hrun|].
    split; [exact Hs|]. unfold passes in *. cbn [List.filter length].
    rewrite List.filter_app, length_app, Hp, Hc2. reflexivity.
  - destruct (two_pass_selection (select_all ["/scenarios/old"] true)
                outside_selection (scheduler_of work_list) Hnd)
      as [_ Hon].
    { intros scn [<-|[<-|[<-|[<-|[]]]]]; reflexivity. }
    exact (Hon eq_refl scenario_b [] eq_refl).
Defined.

Lemma forbid_only_names_first_exclusive_witness :
  on_startup (select_all ["/scenarios/old"] true) (scheduler_of work_list)
  = Raise (ValueError (forbid_only_message scenario_b)).
Proof.
  assert (Hnd : NoDup (unique_id <$> scheduled (scheduler_of work_list))).
  { cbn. repeat (apply NoDup_cons; split; [set_solver|]). apply NoDup_nil_2. }
  assert (Hdeemed : forall scn, In scn (scheduled (scheduler_of work_list)) ->
            _is_scenario_ignored (select_all ["/scenarios/old"] true) scn
            = Ok (outside_selection scn)).
  { intros scn [<-|[<-|[<-|[<-|[]]]]]; reflexivity. }
  exact (forbid_only_names_first_exclusive
           (select_all ["/scenarios/old"] true) outside_selection
           (scheduler_of work_list) eq_refl Hnd Hdeemed).
Defined.

Lemma skipped_scenarios_are_marked_witness :
  exists sch' calls,
    on_startup (select_all [] false)
               (scheduler_of [scenario_a; scenario_e; scenario_b])
    = Ok (sch', calls) /\
    skipped_by calls = [(scenario_e, Some "flaky")].
Proof.
  assert (Hnd : NoDup (unique_id
                         <$> scheduled (scheduler_of
                                          [scenario_a; scenario_e; scenario_b]))).
  { cbn. repeat (apply NoDup_cons; split; [set_solver|]). apply NoDup_nil_2. }
  assert (Hdeemed : forall scn,
            In scn (scheduled (scheduler_of [scenario_a; scenario_e; scenario_b])) ->
            _is_scenario_ignored (select_all [] false) scn
            = Ok ((fun _ => false) scn)).
  { intros scn [<-|[<-|[<-|[]]]]; reflexivity. }
  destruct (skipped_scenarios_are_marked (select_all [] false) (fun _ => false)
              (scheduler_of [scenario_a; scenario_e; scenario_b])
              eq_refl Hnd Hdeemed) as (sch' & calls & Hrun & Hs).
  exists sch', calls. split; [exact Hrun | exact Hs].
Defined.

End SkipperStartup.

(** * The positional arguments of the skipper *)

Module CompositePathFacts.
Import Skipper PathFacts.

Lemma occurs_app (c : Ascii.ascii) (a b : string) :
  occurs c (a +:+ b) = occurs c a || occurs c b.
Proof.
  induction a as [|x a IH]; [reflexivity|].
  rewrite append_String. cbn [occurs]. rewrite IH. apply orb_assoc.
Qed.

Lemma split_colons_other (c : Ascii.ascii) (rest : string) :
  Ascii.eqb c colon = false -> rest <> "" ->
  split_colons (String c rest) = push c (split_colons rest).
Proof.
  intros Hc Hrest. destruct rest as [|c' rest']; [done|].
  cbn [split_colons]. rewrite Hc. reflexivity.
Qed.

Lemma split_colons_free (s : string) :
  occurs colon s = false -> split_colons s = [s].
Proof.
  induction s as [|c rest IH]; [reflexivity|]. cbn [occurs].
  intros H. apply orb_false_iff in H as [Hc Hrest].
  destruct rest as [|c' rest']; [reflexivity|].
  rewrite split_colons_other by done. rewrite IH by exact Hrest. reflexivity.
Qed.

Lemma split_colons_app (f rest : string) :
  occurs colon f = false ->
  split_colons (f +:+ "::" +:+ rest) = f :: split_colons rest.
Proof.
  change ("::" +:+ rest) with (String colon (String colon rest)).
  induction f as [|c f IH]; intros H.
  - rewrite append_empty. cbn [split_colons]. rewrite Ascii.eqb_refl. reflexivity.
  - cbn [occurs] in H. apply orb_false_iff in H as [Hc Hf].
    rewrite append_String, split_colons_other, (IH Hf); [reflexivity | exact Hc |].
    destruct f; discriminate.
Qed.

Lemma ascii_numeric_is_ascii (d : string) :
  ascii_numeric d = true -> is_ascii d = true.
Proof.
  unfold ascii_numeric, is_ascii. intros H. apply andb_true_iff in H as [_ H].
  induction (String.list_ascii_of_string d) as [|x l IH]; [reflexivity|].
  cbn [forallb] in *. apply andb_true_iff in H as [Hx Hl].
  rewrite (IH Hl), andb_true_r. unfold is_decimal in Hx.
  apply andb_true_iff in Hx as [_ Hx]. apply N.leb_le in Hx.
  apply N.ltb_lt. lia.
Qed.

Lemma path_parts_scenarios (q : string) :
  path_parts ("scenarios/" +:+ q) = "scenarios" :: path_parts q.
Proof.
  change ("scenarios/" +:+ q) with ("scenarios" +:+ String slash q).
  unfold path_parts. rewrite split_on_app by reflexivity. reflexivity.
Qed.

Section CompositePaths.
Variable normpath : string -> string.
Variable abspath : string -> string.
Variable unicode_isnumeric : string -> bool.
Variable int : string -> result Z.

Lemma _normalize_path_returns (p : string) :
  exists fp, _normalize_path normpath abspath p = Ok fp.
Proof.
  unfold _normalize_path, commonpath.
  destruct (isabs (normpath p)) eqn:Hq; [eauto|].
  change (isabs "scenarios") with false. cbn [Bool.eqb mbind result_bind]. eauto.
Qed.

(** X14. An argument whose last path segment reads [file::Class#index]
    (no colon in the three parts, no [#] in the class name and the index)
    is taken apart into the file, joined to the directory again and
    normalised, and the class name.  The index, when it is numeric, is
    handed to [int]: what [int] reads is the template index, and what it
    raises is raised; an index that is not numeric gives no template
    index.  A run of ASCII digits is numeric. *)
Theorem composite_path_is_parsed (p head f cls d : string) :
  os_path_split p = (head, f +:+ "::" +:+ cls +:+ "#" +:+ d) ->
  occurs colon f = false ->
  occurs colon cls = false -> occurs hash cls = false -> cls <> "" ->
  occurs colon d = false -> occurs hash d = false ->
  exists fp,
    _normalize_path normpath abspath (os_path_join head f) = Ok fp /\
    _get_composite_path normpath abspath unicode_isnumeric int p
    = (if isnumeric unicode_isnumeric d
       then match int d with
            | Ok n => Ok {| file_path := fp; cls_name := Some cls;
                            tmpl_idx := Some n |}
            | Raise e => Raise e
            end
       else Ok {| file_path := fp; cls_name := Some cls; tmpl_idx := None |}) /\
    (ascii_numeric d = true -> isnumeric unicode_isnumeric d = true).
Proof.
  intros Hsplit Hf Hc Hh Hne Hdc Hdh.
  destruct (_normalize_path_returns (os_path_join head f)) as [fp Hfp].
  exists fp. split; [exact Hfp|]. split.
  - unfold _get_composite_path. rewrite Hsplit.
    rewrite split_colons_app by exact Hf.
    rewrite split_colons_free
      by (rewrite !occurs_app, Hc, Hdc; reflexivity).
    cbn [hd tl].
    change (join_with "" [cls +:+ "#" +:+ d]) with (cls +:+ "#" +:+ d).
    change ("#" +:+ d) with (String hash d).
    rewrite split_on_app by exact Hh.
    rewrite split_on_free by exact Hdh.
    cbn [hd tl]. change (join_with "" [d]) with d.
    rewrite Hfp. cbn [mbind result_bind].
    destruct cls as [|c cls]; [done|].
    change (0 <? Z.of_nat (String.length (String c cls))) with true. cbn match.
    destruct (isnumeric unicode_isnumeric d); [|reflexivity].
    destruct (int d) as [n|e]; reflexivity.
  - intros Hd. unfold isnumeric.
    by rewrite (ascii_numeric_is_ascii d Hd).
Qed.

(** X15. Without a colon in its last path segment an argument names a
    file or a directory and nothing else: no class name and no template
    index, even when the segment holds a [#]; the whole segment stays in
    the path. *)
Theorem plain_path_has_no_class (p head tail : string) :
  os_path_split p = (head, tail) ->
  occurs colon tail = false ->
  exists fp,
    _normalize_path normpath abspath (os_path_join head tail) = Ok fp /\
    _get_composite_path normpath abspath unicode_isnumeric int p
    = Ok {| file_path := fp; cls_name := None; tmpl_idx := None |}.
Proof.
  intros Hsplit Htail.
  destruct (_normalize_path_returns (os_path_join head tail)) as [fp Hfp].
  exists fp. split; [exact Hfp|].
  unfold _get_composite_path. rewrite Hsplit, split_colons_free by exact Htail.
  cbn [hd tl]. rewrite Hfp. reflexivity.
Qed.

(** X16. A relative path is looked up under [scenarios]: when the first
    component of a relative, normalised path is not [scenarios], the path
    and the same path with [scenarios/] before it are normalised to the
    same absolute path, that of the latter. *)
Theorem scenarios_prefix_is_optional (q : string) :
  isabs q = false ->
  normpath q = q ->
  normpath ("scenarios/" +:+ q) = "scenarios/" +:+ q ->
  hd_error (path_parts q) <> Some "scenarios" ->
  _normalize_path normpath abspath q = Ok (abspath ("scenarios/" +:+ q)) /\
  _normalize_path normpath abspath ("scenarios/" +:+ q)
  = Ok (abspath ("scenarios/" +:+ q)).
Proof.
  intros Hrel Hq Hsq Hfirst. unfold _normalize_path, commonpath. split.
  - rewrite Hq, Hrel. change (isabs "scenarios") with false.
    cbn [Bool.eqb mbind result_bind].
    change (path_parts "scenarios") with ["scenarios"].
    assert (Hcommon : common_prefix ["scenarios"] (path_parts q) = []).
    { destruct (path_parts q) as [|x l]; [reflexivity|]. cbn [common_prefix].
      destruct (String.eqb_spec "scenarios" x) as [<-|]; [|reflexivity].
      exfalso. by apply Hfirst. }
    rewrite Hcommon. cbn [join_with]. rewrite append_empty.
    change (negb (String.eqb "" "scenarios")) with true. cbn match.
    unfold os_path_join. rewrite Hrel. reflexivity.
  - rewrite Hsq. change (isabs ("scenarios/" +:+ q)) with false.
    change (isabs "scenarios") with false. cbn [Bool.eqb mbind result_bind].
    rewrite path_parts_scenarios.
    change (path_parts "scenarios") with ["scenarios"].
    cbn [common_prefix]. rewrite String.eqb_refl. reflexivity.
Qed.

End CompositePaths.

(** *** The statements above at concrete arguments *)

Lemma composite_path_is_parsed_witness :
  exists fp,
    _normalize_path (fun p => p) (fun p => "/project/" +:+ p)
                    (os_path_join "scenarios" "login.py") = Ok fp /\
    _get_composite_path (fun p => p) (fun p => "/project/" +:+ p)
                        (fun _ => false) ascii_int
                        "scenarios/login.py::Scenario#2"
    = Ok {| file_path := fp; cls_name := Some "Scenario"; tmpl_idx := Some 2 |}.
Proof.
  destruct (composite_path_is_parsed (fun p => p) (fun p => "/project/" +:+ p)
              (fun _ => false) ascii_int
              "scenarios/login.py::Scenario#2" "scenarios" "login.py"
              "Scenario" "2")
    as (fp & Hfp & Hparsed & _); try reflexivity; [discriminate|].
  exists fp. split; [exact Hfp | exact Hparsed].
Defined.

Lemma plain_path_has_no_class_witness :
  exists fp,
    _normalize_path (fun p => p) (fun p => "/project/" +:+ p)
                    (os_path_join "scenarios" "login.py#2") = Ok fp /\
    _get_composite_path (fun p => p) (fun p => "/project/" +:+ p)
                        (fun _ => false) ascii_int
                        "scenarios/login.py#2"
    = Ok {| file_path := fp; cls_name := None; tmpl_idx := None |}.
Proof.
  apply (plain_path_has_no_class (fun p => p) (fun p => "/project/" +:+ p)
           (fun _ => false) ascii_int
           "scenarios/login.py#2" "scenarios" "login.py#2"); reflexivity.
Defined.

Lemma scenarios_prefix_is_optional_witness :
  _normalize_path (fun p => p) (fun p => "/project/" +:+ p) "login/test.py"
  = Ok "/project/scenarios/login/test.py" /\
  _normalize_path (fun p => p) (fun p => "/project/" +:+ p)
                  "scenarios/login/test.py"
  = Ok "/project/scenarios/login/test.py".
Proof.
  apply (scenarios_prefix_is_optional (fun p => p) (fun p => "/project/" +:+ p)
           "login/test.py"); try reflexivity.
  discriminate.
Defined.

End CompositePathFacts.

(** * The printer and the entry point *)

Module PrinterFacts.
Import RichPrinter PathFacts.

Lemma prefixed_join (a : string) (l : list string) :
  "# " +:+ join_with (linesep +:+ "# ") (a :: l)
  = join_with linesep ((fun line => "# " +:+ line) <$> a :: l).
Proof.
  revert a. induction l as [|b l IH]; intros a; [reflexivity|].
  rewrite !fmap_cons, !join_with_cons. rewrite <- fmap_cons, <- IH.
  rewrite !append_assoc. reflexivity.
Qed.

(** X17. The summary of the report is printed in one piece, each line on
    a line of its own and marked with [# ]: cutting the text at the line
    separators gives the lines of the summary back, each with [# ] before
    it.  Nothing is printed for an empty summary. *)
Theorem summary_lines_are_printed (summary : list string) :
  Forall (fun line => occurs newline line = false) summary ->
  match summary with
  | [] => print_report_summary summary = []
  | _ :: _ =>
      exists text,
        texts (print_report_summary summary) = [text] /\
        split_on newline text = (fun line => "# " +:+ line) <$> summary
  end.
Proof.
  intros Hlines. destruct summary as [|a l]; [reflexivity|].
  exists ("# " +:+ join_with (linesep +:+ "# ") (a :: l)).
  split; [reflexivity|]. rewrite prefixed_join. unfold linesep.
  apply split_join; [discriminate|].
  apply Forall_fmap. eapply Forall_impl; [exact Hlines|].
  intros line Hline. cbn. rewrite CompositePathFacts.occurs_app, Hline. reflexivity.
Qed.

Lemma summary_lines_are_printed_witness :
  exists text,
    texts (print_report_summary ["--seed 42"; "repeated x3"]) = [text] /\
    split_on newline text = ["# --seed 42"; "# repeated x3"].
Proof.
  apply (summary_lines_are_printed ["--seed 42"; "repeated x3"]).
  repeat constructor.
Defined.

Lemma replace_char_app (c : Ascii.ascii) (by_ a b : string) :
  replace_char c by_ (a +:+ b) = replace_char c by_ a +:+ replace_char c by_ b.
Proof.
  induction a as [|x a IH]; [reflexivity|].
  rewrite append_String. cbn [replace_char]. rewrite IH.
  destruct (Ascii.eqb x c); [by rewrite append_assoc | reflexivity].
Qed.

Lemma replace_char_free (c : Ascii.ascii) (by_ s : string) :
  occurs c s = false -> replace_char c by_ s = s.
Proof.
  induction s as [|x s IH]; [reflexivity|]. cbn [occurs replace_char].
  intros H. apply orb_false_iff in H as [Hx Hs]. by rewrite Hx, IH.
Qed.

Lemma replace_char_join (c : Ascii.ascii) (by_ sep : string) (parts : list string) :
  replace_char c by_ (join_with sep parts)
  = join_with (replace_char c by_ sep) (replace_char c by_ <$> parts).
Proof.
  induction parts as [|a [|b l] IH]; [reflexivity..|].
  rewrite !fmap_cons, !join_with_cons, !replace_char_app.
  rewrite <- !fmap_cons, <- IH. reflexivity.
Qed.

Lemma underscores_keep_components (s : string) :
  occurs slash s = false ->
  occurs slash (replace_char underscore " " s) = false.
Proof.
  induction s as [|x s IH]; [reflexivity|]. cbn [occurs replace_char].
  intros H. apply orb_false_iff in H as [Hx Hs].
  destruct (Ascii.eqb x underscore).
  - change (" " +:+ replace_char underscore " " s)
      with (String (Ascii.ascii_of_nat 32) (replace_char underscore " " s)).
    cbn [occurs]. by rewrite IH.
  - cbn [occurs]. by rewrite Hx, IH.
Qed.

(** X19. A namespace is printed after [* ], its directories (the parts
    between the separators) in order, underscores shown as spaces, and
    [ / ] between one directory and the next. *)
Theorem namespace_is_spelled_out (dirs : list string) :
  Forall (fun dir => occurs slash dir = false) dirs ->
  texts (print_namespace (join_with "/" dirs))
  = ["* " +:+ join_with " / " (replace_char underscore " " <$> dirs)].
Proof.
  intros Hdirs. unfold print_namespace, texts. cbn [fmap list_fmap].
  do 2 f_equal. rewrite !replace_char_join.
  change (replace_char underscore " " "/") with "/".
  change (replace_char slash " / " "/") with " / ". f_equal.
  induction dirs as [|dir rest IH]; [reflexivity|].
  apply Forall_cons in Hdirs as [Hdir Hrest]. rewrite !fmap_cons.
  rewrite IH by exact Hrest. f_equal.
  by apply replace_char_free, underscores_keep_components.
Qed.

Lemma namespace_is_spelled_out_witness :
  texts (print_namespace "sign_up/by_email")
  = ["* sign up / by email"].
Proof.
  apply (namespace_is_spelled_out ["sign_up"; "by_email"]).
  repeat constructor.
Defined.

Lemma running_app (l1 l2 : list SpinnerCall) :
  forall before, running before (l1 ++ l2) = running (running before l1) l2.
Proof.
  induction l1 as [|c l1 IH]; intros before; [reflexivity|].
  destruct c; cbn [app running]; apply IH.
Qed.

Lemma spinner_step (op : SpinnerOp) (spinner : option string) :
  let '(spinner', calls) :=
    match op with
    | Show status => show_spinner status spinner
    | Hide => hide_spinner spinner
    end in
  (forall n, 0 <= running (active spinner) (take n calls) <= 1) /\
  running (active spinner) calls = active spinner'.
Proof.
  destruct op as [status|], spinner as [old|]; cbn; (split; [|reflexivity]);
    intros [|[|[|[|n]]]]; cbn; lia.
Qed.

Lemma spin_keeps_one (ops : list SpinnerOp) :
  forall spinner,
    let '(spinner', calls) := spin ops spinner in
    (forall n, 0 <= running (active spinner) (take n calls) <= 1) /\
    running (active spinner) calls = active spinner'.
Proof.
  induction ops as [|op rest IH]; intros spinner.
  - cbn. split; [|reflexivity]. intros n. rewrite take_nil. cbn.
    destruct spinner; cbn; lia.
  - cbn [spin]. pose proof (spinner_step op spinner) as Hstep.
    destruct (match op with
              | Show status => show_spinner status spinner
              | Hide => hide_spinner spinner
              end) as [spinner1 calls1].
    specialize (IH spinner1). destruct (spin rest spinner1) as [spinner2 calls2].
    destruct Hstep as [Hpre1 Hend1], IH as [Hpre2 Hend2]. split.
    + intros n. rewrite take_app, running_app.
      destruct (decide (n <= length calls1)%nat) as [Hle|Hgt].
      * replace (n - length calls1)%nat with O by lia. rewrite take_0.
        cbn [running]. apply Hpre1.
      * rewrite (take_ge calls1) by lia. rewrite Hend1. apply Hpre2.
    + rewrite running_app, Hend1. exact Hend2.
Qed.

Lemma spin_ends_hidden (ops : list SpinnerOp) :
  forall spinner, last ops = Some Hide -> fst (spin ops spinner) = None.
Proof.
  induction ops as [|op rest IH]; intros spinner0 Hl; [discriminate|].
  cbn [spin].
  destruct (match op with
            | Show status => show_spinner status spinner0
            | Hide => hide_spinner spinner0
            end) as [spinner1 calls1] eqn:Hop.
  destruct rest as [|op' rest'].
  - cbn in Hl. injection Hl as ->. cbn. destruct spinner0; cbn in Hop;
      injection Hop as <- <-; reflexivity.
  - specialize (IH spinner1 Hl). destruct (spin (op' :: rest') spinner1).
    exact IH.
Qed.

(** X20. However [show_spinner] and [hide_spinner] are called, one after
    the other, there is never more than one spinner running: at every
    point of the calls made, the spinners started less those stopped are
    none or one, and at the end one is running exactly when the printer
    holds one, which after a [hide_spinner] it does not. *)
Theorem one_spinner_at_a_time (ops : list SpinnerOp) :
  let '(spinner, calls) := spin ops None in
  (forall n, 0 <= running 0 (take n calls) <= 1) /\
  running 0 calls = match spinner with Some _ => 1 | None => 0 end /\
  (last ops = Some Hide -> spinner = None).
Proof.
  pose proof (spin_keeps_one ops None) as H.
  pose proof (spin_ends_hidden ops None) as Hlast.
  destruct (spin ops None) as [spinner calls].
  destruct H as [Hpre Hend]. split; [exact Hpre|]. split; [exact Hend|].
  exact Hlast.
Qed.

End PrinterFacts.

Module RunFacts.
Import Run.

Lemma sort_out_filter (plugins : list Plugin) :
  forall all_plugins reporters,
    sort_out plugins all_plugins reporters
    = (all_plugins ++ List.filter (fun p => negb (is_reporter p)) plugins,
       reporters ++ List.filter is_reporter plugins).
Proof.
  induction plugins as [|plugin rest IH]; intros all_plugins reporters.
  - cbn. by rewrite !app_nil_r.
  - unfold sort_out in *. cbn [fold_left List.filter].
    destruct (is_reporter plugin); cbn [negb]; rewrite IH, <- app_assoc;
      reflexivity.
Qed.

(** X18. [run] registers the plugins it was given that are no reporters,
    in the order given, and after them the director, the skipper and the
    terminator; the director gets the rich and the silent reporter and
    then the reporters it was given, in the order given.  So every plugin
    handed over is used exactly once, and not giving any, or an empty
    list, registers the three built-in plugins alone. *)
Theorem run_registers_plugins (plugins : option (list Plugin)) :
  let given := default [] plugins in
  registered_plugins plugins
  = List.filter (fun p => negb (is_reporter p)) given
      ++ [Director ([RichReporter; SilentReporter] ++ List.filter is_reporter given);
          Skipper; Terminator] /\
  given ≡ₚ List.filter is_reporter given
            ++ List.filter (fun p => negb (is_reporter p)) given.
Proof.
  cbn zeta. split.
  - unfold registered_plugins.
    destruct plugins as [[|plugin rest]|]; [reflexivity| |reflexivity].
    rewrite sort_out_filter. reflexivity.
  - induction (default [] plugins) as [|plugin rest IH]; [reflexivity|].
    cbn [List.filter]. destruct (is_reporter plugin); cbn [negb app].
    + by constructor.
    + rewrite <- Permutation_middle. by constructor.
Qed.

End RunFacts.

(** * The arguments of the skipper *)

Module ArgParsedFacts.
Import Skipper CompositePathFacts.

Section WithFileSystem.
Variable normpath : string -> string.
Variable abspath : string -> string.
Variable unicode_isnumeric : string -> bool.
Variable int : string -> result Z.
Variable path_exists : string -> bool.

(** Parsing an argument fails only where [int] does, on a numeric
    template index. *)
Lemma _get_composite_path_raises (file_or_dir : string) (e : exn) :
  _get_composite_path normpath abspath unicode_isnumeric int file_or_dir
  = Raise e ->
  exists idx, isnumeric unicode_isnumeric idx = true /\ int idx = Raise e.
Proof.
  unfold _get_composite_path.
  destruct (os_path_split file_or_dir) as [head tail].
  destruct (_normalize_path_returns normpath abspath
              (os_path_join head (hd "" (split_colons tail)))) as [fp Hfp].
  rewrite Hfp. cbn [mbind result_bind].
  set (idx := join_with "" (tl (split_on hash
                                  (join_with "" (tl (split_colons tail)))))).
  destruct (isnumeric unicode_isnumeric idx) eqn:Hnum; [|discriminate].
  destruct (int idx) as [n|e'] eqn:Hint; cbn [mbind result_bind];
    [discriminate|].
  intros [= <-]. exists idx. split; [exact Hnum | exact Hint].
Qed.

Lemma collect_spec (args : list string) :
  forall paths,
    match collect normpath abspath unicode_isnumeric int path_exists args paths with
    | Ok out =>
        exists parsed,
          out = paths ++ parsed /\
          Forall2 (parsed_as normpath abspath unicode_isnumeric int
                             path_exists true) args parsed
    | Raise e =>
        (e = AssertionError /\
         Exists (fun a => exists cp,
                   parsed_as normpath abspath unicode_isnumeric int
                             path_exists false a cp) args) \/
        (Exists (fun a => _get_composite_path normpath abspath
                            unicode_isnumeric int a = Raise e) args /\
         exists idx, isnumeric unicode_isnumeric idx = true /\
                     int idx = Raise e)
    end.
Proof.
  induction args as [|a rest IH]; intros paths.
  - cbn. exists []. split; [by rewrite app_nil_r | constructor].
  - cbn [collect].
    destruct (_get_composite_path normpath abspath unicode_isnumeric int a)
      as [cp|e] eqn:Hcp; cbn [mbind result_bind].
    2: { right. split; [by apply Exists_cons_hd|].
         by apply (_get_composite_path_raises a). }
    destruct (path_exists (file_path cp)) eqn:Hex.
    + specialize (IH (paths ++ [cp])).
      destruct (collect normpath abspath unicode_isnumeric int path_exists
                        rest (paths ++ [cp])) as [out|e].
      * destruct IH as (parsed & -> & Hall). exists (cp :: parsed). split.
        -- by rewrite <- app_assoc.
        -- constructor; [split; assumption | exact Hall].
      * destruct IH as [[-> Hbad]|[Hbad Hint]]; [left | right].
        -- split; [reflexivity|]. by apply Exists_cons_tl.
        -- split; [by apply Exists_cons_tl | exact Hint].
    + left. split; [reflexivity|]. apply Exists_cons_hd. exists cp.
      split; assumption.
Qed.

(** X21. [on_arg_parsed] parses the selected and then the ignored
    arguments and asserts that the path of each exists.  When it returns,
    it has stored the subject and appended the parsed paths, in the order
    given, to the selected and the deselected paths it had.  It raises an
    [AssertionError] for an argument whose path is neither a directory nor
    a file, and what [int] raises on the numeric template index of an
    argument it cannot read; it raises in no other way. *)
Theorem arguments_must_exist (subject : option string)
    (file_or_dir ignored : list string) (sk : SkipperPlugin) :
  match on_arg_parsed normpath abspath unicode_isnumeric int path_exists
                      subject file_or_dir ignored sk with
  | Ok sk' =>
      _subject sk' = subject /\ _forbid_only sk' = _forbid_only sk /\
      exists selected deselected,
        _selected sk' = _selected sk ++ selected /\
        _deselected sk' = _deselected sk ++ deselected /\
        Forall2 (parsed_as normpath abspath unicode_isnumeric int
                           path_exists true) file_or_dir selected /\
        Forall2 (parsed_as normpath abspath unicode_isnumeric int
                           path_exists true) ignored deselected
  | Raise e =>
      (e = AssertionError /\
       Exists (fun a => exists cp,
                 parsed_as normpath abspath unicode_isnumeric int
                           path_exists false a cp)
              (file_or_dir ++ ignored)) \/
      (Exists (fun a => _get_composite_path normpath abspath
                          unicode_isnumeric int a = Raise e)
              (file_or_dir ++ ignored) /\
       exists idx, isnumeric unicode_isnumeric idx = true /\ int idx = Raise e)
  end.
Proof.
  unfold on_arg_parsed.
  pose proof (collect_spec file_or_dir (_selected sk)) as Hsel.
  destruct (collect normpath abspath unicode_isnumeric int path_exists
                    file_or_dir (_selected sk))
    as [selected|e]; cbn [mbind result_bind].
  - pose proof (collect_spec ignored (_deselected sk)) as Hdes.
    destruct (collect normpath abspath unicode_isnumeric int path_exists
                      ignored (_deselected sk))
      as [deselected|e]; cbn [mbind result_bind].
    + destruct Hsel as (sel & -> & Hs), Hdes as (des & -> & Hd).
      split; [reflexivity|]. split; [reflexivity|]. exists sel, des. auto.
    + destruct Hdes as [[-> Hbad]|[Hbad Hint]]; [left | right].
      * split; [reflexivity|]. apply Exists_app. by right.
      * split; [apply Exists_app; by right | exact Hint].
  - destruct Hsel as [[-> Hbad]|[Hbad Hint]]; [left | right].
    + split; [reflexivity|]. apply Exists_app. by left.
    + split; [apply Exists_app; by left | exact Hint].
Qed.

End WithFileSystem.

End ArgParsedFacts.
